(** * A shallow embedding of the core of the virtual machine in [src/vm.cpp]

    The development follows the source file from top to bottom:
    the thread coordinator ([enter]), the protector list and the root scanner
    ([Thread::Protector], [iterate]), the object store with the accessors the
    interpreter uses, the exception factory ([makeString], [makeTrace] and the
    [makeX] helpers), [instanceOf], and the parts of the dispatch loop [run]
    that the verified properties talk about, with its [invoke] and [throw_]
    join points. *)

From Stdlib Require Import ZArith List Lia Bool String Ascii.
From stdpp Require Import base list.
Import ListNotations.
Local Open Scope Z_scope.

(** ** Machine integers *)

Module Word.

(** [unsigned] and [uint32_t] arithmetic wraps modulo 2^32. *)
Definition u32 (z : Z) : Z := z mod 2 ^ 32.

(** [int32_t]: the two's complement reading of the low 32 bits. *)
Definition s32 (z : Z) : Z := (z + 2 ^ 31) mod 2 ^ 32 - 2 ^ 31.

Definition u16 (z : Z) : Z := z mod 2 ^ 16.

End Word.

(** ** The thread coordinator *)

Module Coordinator.

(** [Thread::State]. *)
Inductive State :=
| NoState | ActiveState | IdleState | ZombieState | ExclusiveState | ExitState.

Definition State_eqb (a b : State) : bool :=
  match a, b with
  | NoState, NoState | ActiveState, ActiveState | IdleState, IdleState
  | ZombieState, ZombieState | ExclusiveState, ExclusiveState
  | ExitState, ExitState => true
  | _, _ => false
  end.

(** The coordination fields of [Machine].  A [Thread*] is modelled by the
    thread's number; the null pointer is [None]. *)
Record Machine := mkMachine {
  exclusive : option nat;
  activeCount : Z;
  liveCount : Z
}.

(** What a call of [enter] does to the shared state and to the monitor, in
    program order. *)
Inductive event :=
| Acquire | Release | Wait | NotifyAll
| IncActive | DecActive | IncLive | DecLive
| SetExclusive | ClearExclusive.

(** The state a call works on: the machine, the calling thread's
    [t->state], what the thread finds in the machine each time
    [stateLock->wait()] returns (other threads run only while the monitor is
    released by a wait), and the events so far, latest first. *)
Record world := mkWorld {
  vm : Machine;
  state : State;
  wakeups : list Machine;
  trace : list event
}.

(** A call returns, aborts the process ([abort(t)] does not return), or
    waits for ever. *)
Inductive outcome (A : Type) :=
| Returns (a : A) (w : world)
| Aborts (w : world)
| Blocks (w : world).
Arguments Returns {A} a w.
Arguments Aborts {A} w.
Arguments Blocks {A} w.

Definition M (A : Type) : Type := world -> outcome A.

Definition ret {A} (a : A) : M A := fun w => Returns a w.

Definition bind {A B} (m : M A) (k : A -> M B) : M B :=
  fun w =>
    match m w with
    | Returns a w' => k a w'
    | Aborts w' => Aborts w'
    | Blocks w' => Blocks w'
    end.

#[local] Notation "x <- m ;; k" := (bind m (fun x => k))
  (at level 100, m at level 99, right associativity).
#[local] Notation "m ;;; k" := (bind m (fun _ => k))
  (at level 100, right associativity).

Definition final {A} (o : outcome A) : world :=
  match o with
  | Returns _ w | Aborts w | Blocks w => w
  end.

Definition emit (e : event) : M unit :=
  fun w => Returns tt (mkWorld (vm w) (state w) (wakeups w) (e :: trace w)).

Definition abort {A} : M A := fun w => Aborts w.

(** [assert(t, v)]. *)
Definition assert (v : bool) : M unit := if v then ret tt else abort.

Definition get_vm : M Machine := fun w => Returns (vm w) w.
Definition get_state : M State := fun w => Returns (state w) w.

Definition set_vm (m : Machine) : M unit :=
  fun w => Returns tt (mkWorld m (state w) (wakeups w) (trace w)).

(** [t->state = s]. *)
Definition set_state (s : State) : M unit :=
  fun w => Returns tt (mkWorld (vm w) s (wakeups w) (trace w)).

(** [t->vm->exclusive = x]. *)
Definition set_exclusive (x : option nat) : M unit :=
  m <- get_vm ;;
  set_vm (mkMachine x (activeCount m) (liveCount m)) ;;;
  emit (match x with Some _ => SetExclusive | None => ClearExclusive end).

(** [++ t->vm->activeCount] and [-- t->vm->activeCount], on [unsigned]. *)
Definition inc_active : M unit :=
  m <- get_vm ;;
  set_vm (mkMachine (exclusive m) (Word.u32 (activeCount m + 1)) (liveCount m)) ;;;
  emit IncActive.

Definition dec_active : M unit :=
  m <- get_vm ;;
  set_vm (mkMachine (exclusive m) (Word.u32 (activeCount m - 1)) (liveCount m)) ;;;
  emit DecActive.

(** [++ t->vm->liveCount] and [-- t->vm->liveCount]. *)
Definition inc_live : M unit :=
  m <- get_vm ;;
  set_vm (mkMachine (exclusive m) (activeCount m) (Word.u32 (liveCount m + 1))) ;;;
  emit IncLive.

Definition dec_live : M unit :=
  m <- get_vm ;;
  set_vm (mkMachine (exclusive m) (activeCount m) (Word.u32 (liveCount m - 1))) ;;;
  emit DecLive.

(** [while (guard) t->vm->stateLock->wait();] *)
Fixpoint wait_while_from (guard : Machine -> bool) (ws : list Machine)
    (m : Machine) (s : State) (tr : list event) : outcome unit :=
  if guard m then
    match ws with
    | [] => Blocks (mkWorld m s [] (Wait :: tr))
    | m' :: ws' => wait_while_from guard ws' m' s (Wait :: tr)
    end
  else Returns tt (mkWorld m s ws tr).

Definition wait_while (guard : Machine -> bool) : M unit :=
  fun w => wait_while_from guard (wakeups w) (vm w) (state w) (trace w).

Definition is_exclusive (m : Machine) : bool :=
  match exclusive m with Some _ => true | None => false end.

Definition exclusive_is (t : nat) (m : Machine) : bool :=
  match exclusive m with Some x => Nat.eqb x t | None => false end.

(** [ACQUIRE_MONITOR(t->vm->stateLock)]: acquired here, released by the
    destructor when the function returns. *)
Definition with_monitor {A} (body : M A) : M A :=
  emit Acquire ;;; a <- body ;; emit Release ;;; ret a.

(** The cases [IdleState] and [ZombieState] of the switch. *)
Definition enter_idle_or_zombie (t : nat) (s : State) : M unit :=
  st <- get_state ;;
  match st with
  | ExclusiveState =>
      m <- get_vm ;; assert (exclusive_is t m) ;;; set_exclusive None
  | ActiveState => ret tt
  | _ => abort
  end ;;;
  dec_active ;;;
  (if State_eqb s ZombieState then dec_live else ret tt) ;;;
  set_state s ;;;
  emit NotifyAll.

(** The case [ActiveState]. *)
Definition enter_active (t : nat) (s : State) : M unit :=
  st <- get_state ;;
  match st with
  | ExclusiveState =>
      m <- get_vm ;; assert (exclusive_is t m) ;;;
      set_state s ;;;
      set_exclusive None ;;;
      emit NotifyAll
  | NoState | IdleState =>
      wait_while is_exclusive ;;;
      inc_active ;;;
      st' <- get_state ;;
      (if State_eqb st' NoState then inc_live else ret tt) ;;;
      set_state s
  | _ => abort
  end.

(** The case [ExitState]. *)
Definition enter_exit (t : nat) (s : State) : M unit :=
  st <- get_state ;;
  match st with
  | ExclusiveState =>
      m <- get_vm ;; assert (exclusive_is t m) ;;; set_exclusive None
  | ActiveState => ret tt
  | _ => abort
  end ;;;
  dec_active ;;;
  set_state s ;;;
  wait_while (fun m => 1 <? liveCount m).

(** [enter(t, s)] for the targets whose case does not call [enter] again. *)
Definition enter_flat (t : nat) (s : State) : M unit :=
  st <- get_state ;;
  if State_eqb s st then ret tt
  else
    with_monitor
      match s with
      | IdleState | ZombieState => enter_idle_or_zombie t s
      | ActiveState => enter_active t s
      | ExitState => enter_exit t s
      | _ => abort
      end.

(** [while (t->vm->exclusive) { enter(t, IdleState); enter(t, ActiveState); }]
    The number of rounds is bounded by [fuel]; running out of it counts as
    waiting for ever. *)
Fixpoint yield_while_exclusive (fuel : nat) (t : nat) : M unit :=
  m <- get_vm ;;
  if is_exclusive m then
    match fuel with
    | O => fun w => Blocks w
    | S fuel' =>
        enter_flat t IdleState ;;;
        enter_flat t ActiveState ;;;
        yield_while_exclusive fuel' t
    end
  else ret tt.

(** The case [ExclusiveState]. *)
Definition enter_exclusive (fuel : nat) (t : nat) : M unit :=
  st <- get_state ;;
  assert (State_eqb st ActiveState) ;;;
  yield_while_exclusive fuel t ;;;
  set_state ExclusiveState ;;;
  set_exclusive (Some t) ;;;
  wait_while (fun m => 1 <? activeCount m).

(** [enter(Thread* t, Thread::State s)]. *)
Definition enter (fuel : nat) (t : nat) (s : State) : M unit :=
  st <- get_state ;;
  if State_eqb s st then ret tt
  else
    with_monitor
      match s with
      | ExclusiveState => enter_exclusive fuel t
      | IdleState | ZombieState => enter_idle_or_zombie t s
      | ActiveState => enter_active t s
      | ExitState => enter_exit t s
      | NoState => abort
      end.

(** A call of [enter] from a given machine and thread state, with an empty
    event list. *)
Definition call_enter (fuel : nat) (t : nat) (s : State)
    (m : Machine) (st : State) (ws : list Machine) : outcome unit :=
  enter fuel t s (mkWorld m st ws []).

(** The events of a call, in program order. *)
Definition events {A} (o : outcome A) : list event := rev (trace (final o)).

(** *** Vocabulary of the program logic *)

(** [triple P m Q E]: started in a world satisfying [P], the computation
    [m] either returns a value and a world related by [Q], or stops (by
    aborting or by waiting for ever) in a world satisfying [E]. *)
Definition triple {A} (P : world -> Prop) (m : M A)
    (Q : A -> world -> Prop) (E : world -> Prop) : Prop :=
  forall w, P w ->
    match m w with
    | Returns a w' => Q a w'
    | Aborts w' | Blocks w' => E w'
    end.

(** The invariant of every call that is not the transition from [NoState]
    to [ActiveState]: the thread has a state, and [liveCount] has not been
    incremented. *)
Definition counted (w : world) : Prop :=
  state w <> NoState /\ ~ In IncLive (trace w).

(** [keeps m]: [m] maintains [counted] on every path. *)
Definition keeps {A} (m : M A) : Prop :=
  triple counted m (fun _ => counted) counted.

End Coordinator.

(** ** The object model *)

(** [typedef void* object]: a machine word holding the address of a record of
    the store; the null reference is [0]. *)
Definition object := Z.

(** Modelled from the spec: the enumeration continues in [type-enums.h],
    which is not part of the sources; there is one type for each kind of
    record of the object model, under the names that [vm.cpp] uses
    ([NullType], [LongType], [ByteArrayType], [ObjectArrayType],
    [InterfaceType], [ReferenceType], ...). *)
Inductive ObjectType :=
| NullType | ByteType | ShortType | IntType | LongType | DoubleType
| ByteArrayType | CharArrayType | ShortArrayType | IntArrayType
| LongArrayType | ObjectArrayType | RawArrayType
| StringType | TraceType | FrameType | MethodType | CodeType
| ExceptionHandlerTableType | ClassType | InterfaceType | ReferenceType
| InstanceType | ThreadType
| ArrayIndexOutOfBoundsExceptionType | NegativeArrayStoreExceptionType
| ClassCastExceptionType | ClassNotFoundExceptionType
| NullPointerExceptionType | StackOverflowErrorType
| NoSuchFieldErrorType | NoSuchMethodErrorType.

(** The throwables that the machine itself makes, through the [makeX]
    functions; each carries a message and a trace. *)
Inductive Throwable :=
| ArrayIndexOutOfBoundsException | NegativeArrayStoreException
| ClassCastException | ClassNotFoundException | NullPointerException
| StackOverflowError | NoSuchFieldError | NoSuchMethodError.

(** Modelled from the spec: [ExceptionHandler] is declared in
    [type-header.h], which is not part of the sources.  A row of a method's
    exception handler table is (startPc, endPc, handlerPc, catchTypeIndex);
    [vm.cpp] reads the last two, through [exceptionHandlerIp] and
    [exceptionHandlerCatchType]. *)
Record ExceptionHandler := mkExceptionHandler {
  exceptionHandlerStart : Z;
  exceptionHandlerEnd : Z;
  exceptionHandlerIp : Z;
  exceptionHandlerCatchType : Z
}.

(** Modelled from the spec: the record types are declared in the generated
    [type-header.h], which is not part of the sources; the fields are those
    that the accessors and constructors used in [vm.cpp] name
    ([frameMethod], [frameNext], [frameIp], [frameStackBase], [frameLocals],
    [makeFrame(t, method, next, ip, stackBase, length)], ...), and a body is
    the list of its elements, its length field the length of that list.  The
    class word of a record appears only where [vm.cpp] reads it through
    [objectClass], for plain instances. *)
Module Cell.

Inductive t :=
| Byte (value : Z)
| Short (value : Z)
| Int (value : Z)
| Long (value : Z)
| ByteArray (body : list Z)
| CharArray (body : list Z)
| ShortArray (body : list Z)
| IntArray (body : list Z)
| LongArray (body : list Z)
| ObjectArray (elementClass : object) (body : list object)
| RawArray (body : list object)
| String (bytes : object) (offset length hash : Z)
| Trace (method : object) (ip : Z) (next : object)
| Frame (method next : object) (ip stackBase : Z) (locals : list object)
| Method (class : object) (name spec : object) (parameterCount : Z) (code : object)
| Code (pool : object) (exceptionHandlerTable : object)
       (maxStack maxLocals : Z) (body : list Z)
| ExceptionHandlerTable (body : list ExceptionHandler)
| Class (id : Z) (name : object) (super : object) (interfaceTable : object)
| Interface (id : Z) (name : object)
| Instance (class : object) (fields : list object)
| ThreadObject (exceptionHandler : object)
| Thrown (type : Throwable) (message trace : object).

End Cell.

(** The addresses that are handed to a [Heap::Visitor]: the four reference
    fields of the thread, the slots of its operand stack, and the local
    variables of the running C++ functions that a [PROTECT] registers, named
    by function and variable. *)
Inductive slot :=
| ThreadSlot      (* &(t->thread) *)
| FrameSlot       (* &(t->frame) *)
| CodeSlot        (* &(t->code) *)
| ExceptionSlot   (* &(t->exception) *)
| StackSlot (i : Z)           (* t->stack + i *)
| LocalSlot (name : string).  (* &name *)

(** [Thread::Protector]: a link of the list, with the slot it protects and
    the link that was the head of the list when it was constructed. *)
#[warnings="-register-all"]
Inductive Protector := mkProtector (p : slot) (next : option Protector).

Definition Protector_p (this : Protector) : slot :=
  match this with mkProtector p _ => p end.

Definition Protector_next (this : Protector) : option Protector :=
  match this with mkProtector _ next => next end.

(** [class Thread].  [store] holds the records that the thread's references
    point into, that is the nursery [t->heap] and the machine's heap
    together; record number [n] of the list has address [n + 1].  The links
    [next] and [child] to other threads are not represented. *)
Record Thread := mkThread {
  state : Coordinator.State;
  thread : object;
  frame : object;
  code : object;
  exception : object;
  ip : Z;
  sp : Z;
  heapIndex : Z;
  stack : list object;
  protector : option Protector;
  store : list Cell.t
}.

Definition StackSize : Z := 64 * 1024.
Definition HeapSize : Z := 64 * 1024.

Definition set_frame (v : object) (t : Thread) : Thread :=
  mkThread (state t) (thread t) v (code t) (exception t) (ip t) (sp t)
    (heapIndex t) (stack t) (protector t) (store t).

Definition set_code (v : object) (t : Thread) : Thread :=
  mkThread (state t) (thread t) (frame t) v (exception t) (ip t) (sp t)
    (heapIndex t) (stack t) (protector t) (store t).

Definition set_exception (v : object) (t : Thread) : Thread :=
  mkThread (state t) (thread t) (frame t) (code t) v (ip t) (sp t)
    (heapIndex t) (stack t) (protector t) (store t).

Definition set_ip (v : Z) (t : Thread) : Thread :=
  mkThread (state t) (thread t) (frame t) (code t) (exception t) v (sp t)
    (heapIndex t) (stack t) (protector t) (store t).

Definition set_sp (v : Z) (t : Thread) : Thread :=
  mkThread (state t) (thread t) (frame t) (code t) (exception t) (ip t) v
    (heapIndex t) (stack t) (protector t) (store t).

Definition set_heapIndex (v : Z) (t : Thread) : Thread :=
  mkThread (state t) (thread t) (frame t) (code t) (exception t) (ip t) (sp t)
    v (stack t) (protector t) (store t).

Definition set_stack (v : list object) (t : Thread) : Thread :=
  mkThread (state t) (thread t) (frame t) (code t) (exception t) (ip t) (sp t)
    (heapIndex t) v (protector t) (store t).

Definition set_protector (v : option Protector) (t : Thread) : Thread :=
  mkThread (state t) (thread t) (frame t) (code t) (exception t) (ip t) (sp t)
    (heapIndex t) (stack t) v (store t).

Definition set_store (v : list Cell.t) (t : Thread) : Thread :=
  mkThread (state t) (thread t) (frame t) (code t) (exception t) (ip t) (sp t)
    (heapIndex t) (stack t) (protector t) v.

(** ** Protectors and the root scanner *)

(** [Protector(Thread* t, object* p): t(t), p(p), next(t->protector)
    { t->protector = this; }] *)
Definition Protector_new (p : slot) (t : Thread) : Protector * Thread :=
  let this := mkProtector p (protector t) in
  (this, set_protector (Some this) t).

(** [~Protector() { t->protector = next; }] *)
Definition Protector_delete (this : Protector) (t : Thread) : Thread :=
  set_protector (Protector_next this) t.

(** [for (Thread::Protector* p = t->protector; p; p = p->next) v->visit(p->p);] *)
Fixpoint protected_from (this : Protector) : list slot :=
  match this with
  | mkProtector p next =>
      p :: match next with
           | Some q => protected_from q
           | None => []
           end
  end.

Definition protected (head : option Protector) : list slot :=
  match head with
  | Some this => protected_from this
  | None => []
  end.

(** [for (unsigned i = 0; i < t->sp; ++i) v->visit(t->stack + t->sp);]
    The address visited in round [i] is the one the body computes. *)
Definition visit_stack (t : Thread) : list slot :=
  map (fun i : nat => StackSlot (sp t)) (seq 0 (Z.to_nat (sp t))).

(** [iterate(Thread* t, Heap::Visitor* v)]: the thread after the call and the
    addresses passed to [v->visit], in order.  A visitor may store a
    forwarded reference through an address it is given; it cannot reach
    [t->sp] or the protector links, so the addresses do not depend on it.
    The last loop of the source, over [t->child], declares a second [t]
    whose initialiser reads that same new variable; it is left out. *)
Definition iterate (t : Thread) : Thread * list slot :=
  let t := set_heapIndex 0 t in
  (t,
   [ThreadSlot; FrameSlot; CodeSlot; ExceptionSlot]
     ++ visit_stack t
     ++ protected (protector t)).

(** The stack addresses among the visited ones. *)
Definition is_StackSlot (s : slot) : bool :=
  match s with StackSlot _ => true | _ => false end.

(** *** Scopes

    What a C++ function does to the protector list: it opens a scope by
    constructing a [Protector] for one of its locals ([PROTECT]), it closes
    the innermost open scope, whose destructor then runs, or it runs other
    code, which may change every field of the thread except
    [t->protector], assigned only by the constructor and the destructor. *)
Inductive action :=
| Open (p : slot)
| Close
| Other (f : Thread -> Thread).

(** The thread together with the [Protector] objects of the open scopes,
    innermost first. *)
Definition scoped : Type := Thread * list Protector.

Definition act (a : action) (s : scoped) : option scoped :=
  let '(t, live) := s in
  match a with
  | Open p => let '(this, t') := Protector_new p t in Some (t', this :: live)
  | Close =>
      match live with
      | this :: live' => Some (Protector_delete this t, live')
      | [] => None
      end
  | Other f => Some (set_protector (protector t) (f t), live)
  end.

Fixpoint acts (l : list action) (s : scoped) : option scoped :=
  match l with
  | [] => Some s
  | a :: l' =>
      match act a s with
      | Some s' => acts l' s'
      | None => None
      end
  end.

(** ** The store *)

(** The record at an address; nothing at the null reference or outside the
    store. *)
Definition lookup (h : list Cell.t) (o : object) : option Cell.t :=
  if o <=? 0 then None else h !! Z.to_nat (o - 1).

(** The store with the record at an address replaced. *)
Definition update (h : list Cell.t) (o : object) (c : Cell.t) : list Cell.t :=
  <[Z.to_nat (o - 1) := c]> h.

(** The address that the next allocation returns. *)
Definition fresh (h : list Cell.t) : object := Z.of_nat (length h) + 1.

(** Element [i] of a C array, for a signed or wrapped index. *)
Definition nth_Z {A} (l : list A) (i : Z) : option A :=
  if i <? 0 then None else l !! Z.to_nat i.

(** The array with element [i] assigned; a store outside the array is
    undefined. *)
Definition set_nth_Z {A} (l : list A) (i : Z) (x : A) : option (list A) :=
  if (0 <=? i) && (i <? Z.of_nat (length l))
  then Some (<[Z.to_nat i := x]> l) else None.

(** ** Computations on a thread

    A function of [vm.cpp] that takes [Thread* t] is a function from the
    thread to a result and the thread afterwards; it has no result where the
    C++ code would read or write outside a record or an array, or follow a
    reference to a record of another type than the accessor's. *)
Definition M (A : Type) : Type := Thread -> option (A * Thread).

Definition ret {A} (a : A) : M A := fun t => Some (a, t).

Definition bind {A B} (m : M A) (k : A -> M B) : M B :=
  fun t =>
    match m t with
    | Some (a, t') => k a t'
    | None => None
    end.

Notation "x <- m ;; k" := (bind m (fun x => k))
  (at level 100, m at level 99, right associativity).
Notation "m ;;; k" := (bind m (fun _ => k))
  (at level 100, right associativity).

Definition undefined {A} : M A := fun _ => None.

(** Reading a field of the thread, and reading through the store. *)
Definition get {A} (f : Thread -> A) : M A := fun t => Some (f t, t).

Definition read {A} (f : Thread -> option A) : M A :=
  fun t => match f t with Some a => Some (a, t) | None => None end.

Definition modify (f : Thread -> Thread) : M unit := fun t => Some (tt, f t).

(** [allocate] followed by the initialisation of the record: the record goes
    to the end of the store.  The bump pointer of the nursery and the
    collector behind [maybeYieldAndMaybeCollect] are not represented. *)
Definition alloc (c : Cell.t) : M object :=
  fun t => Some (fresh (store t), set_store (store t ++ [c]) t).

(** Overwriting a record that is there. *)
Definition write (o : object) (c : Cell.t) : M unit :=
  fun t =>
    match lookup (store t) o with
    | Some _ => Some (tt, set_store (update (store t) o c) t)
    | None => None
    end.

(** *** Accessors of [type-header.h] *)

Definition cell_at (o : object) (t : Thread) : option Cell.t :=
  lookup (store t) o.

(** [typeOf(o)]. *)
Definition typeOf (o : object) (t : Thread) : option ObjectType :=
  if o =? 0 then Some NullType
  else
    match cell_at o t with
    | Some c =>
        Some match c with
             | Cell.Byte _ => ByteType
             | Cell.Short _ => ShortType
             | Cell.Int _ => IntType
             | Cell.Long _ => LongType
             | Cell.ByteArray _ => ByteArrayType
             | Cell.CharArray _ => CharArrayType
             | Cell.ShortArray _ => ShortArrayType
             | Cell.IntArray _ => IntArrayType
             | Cell.LongArray _ => LongArrayType
             | Cell.ObjectArray _ _ => ObjectArrayType
             | Cell.RawArray _ => RawArrayType
             | Cell.String _ _ _ _ => StringType
             | Cell.Trace _ _ _ => TraceType
             | Cell.Frame _ _ _ _ _ => FrameType
             | Cell.Method _ _ _ _ _ => MethodType
             | Cell.Code _ _ _ _ _ => CodeType
             | Cell.ExceptionHandlerTable _ => ExceptionHandlerTableType
             | Cell.Class _ _ _ _ => ClassType
             | Cell.Interface _ _ => InterfaceType
             | Cell.Instance _ _ => InstanceType
             | Cell.ThreadObject _ => ThreadType
             | Cell.Thrown ArrayIndexOutOfBoundsException _ _ =>
                 ArrayIndexOutOfBoundsExceptionType
             | Cell.Thrown NegativeArrayStoreException _ _ =>
                 NegativeArrayStoreExceptionType
             | Cell.Thrown ClassCastException _ _ => ClassCastExceptionType
             | Cell.Thrown ClassNotFoundException _ _ =>
                 ClassNotFoundExceptionType
             | Cell.Thrown NullPointerException _ _ => NullPointerExceptionType
             | Cell.Thrown StackOverflowError _ _ => StackOverflowErrorType
             | Cell.Thrown NoSuchFieldError _ _ => NoSuchFieldErrorType
             | Cell.Thrown NoSuchMethodError _ _ => NoSuchMethodErrorType
             end
    | None => None
    end.

(** [objectClass(o)]: the class word, for the records that show it. *)
Definition objectClass (o : object) (t : Thread) : option object :=
  match cell_at o t with
  | Some (Cell.Instance class _) => Some class
  | _ => None
  end.

Definition intValue (o : object) (t : Thread) : option Z :=
  match cell_at o t with Some (Cell.Int v) => Some v | _ => None end.

Definition longValue (o : object) (t : Thread) : option Z :=
  match cell_at o t with Some (Cell.Long v) => Some v | _ => None end.

Definition byteArrayBody (o : object) (t : Thread) : option (list Z) :=
  match cell_at o t with Some (Cell.ByteArray b) => Some b | _ => None end.

Definition rawArrayBody (o : object) (t : Thread) : option (list object) :=
  match cell_at o t with Some (Cell.RawArray b) => Some b | _ => None end.

Definition frameMethod (o : object) (t : Thread) : option object :=
  match cell_at o t with Some (Cell.Frame m _ _ _ _) => Some m | _ => None end.

Definition frameNext (o : object) (t : Thread) : option object :=
  match cell_at o t with Some (Cell.Frame _ n _ _ _) => Some n | _ => None end.

Definition frameIp (o : object) (t : Thread) : option Z :=
  match cell_at o t with Some (Cell.Frame _ _ i _ _) => Some i | _ => None end.

Definition frameStackBase (o : object) (t : Thread) : option Z :=
  match cell_at o t with Some (Cell.Frame _ _ _ b _) => Some b | _ => None end.

Definition frameLocals (o : object) (t : Thread) : option (list object) :=
  match cell_at o t with Some (Cell.Frame _ _ _ _ l) => Some l | _ => None end.

(** [frameIp(t, o) = v]. *)
Definition set_frameIp (o : object) (v : Z) : M unit :=
  fun t =>
    match cell_at o t with
    | Some (Cell.Frame m n _ b l) => write o (Cell.Frame m n v b l) t
    | _ => None
    end.

Definition set_frameLocals (o : object) (v : list object) : M unit :=
  fun t =>
    match cell_at o t with
    | Some (Cell.Frame m n i b _) => write o (Cell.Frame m n i b v) t
    | _ => None
    end.

Definition methodClass (o : object) (t : Thread) : option object :=
  match cell_at o t with Some (Cell.Method c _ _ _ _) => Some c | _ => None end.

Definition methodParameterCount (o : object) (t : Thread) : option Z :=
  match cell_at o t with Some (Cell.Method _ _ _ k _) => Some k | _ => None end.

Definition methodCode (o : object) (t : Thread) : option object :=
  match cell_at o t with Some (Cell.Method _ _ _ _ c) => Some c | _ => None end.

Definition codePool (o : object) (t : Thread) : option object :=
  match cell_at o t with Some (Cell.Code p _ _ _ _) => Some p | _ => None end.

Definition codeExceptionHandlerTable (o : object) (t : Thread) : option object :=
  match cell_at o t with Some (Cell.Code _ e _ _ _) => Some e | _ => None end.

Definition codeMaxStack (o : object) (t : Thread) : option Z :=
  match cell_at o t with Some (Cell.Code _ _ s _ _) => Some s | _ => None end.

Definition codeMaxLocals (o : object) (t : Thread) : option Z :=
  match cell_at o t with Some (Cell.Code _ _ _ l _) => Some l | _ => None end.

Definition codeBody (o : object) (t : Thread) : option (list Z) :=
  match cell_at o t with Some (Cell.Code _ _ _ _ b) => Some b | _ => None end.

Definition exceptionHandlerTableBody (o : object) (t : Thread)
    : option (list ExceptionHandler) :=
  match cell_at o t with
  | Some (Cell.ExceptionHandlerTable b) => Some b
  | _ => None
  end.

Definition classId (o : object) (t : Thread) : option Z :=
  match cell_at o t with Some (Cell.Class i _ _ _) => Some i | _ => None end.

Definition className (o : object) (t : Thread) : option object :=
  match cell_at o t with
  | Some (Cell.Class _ n _ _) | Some (Cell.Interface _ n) => Some n
  | _ => None
  end.

Definition classSuper (o : object) (t : Thread) : option object :=
  match cell_at o t with Some (Cell.Class _ _ s _) => Some s | _ => None end.

Definition classInterfaceTable (o : object) (t : Thread) : option object :=
  match cell_at o t with Some (Cell.Class _ _ _ i) => Some i | _ => None end.

Definition interfaceId (o : object) (t : Thread) : option Z :=
  match cell_at o t with Some (Cell.Interface i _) => Some i | _ => None end.

Definition threadExceptionHandler (o : object) (t : Thread) : option object :=
  match cell_at o t with Some (Cell.ThreadObject h) => Some h | _ => None end.

(** *** The operand stack *)

(** [t->stack[(t->sp)++] = o]. *)
Definition push (o : object) : M unit :=
  fun t =>
    match set_nth_Z (stack t) (sp t) o with
    | Some st => Some (tt, set_sp (Word.u32 (sp t + 1)) (set_stack st t))
    | None => None
    end.

(** [return t->stack[--(t->sp)]]. *)
Definition pop : M object :=
  fun t =>
    let sp' := Word.u32 (sp t - 1) in
    match nth_Z (stack t) sp' with
    | Some o => Some (o, set_sp sp' t)
    | None => None
    end.

(** [stack[sp - n]], on [unsigned]. *)
Definition peek (n : Z) (t : Thread) : option object :=
  nth_Z (stack t) (Word.u32 (sp t - n)).

(** ** The exception factory *)

(** The characters of a string as [char] values. *)
Definition chars (s : string) : list Z :=
  map (fun a => Z.of_N (N_of_ascii a)) (list_ascii_of_string s).

(** The ten decimal digits of a number below 10^10, as characters. *)
Definition decimal_digits (n : Z) : list Z :=
  map (fun k => 48 + (n / 10 ^ k) mod 10) [9; 8; 7; 6; 5; 4; 3; 2; 1; 0].

(** Leading zeros are not printed, except for the last digit. *)
Fixpoint strip_zeros (l : list Z) : list Z :=
  match l with
  | c :: (_ :: _) as l' => if c =? 48 then strip_zeros l' else l
  | _ => l
  end.

(** What ["%d"] prints for an argument, read as an [int]. *)
Definition format_d (z : Z) : list Z :=
  let v := Word.s32 z in
  if v <? 0 then 45 :: strip_zeros (decimal_digits (- v))
  else strip_zeros (decimal_digits v).

(** The characters of a C string: those before the first NUL. *)
Fixpoint until_nul (l : list Z) : list Z :=
  match l with
  | [] => []
  | c :: l' => if c =? 0 then [] else c :: until_nul l'
  end.

(** What ["%s"] prints for the body of a byte array; reading runs off the
    array when it holds no NUL. *)
Definition c_string (body : list Z) : option (list Z) :=
  if existsb (Z.eqb 0) body then Some (until_nul body) else None.

(** [byteArrayLength(t, o)]. *)
Definition byteArrayLength (o : object) (t : Thread) : option Z :=
  match byteArrayBody o t with
  | Some b => Some (Z.of_nat (length b))
  | None => None
  end.

(** [makeString(Thread* t, const char* format, ...)], applied to the text
    that the format and its arguments print to.  [vsnprintf] keeps what fits
    the buffer, the byte array is made [strlen(buffer) + 1] long, and the
    copy of that many bytes includes the closing NUL. *)
Definition makeString (text : list Z) : M object :=
  let buffer := until_nul (firstn 254 text) in
  s <- alloc (Cell.ByteArray (buffer ++ [0])) ;;
  n <- read (byteArrayLength s) ;;
  alloc (Cell.String s 0 n 0).

(** [PROTECT(t, name)] in a function whose remaining body is [body]: the
    protector is constructed here and destroyed when the function returns. *)
Definition protect {A} (p : slot) (body : M A) : M A :=
  fun t =>
    let '(this, t1) := Protector_new p t in
    match body t1 with
    | Some (a, t2) => Some (a, Protector_delete this t2)
    | None => None
    end.

(** [for (; t->frame; t->frame = frameNext(t, t->frame))
      trace = makeTrace(t, frameMethod(t, t->frame), frameIp(t, t->frame), trace);]
    with at most [fuel] rounds. *)
Fixpoint makeTrace_loop (fuel : nat) (trace : object) : M object :=
  f <- get frame ;;
  if f =? 0 then ret trace
  else
    match fuel with
    | O => undefined
    | S fuel' =>
        m <- read (frameMethod f) ;;
        i <- read (frameIp f) ;;
        trace' <- alloc (Cell.Trace m i trace) ;;
        n <- read (frameNext f) ;;
        modify (set_frame n) ;;;
        makeTrace_loop fuel' trace'
    end.

(** [makeTrace(Thread* t)].  A chain of frames that ends visits each of its
    records once, so it is no longer than the store; with that many rounds
    the loop stops short only on a chain that never ends. *)
Definition makeTrace : M object :=
  protect (LocalSlot "trace")
    (f <- get frame ;;
     i <- get ip ;;
     set_frameIp f i ;;;
     h <- get store ;;
     makeTrace_loop (length h) 0).

(** The [makeX(t, message)] helpers of [vm.cpp] that protect their message,
    take the trace, and call the generated [makeX(t, message, trace)]. *)
Definition makeThrown (x : Throwable) (message : object) : M object :=
  protect (LocalSlot "message")
    (trace <- makeTrace ;;
     alloc (Cell.Thrown x message trace)).

Definition makeArrayIndexOutOfBoundsException (message : object) : M object :=
  makeThrown ArrayIndexOutOfBoundsException message.

Definition makeNegativeArrayStoreException (message : object) : M object :=
  makeThrown NegativeArrayStoreException message.

Definition makeClassCastException (message : object) : M object :=
  makeThrown ClassCastException message.

Definition makeClassNotFoundException (message : object) : M object :=
  makeThrown ClassNotFoundException message.

(** [return makeNullPointerException(t, 0, makeTrace(t));] *)
Definition makeNullPointerException : M object :=
  trace <- makeTrace ;;
  alloc (Cell.Thrown NullPointerException 0 trace).

(** [return makeStackOverflowError(t, 0, makeTrace(t));] *)
Definition makeStackOverflowError : M object :=
  trace <- makeTrace ;;
  alloc (Cell.Thrown StackOverflowError 0 trace).

(** ** [instanceOf] *)

(** [for (unsigned i = 0; i < rawArrayLength(t, itable); i += 2)
      if (interfaceId(t, rawArrayBody(t, itable)[i]) == id) return true;] *)
Fixpoint itable_has (id : Z) (itable : list object) (t : Thread) : option bool :=
  match itable with
  | [] => Some false
  | i :: rest =>
      match interfaceId i t with
      | Some id' =>
          if id' =? id then Some true
          else
            match rest with
            | [] => Some false
            | _ :: rest' => itable_has id rest' t
            end
      | None => None
      end
  end.

(** The loop over the superclass chain for an interface. *)
Fixpoint implements (fuel : nat) (id : Z) (oc : object) (t : Thread) : option bool :=
  if oc =? 0 then Some false
  else
    match fuel with
    | O => None
    | S fuel' =>
        itable ← classInterfaceTable oc t;
        body ← rawArrayBody itable t;
        found ← itable_has id body t;
        if found : bool then Some true
        else super ← classSuper oc t; implements fuel' id super t
    end.

(** The loop over the superclass chain for a class. *)
Fixpoint extends (fuel : nat) (id : Z) (oc : object) (t : Thread) : option bool :=
  if oc =? 0 then Some false
  else
    match fuel with
    | O => None
    | S fuel' =>
        id' ← classId oc t;
        if id' =? id then Some true
        else super ← classSuper oc t; extends fuel' id super t
    end.

(** [instanceOf(Thread* t, object class_, object o)]; the chains are followed
    for as many rounds as the store has records. *)
Definition instanceOf (class_ o : object) (t : Thread) : option bool :=
  if o =? 0 then Some false
  else
    ty ← typeOf class_ t;
    match ty with
    | InterfaceType =>
        id ← interfaceId class_ t;
        oc ← objectClass o t;
        implements (length (store t)) id oc t
    | _ =>
        id ← classId class_ t;
        oc ← objectClass o t;
        extends (length (store t)) id oc t
    end.

(** ** The interpreter *)

(** Where a case of the dispatch switch of [run] goes next: back to [loop],
    to the join points [invoke] (with [parameterCount]) and [throw_], out of
    [run] with a value, or into [abort(t)]. *)
Inductive control :=
| Loop
| Invoke (parameterCount : Z)
| Throw
| Return (value : object)
| Abort.

(** The cases of the switch that are modelled. *)
Inductive opcode :=
| aaload | aastore | arraylength | athrow | baload | bastore | caload
| castore | checkcast | iaload | iastore
| if_icmpeq | if_icmpne | if_icmplt | if_icmpge | if_icmpgt | if_icmple
| laload | lastore | saload | sastore.

(** Modelled from the spec: the opcode numbers come from [constants.h], which
    is not part of the sources; the machine executes class-file bytecode of
    the JVM family, whose numbers these are. *)
Definition decode (b : Z) : option opcode :=
  match b with
  | 46 => Some iaload | 47 => Some laload
  | 50 => Some aaload | 51 => Some baload | 52 => Some caload
  | 53 => Some saload
  | 79 => Some iastore | 80 => Some lastore
  | 83 => Some aastore | 84 => Some bastore | 85 => Some castore
  | 86 => Some sastore
  | 159 => Some if_icmpeq | 160 => Some if_icmpne | 161 => Some if_icmplt
  | 162 => Some if_icmpge | 163 => Some if_icmpgt | 164 => Some if_icmple
  | 190 => Some arraylength | 191 => Some athrow | 192 => Some checkcast
  | _ => None
  end.

(** The array types with element load and store opcodes. *)
Inductive ArrayKind :=
| objectArray | byteArray | charArray | shortArray | intArray | longArray.

(** [objectArrayLength], [byteArrayLength], ..., [longArrayLength]. *)
Definition arrayLength (k : ArrayKind) (o : object) (t : Thread) : option Z :=
  match k, cell_at o t with
  | objectArray, Some (Cell.ObjectArray _ b) => Some (Z.of_nat (length b))
  | byteArray, Some (Cell.ByteArray b) => Some (Z.of_nat (length b))
  | charArray, Some (Cell.CharArray b) => Some (Z.of_nat (length b))
  | shortArray, Some (Cell.ShortArray b) => Some (Z.of_nat (length b))
  | intArray, Some (Cell.IntArray b) => Some (Z.of_nat (length b))
  | longArray, Some (Cell.LongArray b) => Some (Z.of_nat (length b))
  | _, _ => None
  end.

(** The [uint32_t] that the case [arraylength] reads one pointer size into
    the record: the word after the class pointer, which for the arrays other
    than object arrays is the length. *)
Definition word_after_class (o : object) (t : Thread) : option Z :=
  match cell_at o t with
  | Some (Cell.ByteArray b) | Some (Cell.CharArray b)
  | Some (Cell.ShortArray b) | Some (Cell.IntArray b)
  | Some (Cell.LongArray b) => Some (Z.of_nat (length b))
  | _ => None
  end.

Definition makeByte (v : Z) : M object :=
  alloc (Cell.Byte ((v + 2 ^ 7) mod 2 ^ 8 - 2 ^ 7)).

Definition makeShort (v : Z) : M object :=
  alloc (Cell.Short ((v + 2 ^ 15) mod 2 ^ 16 - 2 ^ 15)).

Definition makeInt (v : Z) : M object := alloc (Cell.Int (Word.s32 v)).

Definition makeLong (v : Z) : M object :=
  alloc (Cell.Long ((v + 2 ^ 63) mod 2 ^ 64 - 2 ^ 63)).

(** The value an element load pushes: the element itself for an object
    array, and [makeByte], [makeInt], [makeShort], [makeInt] or [makeLong] of
    the element for the others. *)
Definition load_element (k : ArrayKind) (array : object) (i : Z) : M object :=
  c <- read (cell_at array) ;;
  match k, c with
  | objectArray, Cell.ObjectArray _ b => read (fun _ => nth_Z b i)
  | byteArray, Cell.ByteArray b => v <- read (fun _ => nth_Z b i) ;; makeByte v
  | charArray, Cell.CharArray b => v <- read (fun _ => nth_Z b i) ;; makeInt v
  | shortArray, Cell.ShortArray b => v <- read (fun _ => nth_Z b i) ;; makeShort v
  | intArray, Cell.IntArray b => v <- read (fun _ => nth_Z b i) ;; makeInt v
  | longArray, Cell.LongArray b => v <- read (fun _ => nth_Z b i) ;; makeLong v
  | _, _ => undefined
  end.

(** The assignment of an element store: [set(t, objectArrayBody(t, array)[i],
    value)] for an object array, and for the others the element assigned the
    [intValue] (the [longValue] for a long array) of the value, converted to
    the element type. *)
Definition store_element (k : ArrayKind) (array : object) (i : Z)
    (value : object) : M unit :=
  c <- read (cell_at array) ;;
  match k, c with
  | objectArray, Cell.ObjectArray e b =>
      b' <- read (fun _ => set_nth_Z b i value) ;;
      write array (Cell.ObjectArray e b')
  | byteArray, Cell.ByteArray b =>
      v <- read (intValue value) ;;
      b' <- read (fun _ => set_nth_Z b i ((v + 2 ^ 7) mod 2 ^ 8 - 2 ^ 7)) ;;
      write array (Cell.ByteArray b')
  | charArray, Cell.CharArray b =>
      v <- read (intValue value) ;;
      b' <- read (fun _ => set_nth_Z b i (Word.u16 v)) ;;
      write array (Cell.CharArray b')
  | shortArray, Cell.ShortArray b =>
      v <- read (intValue value) ;;
      b' <- read (fun _ => set_nth_Z b i ((v + 2 ^ 15) mod 2 ^ 16 - 2 ^ 15)) ;;
      write array (Cell.ShortArray b')
  | intArray, Cell.IntArray b =>
      v <- read (intValue value) ;;
      b' <- read (fun _ => set_nth_Z b i v) ;;
      write array (Cell.IntArray b')
  | longArray, Cell.LongArray b =>
      v <- read (longValue value) ;;
      b' <- read (fun _ => set_nth_Z b i v) ;;
      write array (Cell.LongArray b')
  | _, _ => undefined
  end.

(** What ["%d not in [0,%d]"] prints for an index and a length. *)
Definition not_in_text (i len : Z) : list Z :=
  format_d i ++ chars " not in [0," ++ format_d len ++ chars "]".

(** [exception = e; goto throw_;] *)
Definition throw (e : object) : M control :=
  modify (set_exception e) ;;; ret Throw.

(** The body shared by [aaload], [baload], [caload], [iaload], [laload] and
    [saload], which differ in the array accessors and in the boxing of the
    element. *)
Definition array_load (k : ArrayKind) : M control :=
  index <- pop ;;
  array <- pop ;;
  if negb (array =? 0) then
    i <- read (intValue index) ;;
    len <- read (arrayLength k array) ;;
    if (0 <=? i) && (Word.u32 i <? len) then
      v <- load_element k array i ;;
      push v ;;;
      ret Loop
    else
      message <- makeString (not_in_text i len) ;;
      e <- makeArrayIndexOutOfBoundsException message ;;
      throw e
  else
    e <- makeNullPointerException ;;
    throw e.

(** The body shared by [aastore], [bastore], [castore], [iastore], [lastore]
    and [sastore]. *)
Definition array_store (k : ArrayKind) : M control :=
  value <- pop ;;
  index <- pop ;;
  array <- pop ;;
  i <- read (intValue index) ;;
  if negb (array =? 0) then
    len <- read (arrayLength k array) ;;
    if (0 <=? i) && (Word.u32 i <? len) then
      store_element k array i value ;;;
      ret Loop
    else
      message <- makeString (not_in_text i len) ;;
      e <- makeArrayIndexOutOfBoundsException message ;;
      throw e
  else
    e <- makeNullPointerException ;;
    throw e.

(** [codeBody(t, code)[ip++]]. *)
Definition fetch : M Z :=
  c <- get code ;;
  body <- read (codeBody c) ;;
  i <- get ip ;;
  b <- read (fun _ => nth_Z body i) ;;
  modify (set_ip (Word.u32 (i + 1))) ;;;
  ret b.

(** [ip = (ip - 1) + ((offset1 << 8) | offset2);] *)
Definition branch (offset1 offset2 : Z) : M unit :=
  i <- get ip ;;
  modify (set_ip (Word.u32 ((i - 1) + Z.lor (Z.shiftl offset1 8) offset2))).

(** The body shared by the [if_icmp] cases, which differ in the comparison
    of the two [intValue]s. *)
Definition if_icmp (compare : Z -> Z -> bool) : M control :=
  offset1 <- fetch ;;
  offset2 <- fetch ;;
  b <- pop ;;
  a <- pop ;;
  x <- read (intValue a) ;;
  y <- read (intValue b) ;;
  (if compare x y then branch offset1 offset2 else ret tt) ;;;
  ret Loop.

Section Interpreter.

(** [sizeof(object)], in bytes. *)
Variable sizeof_object : Z.

(** The word found at each offset of memory that [allocate] hands out and
    that the constructor of the record does not assign. *)
Variable uninitialised : nat -> object.

(** [resolveClass(Thread* t, object spec)], which looks the name up in the
    class map and otherwise asks the class finder and the class parser, both
    outside [vm.cpp]; it returns the class, or sets [t->exception]. *)
Variable resolveClassByName : object -> M object.

(** [resolveClass(Thread* t, object pool, unsigned index)]. *)
Definition resolveClass (pool : object) (index : Z) : M object :=
  body <- read (rawArrayBody pool) ;;
  o <- read (fun _ => nth_Z body index) ;;
  ty <- read (typeOf o) ;;
  match ty with
  | ByteArrayType =>
      protect (LocalSlot "pool")
        (o' <- resolveClassByName o ;;
         e <- get exception ;;
         if negb (e =? 0) then ret 0
         else
           body' <- read (rawArrayBody pool) ;;
           body'' <- read (fun _ => set_nth_Z body' index o') ;;
           write pool (Cell.RawArray body'') ;;;
           ret o')
  | _ => ret o
  end.

(** [makeFrame(t, method, next, ip, stackBase, length)]: the locals are not
    assigned by the constructor. *)
Definition makeFrame (method next : object) (ip stackBase length : Z) : M object :=
  alloc (Cell.Frame method next ip stackBase
           (map uninitialised (seq 0 (Z.to_nat length)))).

(** [memcpy(dst, src, n)] on arrays of words: [n] counts bytes.  Whole words
    are copied while [n] covers them; of the word that [n] ends in, the [n]
    bytes at the lowest addresses are copied, which are the least significant
    ones (the byte order of the x86 targets). *)
Fixpoint memcpy (dst src : list object) (n : Z) : option (list object) :=
  if n <=? 0 then Some dst
  else
    match dst, src with
    | d :: dst', s :: src' =>
        if sizeof_object <=? n then
          rest ← memcpy dst' src' (n - sizeof_object);
          Some (s :: rest)
        else
          Some ((s mod 2 ^ (8 * n) + (d / 2 ^ (8 * n)) * 2 ^ (8 * n)) :: dst')
    | _, _ => None
    end.

(** The case [checkcast]. *)
Definition do_checkcast : M control :=
  index1 <- fetch ;;
  index2 <- fetch ;;
  top <- read (peek 1) ;;
  if negb (top =? 0) then
    let index := Word.u16 (Z.lor (Z.shiftl index1 8) index2) in
    c <- get code ;;
    pool <- read (codePool c) ;;
    class_ <- resolveClass pool index ;;
    e <- get exception ;;
    if negb (e =? 0) then ret Throw
    else
      top' <- read (peek 1) ;;
      inst <- read (instanceOf class_ top') ;;
      if negb inst then
        oc <- read (objectClass top') ;;
        n1 <- read (className oc) ;;
        b1 <- read (byteArrayBody n1) ;;
        s1 <- read (fun _ => c_string b1) ;;
        n2 <- read (className class_) ;;
        b2 <- read (byteArrayBody n2) ;;
        s2 <- read (fun _ => c_string b2) ;;
        message <- makeString (s1 ++ chars " as " ++ s2) ;;
        e' <- makeClassCastException message ;;
        throw e'
      else ret Loop
  else ret Loop.

(** The case [arraylength]; the block is followed by [abort(t)], not by
    [goto loop]. *)
Definition do_arraylength : M control :=
  array <- pop ;;
  if negb (array =? 0) then
    ty <- read (typeOf array) ;;
    match ty with
    | ObjectArrayType =>
        len <- read (arrayLength objectArray array) ;;
        v <- makeInt len ;;
        push v
    | _ =>
        len <- read (word_after_class array) ;;
        v <- makeInt len ;;
        push v
    end ;;;
    ret Abort
  else
    e <- makeNullPointerException ;;
    throw e.

(** The case [athrow]. *)
Definition do_athrow : M control :=
  e <- pop ;;
  modify (set_exception e) ;;;
  (if e =? 0 then
     e' <- makeNullPointerException ;;
     modify (set_exception e')
   else ret tt) ;;;
  ret Throw.

(** One round of [loop:] [switch (codeBody(t, code)[ip++])], up to the
    [goto], [return] or [abort] that ends the case.  Opcodes outside
    [opcode] are not modelled. *)
Definition step : M control :=
  b <- fetch ;;
  match decode b with
  | Some aaload => array_load objectArray
  | Some aastore => array_store objectArray
  | Some arraylength => do_arraylength
  | Some athrow => do_athrow
  | Some baload => array_load byteArray
  | Some bastore => array_store byteArray
  | Some caload => array_load charArray
  | Some castore => array_store charArray
  | Some checkcast => do_checkcast
  | Some iaload => array_load intArray
  | Some iastore => array_store intArray
  | Some if_icmpeq => if_icmp Z.eqb
  | Some if_icmpne => if_icmp (fun x y => negb (x =? y))
  | Some if_icmpgt => if_icmp Z.gtb
  | Some if_icmpge => if_icmp Z.geb
  | Some if_icmplt => if_icmp Z.ltb
  | Some if_icmple => if_icmp Z.ltb
  | Some laload => array_load longArray
  | Some lastore => array_store longArray
  | Some saload => array_load shortArray
  | Some sastore => array_store shortArray
  | None => undefined
  end.

(** The join point [invoke:], entered with [code] set to the method to call
    and with its [parameterCount]. *)
Definition invoke (parameterCount : Z) : M control :=
  c <- get code ;;
  mc <- read (methodCode c) ;;
  maxStack <- read (codeMaxStack mc) ;;
  s <- get sp ;;
  if StackSize <? Word.u32 (maxStack + s - parameterCount) then
    e <- makeStackOverflowError ;;
    throw e
  else
    f <- get frame ;;
    i <- get ip ;;
    set_frameIp f i ;;;
    modify (set_sp (Word.u32 (s - parameterCount))) ;;;
    s' <- get sp ;;
    maxLocals <- read (codeMaxLocals mc) ;;
    f' <- makeFrame c f 0 s' maxLocals ;;
    modify (set_frame f') ;;;
    locals <- read (frameLocals f') ;;
    st <- get stack ;;
    locals' <- read (fun _ => memcpy locals (skipn (Z.to_nat s') st) parameterCount) ;;
    set_frameLocals f' locals' ;;;
    modify (set_ip 0) ;;;
    ret Loop.

(** The scan of one exception handler table: the first row whose catch type
    is [0] or a class that the exception is an instance of. *)
Fixpoint find_handler (code_ : object) (table : list ExceptionHandler)
    (t : Thread) : option (option ExceptionHandler) :=
  match table with
  | [] => Some None
  | eh :: rest =>
      let catchType := Word.u16 (exceptionHandlerCatchType eh) in
      if catchType =? 0 then Some (Some eh)
      else
        pool ← codePool code_ t;
        body ← rawArrayBody pool t;
        class_ ← nth_Z body catchType;
        inst ← instanceOf class_ (exception t) t;
        if inst : bool then Some (Some eh) else find_handler code_ rest t
  end.

(** The end of [throw_:], reached when the frames are exhausted: the
    thread's handler for uncaught exceptions is entered on a new frame. *)
Definition uncaught : M control :=
  th <- get thread ;;
  method <- read (threadExceptionHandler th) ;;
  c <- read (methodCode method) ;;
  modify (set_code c) ;;;
  maxLocals <- read (codeMaxLocals c) ;;
  f <- makeFrame method 0 0 0 maxLocals ;;
  modify (set_frame f) ;;;
  modify (set_sp 0) ;;;
  modify (set_ip 0) ;;;
  e <- get exception ;;
  push e ;;;
  modify (set_exception 0) ;;;
  ret Loop.

(** The body of the loop of [throw_:] for the frame [f], up to the scan of
    its table: [code] is set to the code of the frame's method, and the
    handler found in its table, if it has a table, is the result. *)
Definition scan_frame (f : object) : M (option ExceptionHandler) :=
  m <- read (frameMethod f) ;;
  c <- read (methodCode m) ;;
  modify (set_code c) ;;;
  eht <- read (codeExceptionHandlerTable c) ;;
  if negb (eht =? 0) then
    table <- read (exceptionHandlerTableBody eht) ;;
    read (find_handler c table)
  else ret None.

(** [for (; frame; frame = frameNext(t, frame))] of [throw_:], with at most
    [fuel] rounds. *)
Fixpoint unwind (fuel : nat) : M control :=
  f <- get frame ;;
  if f =? 0 then uncaught
  else
    match fuel with
    | O => undefined
    | S fuel' =>
        found <- scan_frame f ;;
        match found with
        | Some eh =>
            base <- read (frameStackBase f) ;;
            modify (set_sp base) ;;;
            modify (set_ip (exceptionHandlerIp eh)) ;;;
            e <- get exception ;;
            push e ;;;
            modify (set_exception 0) ;;;
            ret Loop
        | None =>
            n <- read (frameNext f) ;;
            modify (set_frame n) ;;;
            unwind fuel'
        end
    end.

(** The join point [throw_:]; a chain of frames that ends is no longer than
    the store. *)
Definition throw_ : M control :=
  h <- get store ;;
  unwind (length h).

End Interpreter.

(** ** Further machine integers *)

(** What a conversion to [int8_t], [uint8_t], [int16_t], [int64_t] or
    [uint64_t] keeps of a value. *)
Definition int8 (z : Z) : Z := (z + 2 ^ 7) mod 2 ^ 8 - 2 ^ 7.
Definition uint8 (z : Z) : Z := z mod 2 ^ 8.
Definition int16 (z : Z) : Z := (z + 2 ^ 15) mod 2 ^ 16 - 2 ^ 15.
Definition int64 (z : Z) : Z := (z + 2 ^ 63) mod 2 ^ 64 - 2 ^ 63.
Definition uint64 (z : Z) : Z := z mod 2 ^ 64.

(** ** Class names and the class map *)

(** [hash(const int8_t* s, unsigned length)]:
    [for (unsigned i = 0; i < length; ++i) h = (h * 31) + s[i];] on
    [uint32_t], from [h], with [s[i]] an [int8_t]; reading runs off the
    array when it holds fewer than [length] bytes. *)
Fixpoint hash_from (h : Z) (s : list Z) (length : nat) {struct length}
    : option Z :=
  match length with
  | O => Some h
  | S n =>
      match s with
      | c :: s' => hash_from (Word.u32 (h * 31 + int8 c)) s' n
      | [] => None
      end
  end.

Definition hash (s : list Z) (length : Z) : option Z :=
  hash_from 0 s (Z.to_nat length).

(** [strcmp(a, b) == 0] on the bodies of two byte arrays: the characters are
    compared up to the first difference or the first NUL; a comparison that
    has met neither when an array ends runs off it. *)
Fixpoint strcmp_is_0 (a b : list Z) : option bool :=
  match a, b with
  | x :: a', y :: b' =>
      if x =? y then (if x =? 0 then Some true else strcmp_is_0 a' b')
      else Some false
  | _, _ => None
  end.

(** [byteArrayEqual(Thread* t, object a, object b)]. *)
Definition byteArrayEqual (a b : object) (t : Thread) : option bool :=
  if a =? b then Some true
  else
    la ← byteArrayLength a t;
    lb ← byteArrayLength b t;
    if la =? lb then
      x ← byteArrayBody a t;
      y ← byteArrayBody b t;
      strcmp_is_0 x y
    else Some false.

(** The map from class names to classes: a raw array of buckets, each the
    head of a list of triples (key, value, next). *)
Module HashMap.

(** Modelled from the spec: [Triple] is declared in the generated
    [type-header.h], which is not part of the sources; [vm.cpp] reads it
    through [tripleFirst], [tripleSecond] and [tripleThird] and makes it with
    [makeTriple(t, first, second, third)].  The two kinds of record that the
    functions of the map touch are kept in a store of their own, addressed as
    the thread's store is. *)
Inductive record :=
| RawArray (body : list object)
| Triple (first second third : object).

Definition at_ (h : list record) (o : object) : option record :=
  if o <=? 0 then None else h !! Z.to_nat (o - 1).

Definition rawArrayBody (h : list record) (o : object) : option (list object) :=
  match at_ h o with Some (RawArray b) => Some b | _ => None end.

Definition triple (h : list record) (o : object) : option (object * object * object) :=
  match at_ h o with Some (Triple a b c) => Some (a, b, c) | _ => None end.

(** [hash & (rawArrayLength(t, map) - 1)], on [unsigned]. *)
Definition index (hash : Z) (body : list object) : Z :=
  Z.land (Word.u32 hash) (Word.u32 (Z.of_nat (length body) - 1)).

Section Equal.

(** The function pointer [equal]; the records it compares are not written by
    the functions of the map. *)
Variable equal : object -> object -> bool.

(** [while (n) { if (equal(t, tripleFirst(t, n), key)) return
    tripleSecond(t, n); n = tripleThird(t, n); } return 0;] with at most
    [fuel] rounds. *)
Fixpoint find_from (fuel : nat) (h : list record) (n key : object) : option object :=
  if n =? 0 then Some 0
  else
    match fuel with
    | O => None
    | S fuel' =>
        match triple h n with
        | Some (first, second, third) =>
            if equal first key then Some second
            else find_from fuel' h third key
        | None => None
        end
    end.

(** [hashMapFind(t, map, hash, key, equal)]; a list of triples that ends is
    no longer than the store. *)
Definition hashMapFind (h : list record) (map : object) (hash : Z) (key : object)
    : option object :=
  body ← rawArrayBody h map;
  n ← nth_Z body (index hash body);
  find_from (length h) h n key.

End Equal.

(** [hashMapInsert(t, map, hash, key, value)]: the new triple goes in front
    of the bucket's list.  The function is declared to return an [object]
    and returns none; the store afterwards is the result here. *)
Definition hashMapInsert (h : list record) (map : object) (hash : Z)
    (key value : object) : option (list record) :=
  body ← rawArrayBody h map;
  n ← nth_Z body (index hash body);
  let n' := Z.of_nat (length h) + 1 in
  let h' := h ++ [Triple key value n] in
  body' ← rawArrayBody h' map;
  body'' ← set_nth_Z body' (index hash body) n';
  Some (<[Z.to_nat (map - 1) := RawArray body'']> h').

End HashMap.

(** ** Further tests on classes and values *)

(** [isSuperclass(Thread* t, object class_, object base)]: the loop of
    [instanceOf] over the superclass chain, started at the superclass of
    [base]. *)
Definition isSuperclass (class_ base : object) (t : Thread) : option bool :=
  id ← classId class_ t;
  super ← classSuper base t;
  extends (length (store t)) id super t.

(** [isLongOrDouble(object o)]. *)
Definition isLongOrDouble (o : object) (t : Thread) : option bool :=
  ty ← typeOf o t;
  Some match ty with LongType | DoubleType => true | _ => false end.

(** ** The further cases of the dispatch loop *)

(** The value of an arithmetic expression of type [int32_t] or [int64_t]:
    signed arithmetic whose result does not fit the type has no defined
    result. *)
Definition in_int32 (z : Z) : option Z :=
  if (- 2 ^ 31 <=? z) && (z <? 2 ^ 31) then Some z else None.

Definition in_int64 (z : Z) : option Z :=
  if (- 2 ^ 63 <=? z) && (z <? 2 ^ 63) then Some z else None.

(** [a / b] and [a % b] on signed integers of [bits] bits: the quotient is
    truncated towards zero; division by zero and the division of the least
    value by [-1] have no defined result. *)
Definition divide (bits : Z) (a b : Z) : option Z :=
  if (b =? 0) || ((a =? - 2 ^ (bits - 1)) && (b =? -1)) then None
  else Some (Z.quot a b).

Definition remainder (bits : Z) (a b : Z) : option Z :=
  if (b =? 0) || ((a =? - 2 ^ (bits - 1)) && (b =? -1)) then None
  else Some (Z.rem a b).

(** [a << b] on a signed integer of [bits] bits: defined for a count within
    the width, a value that is not negative and a result that fits. *)
Definition shift_left (bits : Z) (a b : Z) : option Z :=
  if (0 <=? b) && (b <? bits) && (0 <=? a) && (a * 2 ^ b <? 2 ^ (bits - 1))
  then Some (a * 2 ^ b) else None.

(** [a >> b] on a signed integer: defined for a count within the width; the
    sign is kept. *)
Definition shift_right (bits : Z) (a b : Z) : option Z :=
  if (0 <=? b) && (b <? bits) then Some (Z.shiftr a b) else None.

(** [uint8_t x = codeBody(t, code)[ip++];] *)
Definition fetch8 : M Z := b <- fetch ;; ret (uint8 b).

(** [frameLocals(t, frame)[index]]. *)
Definition local (index : Z) : M object :=
  f <- get frame ;;
  ls <- read (frameLocals f) ;;
  read (fun _ => nth_Z ls index).

(** [frameLocals(t, frame)[index] = value], also through [set], whose write
    barrier is the collector's. *)
Definition set_local (index : Z) (value : object) : M unit :=
  f <- get frame ;;
  ls <- read (frameLocals f) ;;
  ls' <- read (fun _ => set_nth_Z ls index value) ;;
  set_frameLocals f ls'.

(** [push(t, frameLocals(t, frame)[index]);] *)
Definition load_local (index : Z) : M control :=
  v <- local index ;;
  push v ;;;
  ret Loop.

(** [object value = pop(t); set(t, frameLocals(t, frame)[index], value);]
    for a constant index. *)
Definition store_local (index : Z) : M control :=
  value <- pop ;;
  set_local index value ;;;
  ret Loop.

(** The cases [areturn], [ireturn], [lreturn] ([valued]) and [return_]. *)
Definition do_return (valued : bool) : M control :=
  f <- get frame ;;
  n <- read (frameNext f) ;;
  modify (set_frame n) ;;;
  if negb (n =? 0) then
    m <- read (frameMethod n) ;;
    c <- read (methodCode m) ;;
    modify (set_code c) ;;;
    i <- read (frameIp n) ;;
    modify (set_ip i) ;;;
    ret Loop
  else if valued then
    value <- pop ;;
    modify (set_code 0) ;;;
    ret (Return value)
  else
    modify (set_code 0) ;;;
    ret (Return 0).

(** The cases with one boxed operand: [object v = pop(t); push(t, make(t,
    f(value(t, v))));] *)
Definition unary (value : object -> Thread -> option Z) (f : Z -> option Z)
    (make : Z -> M object) : M control :=
  v <- pop ;;
  x <- read (value v) ;;
  r <- read (fun _ => f x) ;;
  o <- make r ;;
  push o ;;;
  ret Loop.

(** The cases with two boxed operands: [object b = pop(t); object a =
    pop(t); push(t, make(t, f(value(t, a), value(t, b))));] *)
Definition binary (value : object -> Thread -> option Z)
    (f : Z -> Z -> option Z) (make : Z -> M object) : M control :=
  b <- pop ;;
  a <- pop ;;
  x <- read (value a) ;;
  y <- read (value b) ;;
  r <- read (fun _ => f x y) ;;
  o <- make r ;;
  push o ;;;
  ret Loop.

(** The cases [if_acmpeq] and [if_acmpne]. *)
Definition if_acmp (compare : object -> object -> bool) : M control :=
  offset1 <- fetch8 ;;
  offset2 <- fetch8 ;;
  b <- pop ;;
  a <- pop ;;
  (if compare a b then branch offset1 offset2 else ret tt) ;;;
  ret Loop.

(** The cases [ifeq], [ifne], [ifgt], [ifge], [iflt] and [ifle]. *)
Definition if_int (test : Z -> bool) : M control :=
  offset1 <- fetch8 ;;
  offset2 <- fetch8 ;;
  v <- pop ;;
  x <- read (intValue v) ;;
  (if test x then branch offset1 offset2 else ret tt) ;;;
  ret Loop.

(** The cases [ifnonnull] and [ifnull]. *)
Definition if_ref (test : object -> bool) : M control :=
  offset1 <- fetch8 ;;
  offset2 <- fetch8 ;;
  v <- pop ;;
  (if test v then branch offset1 offset2 else ret tt) ;;;
  ret Loop.

(** [ip = (ip - 1) + ((offset1 << 24) | (offset2 << 16) | (offset3 << 8) |
    offset4);] the shift of a first byte of 128 or more leaves [int]. *)
Definition branch_w (offset1 offset2 offset3 offset4 : Z) : M unit :=
  if offset1 <? 128 then
    i <- get ip ;;
    modify (set_ip (Word.u32 ((i - 1) +
      Z.lor (Z.lor (Z.lor (Z.shiftl offset1 24) (Z.shiftl offset2 16))
               (Z.shiftl offset3 8)) offset4)))
  else undefined.

(** The case [dup2]. *)
Definition do_dup2 : M control :=
  first <- read (peek 1) ;;
  wide_ <- read (isLongOrDouble first) ;;
  (if wide_ : bool then push first
   else
     second <- read (peek 2) ;;
     push second ;;;
     push first) ;;;
  ret Loop.

(** The case [dup2_x1]. *)
Definition do_dup2_x1 : M control :=
  first <- pop ;;
  second <- pop ;;
  wide_ <- read (isLongOrDouble first) ;;
  (if wide_ : bool then
     push first ;;;
     push second ;;;
     push first
   else
     third <- pop ;;
     push second ;;;
     push first ;;;
     push third ;;;
     push second ;;;
     push first) ;;;
  ret Loop.

(** The case [dup2_x2]. *)
Definition do_dup2_x2 : M control :=
  first <- pop ;;
  second <- pop ;;
  wide1 <- read (isLongOrDouble first) ;;
  (if wide1 : bool then
     wide2 <- read (isLongOrDouble second) ;;
     if wide2 : bool then
       push first ;;;
       push second ;;;
       push first
     else
       third <- pop ;;
       push first ;;;
       push third ;;;
       push second ;;;
       push first
   else
     third <- pop ;;
     wide3 <- read (isLongOrDouble third) ;;
     if wide3 : bool then
       push second ;;;
       push first ;;;
       push third ;;;
       push second ;;;
       push first
     else
       fourth <- pop ;;
       push second ;;;
       push first ;;;
       push fourth ;;;
       push third ;;;
       push second ;;;
       push first) ;;;
  ret Loop.

(** The case [pop2]. *)
Definition do_pop2 : M control :=
  top <- read (peek 1) ;;
  wide_ <- read (isLongOrDouble top) ;;
  s <- get sp ;;
  modify (set_sp (Word.u32 (s - (if wide_ : bool then 1 else 2)))) ;;;
  ret Loop.

(** The case [swap]: [object tmp = stack[sp - 1]; stack[sp - 1] =
    stack[sp - 2]; stack[sp - 2] = tmp;] *)
Definition do_swap : M control :=
  tmp <- read (peek 1) ;;
  below <- read (peek 2) ;;
  s <- get sp ;;
  st <- get stack ;;
  st' <- read (fun _ => set_nth_Z st (Word.u32 (s - 1)) below) ;;
  st'' <- read (fun _ => set_nth_Z st' (Word.u32 (s - 2)) tmp) ;;
  modify (set_stack st'') ;;;
  ret Loop.

(** The case [iinc], whose increment is an [int8_t]; [wide iinc] gives
    [increment] as a [uint16_t]. *)
Definition do_iinc (index increment : Z) : M control :=
  o <- local index ;;
  v <- read (intValue o) ;;
  r <- read (fun _ => in_int32 (v + increment)) ;;
  o' <- makeInt r ;;
  set_local index o' ;;;
  ret Loop.

(** [ip = intValue(t, frameLocals(t, frame)[index]);] *)
Definition do_ret (index : Z) : M control :=
  o <- local index ;;
  v <- read (intValue o) ;;
  modify (set_ip (Word.u32 v)) ;;;
  ret Loop.

(** The cases [jsr] and [jsr_w], after the offset bytes: [push(t, makeInt(t,
    ip));] and the branch. *)
Definition do_jsr (go : M unit) : M control :=
  i <- get ip ;;
  v <- makeInt i ;;
  push v ;;;
  go ;;;
  ret Loop.

(** The branch of [newarray] and [anewarray] for a negative count:
    [makeString(t, "%d", c)] and a NegativeArrayStoreException. *)
Definition negative_count (c : Z) : M control :=
  message <- makeString (format_d c) ;;
  e <- makeNegativeArrayStoreException message ;;
  throw e.

(** Modelled from the spec: the type codes [T_BOOLEAN] to [T_LONG] of
    [newarray] come from [constants.h], which is not part of the sources;
    they are those of class files, 4 to 11. *)
Definition is_array_type (type : Z) : bool := (4 <=? type) && (type <=? 11).

(** The case [newarray].  Of the branch for a count that is not negative,
    the element type byte is read and an unknown one ends in [abort(t)]; the
    array itself is made by the generated constructors ([makeIntArray], ...)
    within the limits of the nursery, which are not represented. *)
Definition do_newarray : M control :=
  count <- pop ;;
  c <- read (intValue count) ;;
  if 0 <=? c then
    type <- fetch8 ;;
    if is_array_type type then undefined else ret Abort
  else negative_count c.

(** The cases of the switch that follow; those that share a body stand under
    the first of their labels ([aload] for [aload], [iload] and [lload],
    [areturn] for [areturn], [ireturn] and [lreturn], ...). *)
Module Op.

Inductive t :=
| aconst_null
| aload | aload_0 | aload_1 | aload_2 | aload_3
| anewarray | areturn
| astore | astore_0 | astore_1 | astore_2 | astore_3
| bipush
| dup | dup_x1 | dup_x2 | dup2 | dup2_x1 | dup2_x2
| goto_ | goto_w
| i2b | i2c | i2l | i2s
| iadd | iand
| iconst_0 | iconst_1 | iconst_2 | iconst_3 | iconst_4 | iconst_5
| idiv
| if_acmpeq | if_acmpne
| ifeq | ifne | ifgt | ifge | iflt | ifle | ifnonnull | ifnull
| iinc | imul | ineg | instanceof
| ior | irem | ishl | ishr | isub | iushr | ixor
| jsr | jsr_w
| l2i | ladd | land | lcmp | lconst_0 | lconst_1
| ldc | ldc_w
| ldiv | lmul | lneg | lor | lrem | lshl | lshr | lsub | lushr | lxor
| newarray | nop | pop_ | pop2 | ret | return_ | sipush | swap | wide.

End Op.

(** Modelled from the spec: the opcode numbers come from [constants.h], which
    is not part of the sources; they are those of class files. *)
Definition decode_further (b : Z) : option Op.t :=
  match b with
  | 0 => Some Op.nop | 1 => Some Op.aconst_null
  | 3 => Some Op.iconst_0 | 4 => Some Op.iconst_1 | 5 => Some Op.iconst_2
  | 6 => Some Op.iconst_3 | 7 => Some Op.iconst_4 | 8 => Some Op.iconst_5
  | 9 => Some Op.lconst_0 | 10 => Some Op.lconst_1
  | 16 => Some Op.bipush | 17 => Some Op.sipush
  | 18 => Some Op.ldc | 19 | 20 => Some Op.ldc_w
  | 21 | 22 | 25 => Some Op.aload
  | 26 | 30 | 42 => Some Op.aload_0 | 27 | 31 | 43 => Some Op.aload_1
  | 28 | 32 | 44 => Some Op.aload_2 | 29 | 33 | 45 => Some Op.aload_3
  | 54 | 55 | 58 => Some Op.astore
  | 59 | 63 | 75 => Some Op.astore_0 | 60 | 64 | 76 => Some Op.astore_1
  | 61 | 65 | 77 => Some Op.astore_2 | 62 | 66 | 78 => Some Op.astore_3
  | 87 => Some Op.pop_ | 88 => Some Op.pop2
  | 89 => Some Op.dup | 90 => Some Op.dup_x1 | 91 => Some Op.dup_x2
  | 92 => Some Op.dup2 | 93 => Some Op.dup2_x1 | 94 => Some Op.dup2_x2
  | 95 => Some Op.swap
  | 96 => Some Op.iadd | 97 => Some Op.ladd
  | 100 => Some Op.isub | 101 => Some Op.lsub
  | 104 => Some Op.imul | 105 => Some Op.lmul
  | 108 => Some Op.idiv | 109 => Some Op.ldiv
  | 112 => Some Op.irem | 113 => Some Op.lrem
  | 116 => Some Op.ineg | 117 => Some Op.lneg
  | 120 => Some Op.ishl | 121 => Some Op.lshl
  | 122 => Some Op.ishr | 123 => Some Op.lshr
  | 124 => Some Op.iushr | 125 => Some Op.lushr
  | 126 => Some Op.iand | 127 => Some Op.land
  | 128 => Some Op.ior | 129 => Some Op.lor
  | 130 => Some Op.ixor | 131 => Some Op.lxor
  | 132 => Some Op.iinc | 133 => Some Op.i2l | 136 => Some Op.l2i
  | 145 => Some Op.i2b | 146 => Some Op.i2c | 147 => Some Op.i2s
  | 148 => Some Op.lcmp
  | 153 => Some Op.ifeq | 154 => Some Op.ifne | 155 => Some Op.iflt
  | 156 => Some Op.ifge | 157 => Some Op.ifgt | 158 => Some Op.ifle
  | 165 => Some Op.if_acmpeq | 166 => Some Op.if_acmpne
  | 167 => Some Op.goto_ | 168 => Some Op.jsr | 169 => Some Op.ret
  | 172 | 173 | 176 => Some Op.areturn | 177 => Some Op.return_
  | 188 => Some Op.newarray | 189 => Some Op.anewarray
  | 193 => Some Op.instanceof | 196 => Some Op.wide
  | 198 => Some Op.ifnull | 199 => Some Op.ifnonnull
  | 200 => Some Op.goto_w | 201 => Some Op.jsr_w
  | _ => None
  end.

(** The cases of the switch that are not modelled: [getstatic], [putstatic],
    [getfield], [putfield], the four [invoke] opcodes and [new_], which go
    through the field, method and initialiser records of a class. *)
Definition unmodelled (b : Z) : bool :=
  ((178 <=? b) && (b <=? 185)) || (b =? 187).

Section Cases.

Variable resolveClassByName : object -> M object.

(** The case [instanceof]; the reference tested stays on the stack, below
    the result. *)
Definition do_instanceof : M control :=
  index1 <- fetch8 ;;
  index2 <- fetch8 ;;
  top <- read (peek 1) ;;
  if negb (top =? 0) then
    let index := Word.u16 (Z.lor (Z.shiftl index1 8) index2) in
    c <- get code ;;
    pool <- read (codePool c) ;;
    class_ <- resolveClass resolveClassByName pool index ;;
    e <- get exception ;;
    if negb (e =? 0) then ret Throw
    else
      top' <- read (peek 1) ;;
      inst <- read (instanceOf class_ top') ;;
      v <- makeInt (if inst : bool then 1 else 0) ;;
      push v ;;;
      ret Loop
  else
    v <- makeInt 0 ;;
    push v ;;;
    ret Loop.

(** The case [anewarray].  The class is resolved for a count that is not
    negative; the array itself is made by the generated [makeObjectArray]
    within the limits of the nursery, which are not represented. *)
Definition do_anewarray : M control :=
  count <- pop ;;
  c <- read (intValue count) ;;
  if 0 <=? c then
    index1 <- fetch8 ;;
    index2 <- fetch8 ;;
    let index := Word.u16 (Z.lor (Z.shiftl index1 8) index2) in
    cd <- get code ;;
    pool <- read (codePool cd) ;;
    class_ <- resolveClass resolveClassByName pool index ;;
    e <- get exception ;;
    if negb (e =? 0) then ret Throw else undefined
  else negative_count c.

(** The switch at [wide:]. *)
Definition do_wide : M control :=
  b <- fetch ;;
  match decode_further b with
  | Some Op.aload =>
      index1 <- fetch8 ;;
      index2 <- fetch8 ;;
      load_local (Z.lor (Z.shiftl index1 8) index2)
  | Some Op.astore =>
      index1 <- fetch8 ;;
      index2 <- fetch8 ;;
      store_local (Z.lor (Z.shiftl index1 8) index2)
  | Some Op.iinc =>
      index1 <- fetch8 ;;
      index2 <- fetch8 ;;
      count1 <- fetch8 ;;
      count2 <- fetch8 ;;
      do_iinc (Word.u16 (Z.lor (Z.shiftl index1 8) index2))
        (Word.u16 (Z.lor (Z.shiftl count1 8) count2))
  | Some Op.ret =>
      index1 <- fetch8 ;;
      index2 <- fetch8 ;;
      do_ret (Z.lor (Z.shiftl index1 8) index2)
  | _ => ret Abort
  end.

(** The body of a case, entered with [ip] past the opcode. *)
Definition execute (op : Op.t) : M control :=
  match op with
  | Op.aconst_null => push 0 ;;; ret Loop
  | Op.aload => index <- fetch ;; load_local index
  | Op.aload_0 => load_local 0
  | Op.aload_1 => load_local 1
  | Op.aload_2 => load_local 2
  | Op.aload_3 => load_local 3
  | Op.anewarray => do_anewarray
  | Op.areturn => do_return true
  | Op.astore => value <- pop ;; index <- fetch ;; set_local index value ;;; ret Loop
  | Op.astore_0 => store_local 0
  | Op.astore_1 => store_local 1
  | Op.astore_2 => store_local 2
  | Op.astore_3 => store_local 3
  | Op.bipush => b <- fetch ;; v <- makeInt b ;; push v ;;; ret Loop
  | Op.dup => value <- read (peek 1) ;; push value ;;; ret Loop
  | Op.dup_x1 =>
      first <- pop ;;
      second <- pop ;;
      push first ;;;
      push second ;;;
      push first ;;;
      ret Loop
  | Op.dup_x2 =>
      first <- pop ;;
      second <- pop ;;
      third <- pop ;;
      push first ;;;
      push third ;;;
      push second ;;;
      push first ;;;
      ret Loop
  | Op.dup2 => do_dup2
  | Op.dup2_x1 => do_dup2_x1
  | Op.dup2_x2 => do_dup2_x2
  | Op.goto_ =>
      offset1 <- fetch8 ;;
      offset2 <- fetch8 ;;
      branch offset1 offset2 ;;;
      ret Loop
  | Op.goto_w =>
      offset1 <- fetch8 ;;
      offset2 <- fetch8 ;;
      offset3 <- fetch8 ;;
      offset4 <- fetch8 ;;
      branch_w offset1 offset2 offset3 offset4 ;;;
      ret Loop
  | Op.i2b => unary intValue (fun x => Some (int8 x)) makeInt
  | Op.i2c => unary intValue (fun x => Some (Word.u16 x)) makeInt
  | Op.i2l => unary intValue Some makeLong
  | Op.i2s => unary intValue (fun x => Some (int16 x)) makeInt
  | Op.iadd => binary intValue (fun x y => in_int32 (x + y)) makeInt
  | Op.iand => binary intValue (fun x y => Some (Z.land x y)) makeInt
  | Op.iconst_0 => v <- makeInt 0 ;; push v ;;; ret Loop
  | Op.iconst_1 => v <- makeInt 1 ;; push v ;;; ret Loop
  | Op.iconst_2 => v <- makeInt 2 ;; push v ;;; ret Loop
  | Op.iconst_3 => v <- makeInt 3 ;; push v ;;; ret Loop
  | Op.iconst_4 => v <- makeInt 4 ;; push v ;;; ret Loop
  | Op.iconst_5 => v <- makeInt 5 ;; push v ;;; ret Loop
  | Op.idiv => binary intValue (divide 32) makeInt
  | Op.if_acmpeq => if_acmp Z.eqb
  | Op.if_acmpne => if_acmp (fun a b => negb (a =? b))
  | Op.ifeq => if_int (fun x => x =? 0)
  | Op.ifne => if_int (fun x => negb (x =? 0))
  | Op.ifgt => if_int (fun x => 0 <? x)
  | Op.ifge => if_int (fun x => 0 <=? x)
  | Op.iflt => if_int (fun x => x <? 0)
  | Op.ifle => if_int (fun x => x <=? 0)
  | Op.ifnonnull => if_ref (fun v => negb (v =? 0))
  | Op.ifnull => if_ref (fun v => v =? 0)
  | Op.iinc => index <- fetch8 ;; c <- fetch ;; do_iinc index (int8 c)
  | Op.imul => binary intValue (fun x y => in_int32 (x * y)) makeInt
  | Op.ineg => unary intValue (fun x => in_int32 (- x)) makeInt
  | Op.instanceof => do_instanceof
  | Op.ior => binary intValue (fun x y => Some (Z.lor x y)) makeInt
  | Op.irem => binary intValue (remainder 32) makeInt
  | Op.ishl => binary intValue (shift_left 32) makeInt
  | Op.ishr => binary intValue (shift_right 32) makeInt
  | Op.isub => binary intValue (fun x y => in_int32 (x - y)) makeInt
  | Op.iushr =>
      binary intValue
        (fun x y =>
           if (0 <=? y) && (y <? 32) then Some (Z.shiftr (Word.u32 x) y) else None)
        makeInt
  | Op.ixor => binary intValue (fun x y => Some (Z.lxor x y)) makeInt
  | Op.jsr =>
      offset1 <- fetch8 ;;
      offset2 <- fetch8 ;;
      do_jsr (branch offset1 offset2)
  | Op.jsr_w =>
      offset1 <- fetch8 ;;
      offset2 <- fetch8 ;;
      offset3 <- fetch8 ;;
      offset4 <- fetch8 ;;
      do_jsr (branch_w offset1 offset2 offset3 offset4)
  | Op.l2i => unary longValue (fun x => Some (Word.s32 x)) makeInt
  | Op.ladd => binary longValue (fun x y => in_int64 (x + y)) makeLong
  | Op.land => binary longValue (fun x y => Some (Z.land x y)) makeLong
  | Op.lcmp =>
      binary longValue
        (fun x y => Some (if y <? x then 1 else if x =? y then 0 else -1))
        makeInt
  | Op.lconst_0 => v <- makeLong 0 ;; push v ;;; ret Loop
  | Op.lconst_1 => v <- makeLong 1 ;; push v ;;; ret Loop
  | Op.ldc =>
      index <- fetch ;;
      c <- get code ;;
      pool <- read (codePool c) ;;
      body <- read (rawArrayBody pool) ;;
      v <- read (fun _ => nth_Z body index) ;;
      push v ;;;
      ret Loop
  | Op.ldc_w =>
      index1 <- fetch8 ;;
      index2 <- fetch8 ;;
      c <- get code ;;
      pool <- read (codePool c) ;;
      body <- read (rawArrayBody pool) ;;
      v <- read (fun _ => nth_Z body (Z.lor (Z.shiftl index1 8) index2)) ;;
      push v ;;;
      ret Loop
  | Op.ldiv => binary longValue (divide 64) makeLong
  | Op.lmul => binary longValue (fun x y => in_int64 (x * y)) makeLong
  | Op.lneg => unary longValue (fun x => in_int64 (- x)) makeLong
  | Op.lor => binary longValue (fun x y => Some (Z.lor x y)) makeLong
  | Op.lrem => binary longValue (remainder 64) makeLong
  | Op.lshl => binary longValue (shift_left 64) makeLong
  | Op.lshr => binary longValue (shift_right 64) makeLong
  | Op.lsub => binary longValue (fun x y => in_int64 (x - y)) makeLong
  | Op.lushr =>
      binary longValue
        (fun x y =>
           if (0 <=? y) && (y <? 64) then Some (uint64 (uint64 x * 2 ^ y))
           else None)
        makeLong
  | Op.lxor => binary longValue (fun x y => Some (Z.lxor x y)) makeLong
  | Op.newarray => do_newarray
  | Op.nop => ret Loop
  | Op.pop_ => s <- get sp ;; modify (set_sp (Word.u32 (s - 1))) ;;; ret Loop
  | Op.pop2 => do_pop2
  | Op.ret =>
      c <- get code ;;
      body <- read (codeBody c) ;;
      i <- get ip ;;
      index <- read (fun _ => nth_Z body i) ;;
      do_ret index
  | Op.return_ => do_return false
  | Op.sipush =>
      byte1 <- fetch8 ;;
      byte2 <- fetch8 ;;
      v <- makeInt (Z.lor (Z.shiftl byte1 8) byte2) ;;
      push v ;;;
      ret Loop
  | Op.swap => do_swap
  | Op.wide => do_wide
  end.

(** One round of [loop:] over all the cases: those of [step], the further
    ones, and [default: abort(t)] for a byte that no case of the switch
    names. *)
Definition dispatch : M control :=
  c <- get code ;;
  body <- read (codeBody c) ;;
  i <- get ip ;;
  b <- read (fun _ => nth_Z body i) ;;
  match decode b with
  | Some _ => step resolveClassByName
  | None =>
      fetch ;;;
      match decode_further b with
      | Some op => execute op
      | None => if unmodelled b then undefined else ret Abort
      end
  end.

End Cases.

(** How [run] ends: [return value;], [abort(t)], or not within the rounds
    that were given. *)
Inductive exit :=
| Returned (value : object)
| Aborted
| Unfinished.

Section Run.

Variable sizeof_object : Z.
Variable uninitialised : nat -> object.
Variable resolveClassByName : object -> M object.

(** What follows a case: the join points [invoke:] and [throw_:], both of
    which end in [goto loop] ([invoke:] may go to [throw_:] first). *)
Definition join (c : control) : M control :=
  c' <- match c with
        | Invoke parameterCount =>
            invoke sizeof_object uninitialised parameterCount
        | _ => ret c
        end ;;
  match c' with
  | Throw => throw_ uninitialised
  | _ => ret c'
  end.

(** [run(Thread* t)], for at most [fuel] rounds of the dispatch loop. *)
Fixpoint run (fuel : nat) : M exit :=
  match fuel with
  | O => ret Unfinished
  | S fuel' =>
      c <- dispatch resolveClassByName ;;
      c' <- join c ;;
      match c' with
      | Loop => run fuel'
      | Return value => ret (Returned value)
      | Abort => ret Aborted
      | Invoke _ | Throw => undefined
      end
  end.

End Run.

(** ** Vocabulary of the properties *)

(** The open scopes are linked through their [next] fields down to the list
    that was there before the first of them was opened. *)
Fixpoint linked (base : option Protector) (live : list Protector)
    (head : option Protector) : Prop :=
  match live with
  | [] => head = base
  | this :: live' => head = Some this /\ linked base live' (Protector_next this)
  end.

(** The frames linked from [f], innermost first, each with its address, its
    method and its [ip] field; the chain ends at the null reference. *)
Fixpoint chain (h : list Cell.t) (f : object) (fs : list (object * object * Z))
    : Prop :=
  match fs with
  | [] => f = 0
  | (a, m, i) :: fs' =>
      f = a /\ exists n b l,
        lookup h a = Some (Cell.Frame m n i b l) /\ chain h n fs'
  end.

Definition addresses (fs : list (object * object * Z)) : list object :=
  map (fun x => fst (fst x)) fs.

(** The records that the loop of [makeTrace] allocates for a chain: one per
    frame, each linked to the one made before it; [next] is the address of
    the first of them. *)
Fixpoint trace_cells (trace : object) (next : Z)
    (fs : list (object * object * Z)) : list Cell.t :=
  match fs with
  | [] => []
  | (_, m, i) :: fs' => Cell.Trace m i trace :: trace_cells next (next + 1) fs'
  end.

Definition last_trace (trace : object) (next : Z)
    (fs : list (object * object * Z)) : object :=
  match fs with
  | [] => trace
  | _ :: _ => next + Z.of_nat (length fs) - 1
  end.

(** The store after [makeTrace]: the current frame holds the live [ip], and
    the trace records follow. *)
Definition traced (t : Thread) (m n : object) (b : Z) (l : list object)
    (fs : list (object * object * Z)) : list Cell.t :=
  update (store t) (frame t) (Cell.Frame m n (ip t) b l)
    ++ trace_cells 0 (fresh (store t)) ((frame t, m, ip t) :: fs).

(** What [makeString] puts in the byte array for a text. *)
Definition c_bytes (text : list Z) : list Z := until_nul (firstn 254 text) ++ [0].

(** What a reference to a throwable made by the machine leads to: its type
    and, unless the message is null, the bytes of its message, that is the
    part of the byte array that the message string covers. *)
Definition thrown (e : object) (t : Thread) : option (Throwable * option (list Z)) :=
  match cell_at e t with
  | Some (Cell.Thrown x message _) =>
      if message =? 0 then Some (x, None)
      else
        match cell_at message t with
        | Some (Cell.String bytes offset length _) =>
            match byteArrayBody bytes t with
            | Some body =>
                Some (x, Some (firstn (Z.to_nat length)
                                 (skipn (Z.to_nat offset) body)))
            | None => None
            end
        | _ => None
        end
  | _ => None
  end.

(** Whether a row of a handler table catches the thread's exception, in the
    words of the unwinding rule: its catch type is [0], or the exception is
    an instance of the class at that index of the constant pool of the code. *)
Definition catches (code_ : object) (eh : ExceptionHandler) (t : Thread)
    : option bool :=
  if Word.u16 (exceptionHandlerCatchType eh) =? 0 then Some true
  else
    pool ← codePool code_ t;
    body ← rawArrayBody pool t;
    class_ ← nth_Z body (Word.u16 (exceptionHandlerCatchType eh));
    instanceOf class_ (exception t) t.

(** The code of the method of a frame, and the rows of its handler table
    (none when it has no table). *)
Definition handlers (f : object) (t : Thread)
    : option (object * list ExceptionHandler) :=
  m ← frameMethod f t;
  c ← methodCode m t;
  eht ← codeExceptionHandlerTable c t;
  if eht =? 0 then Some (c, [])
  else table ← exceptionHandlerTableBody eht t; Some (c, table).

(** The thread when [throw_:] has found the handler [eh] in the frame [a],
    whose method has the code [c] and whose stack base is [base]. *)
Definition caught (t : Thread) (a c : object) (eh : ExceptionHandler)
    (base : Z) : Thread :=
  mkThread (state t) (thread t) a c 0 (exceptionHandlerIp eh)
    (Word.u32 (base + 1)) (heapIndex t)
    (<[Z.to_nat base := exception t]> (stack t)) (protector t) (store t).

(** A frame none of whose handlers catches. *)
Definition passes (t : Thread) (x : object * object * Z) : Prop :=
  exists c table,
    handlers (fst (fst x)) t = Some (c, table) /\
    Forall (fun eh => catches c eh t = Some false) table.

(** The opcode of the element load or store of an array type. *)
Definition array_opcode (k : ArrayKind) (storing : bool) : Z :=
  match k, storing with
  | objectArray, false => 50 | objectArray, true => 83
  | byteArray, false => 51 | byteArray, true => 84
  | charArray, false => 52 | charArray, true => 85
  | shortArray, false => 53 | shortArray, true => 86
  | intArray, false => 46 | intArray, true => 79
  | longArray, false => 47 | longArray, true => 80
  end.

(** How far below the top of the stack the array reference lies: a load has
    the operands array and index, a store array, index and value. *)
Definition operand_depth (storing : bool) : Z := if storing then 3 else 2.

(** ** Sample states *)

(** A thread with two values on its operand stack and nothing else. *)
Definition two_on_stack : Thread :=
  mkThread Coordinator.ActiveState 0 0 0 0 0 2 0 [11; 12; 0; 0] None [].

(** A thread with one value on its operand stack, and one protected local. *)
Definition one_on_stack : Thread :=
  mkThread Coordinator.ActiveState 0 0 0 0 0 1 0 [11; 0; 0; 0]
    (Some (mkProtector (LocalSlot "message") None)) [].

(** A run that leaves one scope open. *)
Definition sample_run : list action :=
  [Open (LocalSlot "class_"); Other (set_sp 3);
   Open (LocalSlot "trace"); Close; Close; Open (LocalSlot "spec")].

Definition sample_open : Protector :=
  mkProtector (LocalSlot "spec") (protector one_on_stack).

Definition sample_end : Thread :=
  set_protector (Some sample_open) (set_sp 3 one_on_stack).

(** A method with the given bytecode, its frame, and a few values:
    [new int[3]] at address 4, the boxed ints 5, 0 and 7 at addresses 5, 6
    and 7. *)
Definition program (body : list Z) : list Cell.t :=
  [ Cell.Code 0 0 4 2 body;
    Cell.Method 0 0 0 2 1;
    Cell.Frame 2 0 0 0 [0; 0];
    Cell.IntArray [0; 0; 0];
    Cell.Int 5;
    Cell.Int 0;
    Cell.Int 7 ].

(** The thread about to execute the first opcode of that method, with the
    given operands on its stack. *)
Definition running (body : list Z) (operands : list object) : Thread :=
  mkThread Coordinator.ActiveState 0 3 1 0 0 (Z.of_nat (length operands)) 0
    (operands ++ [0; 0; 0; 0]) None (program body).

(** No class is ever loaded. *)
Definition no_classes : object -> M object := fun _ => undefined.

(** Memory that happens to be zero. *)
Definition zeroed : nat -> object := fun _ => 0.

(** A thread in a method called from another one: the frame at address 6
    is linked to the caller's frame at address 3, which was left at [ip] 9;
    the live [ip] is 7. *)
Definition two_frames : Thread :=
  mkThread Coordinator.ActiveState 0 6 4 0 7 2 0 [0; 0; 0; 0] None
    [ Cell.Code 0 0 4 2 [];
      Cell.Method 0 0 0 0 1;
      Cell.Frame 2 0 9 0 [0; 0];
      Cell.Code 0 0 4 2 [];
      Cell.Method 0 0 0 0 4;
      Cell.Frame 5 3 0 2 [0; 0] ].

(** The method at address 2 is called at [ip] 4 with two parameters, the
    references 5 and 7, on the stack. *)
Definition calling : Thread := set_ip 4 (set_code 2 (running [] [5; 7])).

(** The thread after the [iastore] of [int[] a = new int[3]; a[5] = 0;],
    whose operands are the array at address 4 and the boxed ints 5 and 0 at
    addresses 5 and 6: the byte array, the string, the trace and the
    exception are new, the current frame holds the live [ip], and
    [t->frame] is null. *)
Definition after_iastore : Thread :=
  mkThread Coordinator.ActiveState 0 0 1 11 1 0 0 [4; 5; 6; 0; 0; 0; 0] None
    [ Cell.Code 0 0 4 2 [79];
      Cell.Method 0 0 0 2 1;
      Cell.Frame 2 0 1 0 [0; 0];
      Cell.IntArray [0; 0; 0];
      Cell.Int 5;
      Cell.Int 0;
      Cell.Int 7;
      Cell.ByteArray (chars "5 not in [0,3]" ++ [0]);
      Cell.String 8 0 15 0;
      Cell.Trace 2 1 0;
      Cell.Thrown ArrayIndexOutOfBoundsException 9 10 ].

(** An instance of a class with id 1 is thrown at [ip] 5 in a method whose
    table has a handler for the range from 10 to 20 that catches anything,
    and after it a handler for the range from 0 to 10. *)
Definition throwing : Thread :=
  mkThread Coordinator.ActiveState 0 3 1 6 5 2 0 [0; 0; 0; 0] None
    [ Cell.Code 0 4 4 2 [];
      Cell.Method 0 0 0 0 1;
      Cell.Frame 2 0 0 0 [0; 0];
      Cell.ExceptionHandlerTable
        [mkExceptionHandler 10 20 30 0; mkExceptionHandler 0 10 40 0];
      Cell.Class 1 0 0 0;
      Cell.Instance 5 [] ].

(** [try { throw new E(); } catch (F e) { ... } catch (E e) { ... }] with [F]
    unrelated to [E]: the classes [E] and [F] at addresses 5 and 6, the
    constant pool at address 7, the thrown instance of [E] at address 8, and
    a caller's frame at address 10 around the frame at address 3. *)
Definition catching : Thread :=
  mkThread Coordinator.ActiveState 0 3 1 8 5 2 0 [0; 0; 0; 0] None
    [ Cell.Code 7 4 4 2 [];
      Cell.Method 0 0 0 0 1;
      Cell.Frame 2 10 0 1 [0; 0];
      Cell.ExceptionHandlerTable
        [mkExceptionHandler 0 10 20 1; mkExceptionHandler 0 10 30 2];
      Cell.Class 1 0 0 0;
      Cell.Class 2 0 0 0;
      Cell.RawArray [0; 6; 5];
      Cell.Instance 5 [];
      Cell.Method 0 0 0 0 1;
      Cell.Frame 9 0 0 0 [0; 0] ].

(** ** Vocabulary of the further properties *)

(** The [ACQUIRE] scopes of the state monitor that the events of a call of
    [enter], latest first, have entered and not left: the acquisitions less
    the releases.  A wait takes place inside a scope and leaves it open. *)
Fixpoint scopes (tr : list Coordinator.event) : Z :=
  match tr with
  | [] => 0
  | Coordinator.Acquire :: tr' => scopes tr' + 1
  | Coordinator.Release :: tr' => scopes tr' - 1
  | _ :: tr' => scopes tr'
  end.



(** The value of a byte string as a polynomial in 31, the first byte having
    the highest power. *)
Fixpoint polynomial (s : list Z) : Z :=
  match s with
  | [] => 0
  | c :: s' => int8 c * 31 ^ Z.of_nat (length s') + polynomial s'
  end.

(** The records linked from [o] through [next], in order; the list ends at
    the null reference. *)
Fixpoint path (next : object -> option object) (o : object) (l : list object)
    : Prop :=
  match l with
  | [] => o = 0
  | a :: l' => o = a /\ exists n, next a = Some n /\ path next n l'
  end.

(** The entries (key, value) of the bucket whose first triple is [n]. *)
Fixpoint bucket (h : list HashMap.record) (n : object) (es : list (object * object))
    : Prop :=
  match es with
  | [] => n = 0
  | (k, v) :: es' =>
      exists next, HashMap.triple h n = Some (k, v, next) /\ bucket h next es'
  end.

(** The value of the first entry whose key is equal to [key]; null when
    there is none. *)
Fixpoint first_match (equal : object -> object -> bool) (key : object)
    (es : list (object * object)) : object :=
  match es with
  | [] => 0
  | (k, v) :: es' => if equal k key then v else first_match equal key es'
  end.

(** The classes from [oc] up the superclass chain, each with its id and its
    interface table; the chain ends at the null reference. *)
Fixpoint supers (h : list Cell.t) (oc : object) (cs : list (Z * object))
    : Prop :=
  match cs with
  | [] => oc = 0
  | (id, itable) :: cs' =>
      exists name super,
        lookup h oc = Some (Cell.Class id name super itable) /\
        supers h super cs'
  end.

(** [tripleThird(t, o)], the link of a bucket's list. *)
Definition tripleThird (h : list HashMap.record) (o : object) : option object :=
  match HashMap.triple h o with
  | Some (_, _, third) => Some third
  | None => None
  end.

(** The interfaces that an interface table lists: the ids of the interface
    records at its even positions; its odd positions hold their method
    tables. *)
Fixpoint listed (h : list Cell.t) (body : list object) (ids : list Z) : Prop :=
  match body, ids with
  | [], [] => True
  | i :: rest, id :: ids' =>
      (exists name, lookup h i = Some (Cell.Interface id name)) /\
      match rest with
      | [] => ids' = []
      | _ :: rest' => listed h rest' ids'
      end
  | _, _ => False
  end.

(** The interfaces that the table of a class lists. *)
Definition lists (h : list Cell.t) (c : Z * object) (ids : list Z) : Prop :=
  exists body,
    lookup h (snd c) = Some (Cell.RawArray body) /\ listed h body ids.

(** ** Further sample states *)

(** A class [B] (id 2, at address 2) that extends [A] (id 1, at address 1)
    and implements the interface [I] (id 7, at address 3) through the table
    at address 4, whose second word stands for the method table; an instance
    of [B] at address 5; the empty interface table of [A] at address 6; an
    interface [J] (id 8) at address 7 that no class implements. *)
Definition family : Thread :=
  mkThread Coordinator.ActiveState 0 0 0 0 0 0 0 [0; 0; 0; 0] None
    [ Cell.Class 1 0 0 6;
      Cell.Class 2 0 1 4;
      Cell.Interface 7 0;
      Cell.RawArray [3; 0];
      Cell.Instance 2 [];
      Cell.RawArray [];
      Cell.Interface 8 0 ].

(** A constant pool at address 1 whose slot 1 holds the name, at address 2,
    of the class at address 3. *)
Definition unresolved : Thread :=
  mkThread Coordinator.ActiveState 0 0 0 0 0 0 0 [0; 0; 0; 0] None
    [ Cell.RawArray [0; 2];
      Cell.ByteArray (chars "A" ++ [0]);
      Cell.Class 1 2 0 0 ].

(** A class resolver that finds the same class for every name. *)
Definition finds (class_ : object) : object -> M object := fun _ => ret class_.

(** Where a branching opcode at address [a] leaves the thread: back in the
    dispatch loop, past its two offset bytes or at the target that the
    bytes give, which is counted from the second of them. *)
Definition lands (body : list Z) (a : Z) (c : control) (t' : Thread) : Prop :=
  exists o1 o2,
    nth_Z body (a + 1) = Some o1 /\ nth_Z body (a + 2) = Some o2 /\
    c = Loop /\
    (ip t' = a + 3 \/ ip t' = a + 2 + (256 * o1 + o2)).

(** The opcodes that branch by a two-byte offset: [ifeq] to [ifle],
    [if_icmpeq] to [if_icmple], [if_acmpeq], [if_acmpne], [goto_], [jsr],
    [ifnull] and [ifnonnull]. *)
Definition branching : list Z :=
  [153; 154; 155; 156; 157; 158; 159; 160; 161; 162; 163; 164;
   165; 166; 167; 168; 198; 199].

(** The thread of [running] with two boxed longs more, at addresses 8 and
    9. *)
Definition with_longs (body : list Z) (operands : list object) (x y : Z)
    : Thread :=
  set_store (program body ++ [Cell.Long x; Cell.Long y]) (running body operands).

(** The thread when [throw_:] has found no handler in any frame and has
    entered the method that the thread object names for uncaught
    exceptions, whose code is [c]: a new frame without a caller, and the
    exception alone on the operand stack. *)
Definition delivered (uninit : nat -> object) (t : Thread)
    (method c : object) (maxLocals : Z) : Thread :=
  mkThread (state t) (thread t) (fresh (store t)) c 0 0 1 (heapIndex t)
    (<[0%nat := exception t]> (stack t)) (protector t)
    (store t ++
       [Cell.Frame method 0 0 0 (map uninit (seq 0 (Z.to_nat maxLocals)))]).

(** An exception (address 4) is thrown in a method without handlers, in a
    thread whose object (address 5) names the method at address 7 for
    uncaught exceptions. *)
Definition unhandled : Thread :=
  mkThread Coordinator.ActiveState 5 3 1 4 5 2 0 [0; 0; 0; 0] None
    [ Cell.Code 0 0 4 2 [];
      Cell.Method 0 0 0 0 1;
      Cell.Frame 2 0 0 0 [0; 0];
      Cell.Instance 0 [];
      Cell.ThreadObject 7;
      Cell.Code 0 0 4 1 [];
      Cell.Method 0 0 0 1 6 ].

(** The thread when [invoke:] has entered the method that [t->code] names,
    with [parameterCount] parameters: the caller's frame holds the [ip] of
    the call, and the new frame, with the locals [locals], is linked to
    it. *)
Definition called (t : Thread) (parameterCount : Z) (m n : object) (b : Z)
    (l locals : list object) : Thread :=
  mkThread (state t) (thread t) (fresh (store t)) (code t) (exception t) 0
    (Word.u32 (sp t - parameterCount)) (heapIndex t) (stack t) (protector t)
    (update (store t) (frame t) (Cell.Frame m n (ip t) b l)
       ++ [Cell.Frame (code t) (frame t) 0 (Word.u32 (sp t - parameterCount))
             locals]).

(** [calling] when [invoke:] has entered the method, with pointers of 8
    bytes and the new locals zero before the copy. *)
Definition entered : Thread :=
  mkThread Coordinator.ActiveState 0 8 2 0 0 0 0 [5; 7; 0; 0; 0; 0] None
    [ Cell.Code 0 0 4 2 [];
      Cell.Method 0 0 0 2 1;
      Cell.Frame 2 0 4 0 [0; 0];
      Cell.IntArray [0; 0; 0];
      Cell.Int 5;
      Cell.Int 0;
      Cell.Int 7;
      Cell.Frame 2 3 0 0 [5; 0] ].

(** A thread in a method called from another one, about to execute
    [ireturn] with the boxed int at address 7 on top of its stack: the frame
    at address 6, whose stack base is 2, is linked to the caller's frame at
    address 3, which was left at [ip] 9 and whose method, at address 2, has
    the code at address 1. *)
Definition returning_to_caller : Thread :=
  mkThread Coordinator.ActiveState 0 6 4 0 0 3 0 [11; 12; 7; 0] None
    [ Cell.Code 0 0 4 2 [];
      Cell.Method 0 0 0 0 1;
      Cell.Frame 2 0 9 0 [0; 0];
      Cell.Code 0 0 4 2 [172];
      Cell.Method 0 0 0 0 4;
      Cell.Frame 5 3 0 2 [0; 0];
      Cell.Int 1 ].

(** The text of the message of a failed cast of an instance of the class
    named [from] to the class named [to]: ["%s as %s"]. *)
Definition cast_text (from to : list Z) : list Z := from ++ chars " as " ++ to.

(** [Object o = new A(); (B) o] with [B] unrelated to [A]: the classes ["A"]
    and ["B"] at addresses 6 and 7, their names at 4 and 5, the constant
    pool, whose slot 1 holds [B], at address 8, and the instance of [A] at
    address 9, which is on the stack. *)
Definition casting : Thread :=
  mkThread Coordinator.ActiveState 0 3 1 0 0 1 0 [9; 0; 0; 0] None
    [ Cell.Code 8 0 4 2 [192; 0; 1];
      Cell.Method 0 0 0 0 1;
      Cell.Frame 2 0 0 0 [0; 0];
      Cell.ByteArray [65; 0];
      Cell.ByteArray [66; 0];
      Cell.Class 1 4 0 0;
      Cell.Class 2 5 0 0;
      Cell.RawArray [0; 7];
      Cell.Instance 6 [] ].

(** [jsr] to a subroutine that is [astore 1; ret 1]. *)
Definition subroutine : list Z := [168; 0; 3; 0; 0; 58; 1; 169; 1].

(** A computation that never ends in [return value;]. *)
Definition quiet (m : M control) : Prop :=
  forall t c t', m t = Some (c, t') -> forall v, c <> Return v.

(** What is fixed of a record once it is made: its type and everything in
    it but the elements of an array, the local variables of a frame, whose
    numbers are fixed, and the [ip] of a frame. *)
Definition shape (c : Cell.t) : Cell.t :=
  match c with
  | Cell.ByteArray b => Cell.ByteArray ((fun _ => 0) <$> b)
  | Cell.CharArray b => Cell.CharArray ((fun _ => 0) <$> b)
  | Cell.ShortArray b => Cell.ShortArray ((fun _ => 0) <$> b)
  | Cell.IntArray b => Cell.IntArray ((fun _ => 0) <$> b)
  | Cell.LongArray b => Cell.LongArray ((fun _ => 0) <$> b)
  | Cell.ObjectArray e b => Cell.ObjectArray e ((fun _ => 0) <$> b)
  | Cell.RawArray b => Cell.RawArray ((fun _ => 0) <$> b)
  | Cell.Frame m n _ s l => Cell.Frame m n 0 s ((fun _ => 0) <$> l)
  | _ => c
  end.

(** The records of [t] are still there in [t'], at their addresses and in
    their shapes; [t'] may have more at its end, which are the records made
    since. *)
Definition grows (t t' : Thread) : Prop :=
  (shape <$> store t) `prefix_of` (shape <$> store t').

(** A computation that keeps the records. *)
Definition keeps_records {A} (m : M A) : Prop :=
  forall t a t', m t = Some (a, t') -> grows t t'.

(** [astore_0; return] in a frame without a caller, with the reference 5
    on the stack, and the thread when [run] has returned: local variable 0
    of the frame holds the reference, and no record has been made. *)
Definition storing : Thread := running [75; 177] [5].

Definition stored : Thread :=
  mkThread Coordinator.ActiveState 0 0 0 0 2 0 0 [5; 0; 0; 0; 0] None
    (update (program [75; 177]) 3 (Cell.Frame 2 0 0 0 [5; 0])).

(** [casting] with [instanceof] in place of [checkcast]. *)
Definition testing : Thread :=
  set_store
    (update (store casting) 1 (Cell.Code 8 0 4 2 [193; 0; 1])) casting.

(** * Properties *)

(** ** Machine integers *)

Lemma u32_small z : 0 <= z < 2 ^ 32 -> Word.u32 z = z.
Proof. intros H. unfold Word.u32. now apply Z.mod_small. Qed.

Lemma s32_small z : - 2 ^ 31 <= z < 2 ^ 31 -> Word.s32 z = z.
Proof. intros H. unfold Word.s32. rewrite Z.mod_small; lia. Qed.

Lemma u32_range z : 0 <= Word.u32 z < 2 ^ 32.
Proof. unfold Word.u32. apply Z.mod_pos_bound. lia. Qed.

(** ** The thread coordinator *)

Module CoordinatorProofs.
Import Coordinator.

Lemma State_eqb_eq a b : State_eqb a b = true <-> a = b.
Proof. destruct a, b; simpl; split; intros H; congruence. Qed.

(** *** A program logic for [M] *)

Lemma triple_ret {A} (a : A) (Q : A -> world -> Prop) E :
  triple (Q a) (ret a) Q E.
Proof. intros w H. exact H. Qed.

Lemma triple_bind {A B} (m : M A) (k : A -> M B) P R Q E :
  triple P m R E -> (forall a, triple (R a) (k a) Q E) ->
  triple P (bind m k) Q E.
Proof.
  intros Hm Hk w Hw. unfold bind. specialize (Hm w Hw).
  destruct (m w) as [a w'| |]; auto. now apply Hk.
Qed.

Lemma triple_pre {A} (P P' : world -> Prop) (m : M A) Q E :
  (forall w, P w -> P' w) -> triple P' m Q E -> triple P m Q E.
Proof. intros HP Hm w Hw. apply Hm, HP, Hw. Qed.

Lemma triple_post {A} P (m : M A) (Q Q' : A -> world -> Prop) E :
  (forall a w, Q' a w -> Q a w) -> triple P m Q' E -> triple P m Q E.
Proof.
  intros HQ Hm w Hw. specialize (Hm w Hw). destruct (m w); auto.
Qed.

Lemma triple_abort {A} (E : world -> Prop) (Q : A -> world -> Prop) :
  triple E abort Q E.
Proof. intros w H. exact H. Qed.

Lemma keeps_bind {A B} (m : M A) (k : A -> M B) :
  keeps m -> (forall a, keeps (k a)) -> keeps (bind m k).
Proof. intros Hm Hk. eapply triple_bind; [exact Hm | exact Hk]. Qed.

Lemma keeps_ret {A} (a : A) : keeps (ret a).
Proof. intros w H. exact H. Qed.

Lemma keeps_abort {A} : keeps (@abort A).
Proof. intros w H. exact H. Qed.

Lemma keeps_assert v : keeps (assert v).
Proof. destruct v; [apply keeps_ret | apply keeps_abort]. Qed.

Lemma keeps_emit e : e <> IncLive -> keeps (emit e).
Proof.
  intros He w [Hs Ht]. split; [exact Hs |].
  simpl. intros [H | H]; [congruence | auto].
Qed.

Lemma keeps_get_vm_bind {B} (k : Machine -> M B) :
  (forall m, keeps (k m)) -> keeps (bind get_vm k).
Proof. intros Hk. apply keeps_bind; [intros w H; exact H | exact Hk]. Qed.

Lemma keeps_set_vm m : keeps (set_vm m).
Proof. intros w H. exact H. Qed.

Lemma keeps_set_state s : s <> NoState -> keeps (set_state s).
Proof. intros Hs w [_ Ht]. split; [exact Hs | exact Ht]. Qed.

(** Reading [t->state] under the invariant yields a state that is not
    [NoState]. *)
Lemma keeps_get_state_bind {B} (k : State -> M B) :
  (forall st, st <> NoState -> keeps (k st)) -> keeps (bind get_state k).
Proof.
  intros Hk. eapply triple_bind with (R := fun st w => st <> NoState /\ counted w).
  - intros w H. split; [apply H | exact H].
  - intros st w [Hst Hw]. now apply Hk.
Qed.

Lemma keeps_set_exclusive x : keeps (set_exclusive x).
Proof.
  unfold set_exclusive. apply keeps_get_vm_bind. intros m.
  apply keeps_bind; [apply keeps_set_vm |]. intros _.
  apply keeps_emit. destruct x; discriminate.
Qed.

Lemma keeps_inc_active : keeps inc_active.
Proof.
  unfold inc_active. apply keeps_get_vm_bind. intros m.
  apply keeps_bind; [apply keeps_set_vm |]. intros _.
  apply keeps_emit. discriminate.
Qed.

Lemma keeps_dec_active : keeps dec_active.
Proof.
  unfold dec_active. apply keeps_get_vm_bind. intros m.
  apply keeps_bind; [apply keeps_set_vm |]. intros _.
  apply keeps_emit. discriminate.
Qed.

Lemma keeps_dec_live : keeps dec_live.
Proof.
  unfold dec_live. apply keeps_get_vm_bind. intros m.
  apply keeps_bind; [apply keeps_set_vm |]. intros _.
  apply keeps_emit. discriminate.
Qed.

Lemma wait_while_from_counted guard ws : forall m s tr,
  s <> NoState -> ~ In IncLive tr ->
  counted (final (wait_while_from guard ws m s tr)).
Proof.
  induction ws as [| m' ws IH]; intros m s tr Hs Ht; simpl;
    destruct (guard m); simpl.
  - split; [exact Hs |]. simpl. intros [H | H]; [discriminate | auto].
  - split; assumption.
  - apply IH; [exact Hs |]. simpl. intros [H | H]; [discriminate | auto].
  - split; assumption.
Qed.

Lemma keeps_wait_while guard : keeps (wait_while guard).
Proof.
  intros w [Hs Ht]. unfold wait_while.
  pose proof (wait_while_from_counted guard (wakeups w) (vm w) (state w)
                (trace w) Hs Ht) as H.
  destruct (wait_while_from _ _ _ _ _); exact H.
Qed.

Lemma keeps_with_monitor {A} (body : M A) : keeps body -> keeps (with_monitor body).
Proof.
  intros Hb. unfold with_monitor.
  apply keeps_bind; [apply keeps_emit; discriminate |]. intros _.
  apply keeps_bind; [exact Hb |]. intros a.
  apply keeps_bind; [apply keeps_emit; discriminate |]. intros _.
  apply keeps_ret.
Qed.

Create HintDb keeps.
#[local] Hint Resolve keeps_ret keeps_abort keeps_assert keeps_set_vm
  keeps_set_exclusive keeps_inc_active keeps_dec_active keeps_dec_live
  keeps_wait_while : keeps.

Ltac keeps_step :=
  first
    [ apply keeps_get_state_bind; intros ? ?
    | apply keeps_get_vm_bind; intros ?
    | apply keeps_bind; [| intros ?]
    | apply keeps_with_monitor
    | apply keeps_set_state; discriminate
    | apply keeps_emit; discriminate
    | solve [auto with keeps] ].

Lemma keeps_enter_idle_or_zombie t s :
  s = IdleState \/ s = ZombieState -> keeps (enter_idle_or_zombie t s).
Proof.
  intros Hs. unfold enter_idle_or_zombie.
  keeps_step. keeps_step.
  - destruct st; repeat keeps_step.
  - repeat keeps_step.
    + destruct (State_eqb s ZombieState); auto with keeps.
    + apply keeps_set_state. destruct Hs; subst; discriminate.
Qed.

Lemma keeps_enter_active t : keeps (enter_active t ActiveState).
Proof.
  unfold enter_active. keeps_step.
  destruct st; try congruence; repeat keeps_step.
  destruct st; try congruence; simpl; auto with keeps.
Qed.

Lemma keeps_enter_exit t : keeps (enter_exit t ExitState).
Proof.
  unfold enter_exit. keeps_step. keeps_step.
  - destruct st; repeat keeps_step.
  - repeat keeps_step.
Qed.

Lemma keeps_enter_flat t s : keeps (enter_flat t s).
Proof.
  unfold enter_flat. keeps_step.
  destruct (State_eqb s st); [apply keeps_ret |].
  apply keeps_with_monitor. destruct s; auto with keeps.
  - apply keeps_enter_active.
  - apply keeps_enter_idle_or_zombie; auto.
  - apply keeps_enter_idle_or_zombie; auto.
  - apply keeps_enter_exit.
Qed.

Lemma keeps_yield_while_exclusive fuel t : keeps (yield_while_exclusive fuel t).
Proof.
  induction fuel as [| fuel IH]; simpl; keeps_step;
    destruct (is_exclusive m); auto with keeps.
  - intros w H. exact H.
  - apply keeps_bind; [apply keeps_enter_flat |]. intros _.
    apply keeps_bind; [apply keeps_enter_flat |]. intros _.
    exact IH.
Qed.

Lemma keeps_enter_exclusive fuel t : keeps (enter_exclusive fuel t).
Proof.
  unfold enter_exclusive. keeps_step. keeps_step; [auto with keeps |].
  keeps_step; [apply keeps_yield_while_exclusive |].
  repeat keeps_step.
Qed.

Lemma keeps_enter fuel t s : keeps (enter fuel t s).
Proof.
  unfold enter. keeps_step.
  destruct (State_eqb s st); [apply keeps_ret |].
  apply keeps_with_monitor. destruct s; auto with keeps.
  - apply keeps_enter_active.
  - apply keeps_enter_idle_or_zombie; auto.
  - apply keeps_enter_idle_or_zombie; auto.
  - apply keeps_enter_exclusive.
  - apply keeps_enter_exit.
Qed.

(** From [NoState], every target but [ActiveState] returns at once or
    aborts before it touches a counter. *)
Lemma enter_from_NoState fuel t s m ws :
  s <> ActiveState ->
  ~ In IncLive (events (call_enter fuel t s m NoState ws)).
Proof.
  intros Hs. unfold events, call_enter. rewrite <- in_rev.
  destruct s; try congruence; destruct fuel; cbn; intuition discriminate.
Qed.

(** The transition from [NoState] to [ActiveState] with no exclusive thread
    around returns at once, having incremented both counters. *)
Lemma enter_NoState_Active fuel t a l ws :
  call_enter fuel t ActiveState (mkMachine None a l) NoState ws =
  Returns tt
    (mkWorld (mkMachine None (Word.u32 (a + 1)) (Word.u32 (l + 1)))
       ActiveState ws [Release; IncLive; IncActive; Acquire]).
Proof. destruct ws; reflexivity. Qed.

(** A zombie is taken off [liveCount]; no path adds to it. *)
Example enter_Active_Zombie :
  call_enter 0 7 ZombieState (mkMachine None 2 2) ActiveState [] =
  Returns tt
    (mkWorld (mkMachine None 1 1) ZombieState []
       [Release; NotifyAll; DecLive; DecActive; Acquire]).
Proof. reflexivity. Qed.

(** A thread that asks for the exclusive state while thread 3 holds it
    goes idle, waits, becomes active again and then takes it. *)
Example enter_Exclusive_contended :
  events (call_enter 2 7 ExclusiveState (mkMachine (Some 3%nat) 2 2) ActiveState
            [mkMachine None 1 2]) =
  [Acquire; Acquire; DecActive; NotifyAll; Release;
   Acquire; Wait; IncActive; Release; SetExclusive; Wait].
Proof. reflexivity. Qed.

(** C8. In [enter], [liveCount] is incremented only on the transition from
    [NoState] to [ActiveState]: whatever the machine, the fuel and the
    wake-ups, and whether the call returns, aborts or blocks, an increment
    of [liveCount] among the events of the call means that the thread was
    in [NoState] and asked for [ActiveState]. *)
Theorem enter_increments_liveCount_only_from_NoState
    fuel t s m st ws :
  In IncLive (events (call_enter fuel t s m st ws)) ->
  st = NoState /\ s = ActiveState.
Proof.
  intros H.
  destruct (State_eqb st NoState) eqn:Est.
  - apply State_eqb_eq in Est. subst st. split; [reflexivity |].
    destruct (State_eqb s ActiveState) eqn:Es.
    + now apply State_eqb_eq in Es.
    + exfalso. revert H. apply enter_from_NoState.
      intros ->. discriminate.
  - exfalso. unfold events in H. rewrite <- in_rev in H.
    assert (Hc : counted (mkWorld m st ws [])).
    { split; simpl; [intros -> ; discriminate | tauto]. }
    pose proof (keeps_enter fuel t s _ Hc) as K.
    unfold call_enter in H.
    destruct (enter fuel t s _); simpl in H; destruct K as [_ K]; auto.
Qed.

Lemma enter_increments_liveCount_only_from_NoState_witness :
  In IncLive
    (events (call_enter 0 1 ActiveState (mkMachine None 0 0) NoState [])) /\
  (NoState = NoState /\ ActiveState = ActiveState).
Proof.
  split.
  - vm_compute. tauto.
  - apply (enter_increments_liveCount_only_from_NoState
             0 1 ActiveState (mkMachine None 0 0) NoState []).
    vm_compute. tauto.
Defined.

End CoordinatorProofs.

(** ** Protectors and the root scanner *)

Lemma protected_from_unfold this :
  protected_from this = Protector_p this :: protected (Protector_next this).
Proof. destruct this as [p [q |]]; reflexivity. Qed.

(** The order of the visits: the four fields, the rounds of the stack loop,
    the protector list. *)
Lemma iterate_visits t :
  snd (iterate t) =
  [ThreadSlot; FrameSlot; CodeSlot; ExceptionSlot]
    ++ visit_stack t ++ protected (protector t).
Proof. reflexivity. Qed.

Lemma iterate_resets_heapIndex t : heapIndex (fst (iterate t)) = 0.
Proof. reflexivity. Qed.

(** Every round of the stack loop visits the same address, [t->stack + t->sp],
    which is the first slot that is not live. *)
Lemma visit_stack_only_sp t s : In s (visit_stack t) -> s = StackSlot (sp t).
Proof.
  unfold visit_stack. rewrite in_map_iff. intros [i [H _]]. now symmetry.
Qed.

Lemma visit_stack_length t : length (visit_stack t) = Z.to_nat (sp t).
Proof. unfold visit_stack. now rewrite length_map, length_seq. Qed.

(** C1 (the code departs from it). With two live slots, [t->stack + 0] and
    [t->stack + 1], the scanner passes [t->stack + 2] to the visitor, twice,
    and neither of the live slots. *)
Theorem iterate_misses_live_stack_slots :
  snd (iterate two_on_stack) =
    [ThreadSlot; FrameSlot; CodeSlot; ExceptionSlot; StackSlot 2; StackSlot 2] /\
  filter is_StackSlot (snd (iterate two_on_stack)) <> [StackSlot 0; StackSlot 1] /\
  ~ In (StackSlot 0) (snd (iterate two_on_stack)) /\
  ~ In (StackSlot 1) (snd (iterate two_on_stack)).
Proof.
  repeat split.
  - discriminate.
  - simpl. intuition discriminate.
  - simpl. intuition discriminate.
Qed.

Lemma act_linked base a t live t' live' :
  linked base live (protector t) ->
  act a (t, live) = Some (t', live') ->
  linked base live' (protector t').
Proof.
  intros L H. destruct a as [p | | f]; simpl in H.
  - inversion H; subst; clear H. simpl. split; [reflexivity | exact L].
  - destruct live as [| this live0]; [discriminate |].
    inversion H; subst; clear H. simpl. apply L.
  - inversion H; subst; clear H. exact L.
Qed.

Lemma acts_linked base l : forall t live t' live',
  linked base live (protector t) ->
  acts l (t, live) = Some (t', live') ->
  linked base live' (protector t').
Proof.
  induction l as [| a l IH]; intros t live t' live' L H; cbn [acts] in H.
  - inversion H; subst. exact L.
  - destruct (act a (t, live)) as [[t1 live1] |] eqn:E; [| discriminate H].
    eapply IH; [| exact H]. eapply act_linked; eauto.
Qed.

Lemma linked_protected base live : forall head this,
  linked base live head -> In this live ->
  In (Protector_p this) (protected head).
Proof.
  induction live as [| x live IH]; intros head this L Hin; [inversion Hin |].
  destruct L as [-> L]. simpl. rewrite protected_from_unfold.
  destruct Hin as [-> | Hin]; [now left | right]. now apply IH.
Qed.

(** C10. Protector registration is LIFO and balanced.  The constructor puts
    its link, holding the protected slot, at the head of the thread's list
    and remembers the old head; the destructor puts the remembered head back,
    whatever the thread looks like by then.  Hence after any run of scope
    openings, scope closings and other code in which every opened scope has
    been closed, [t->protector] is what it was at the start; and at every
    point of such a run the slot of each scope that is still open is among
    the addresses the root scanner visits. *)
Theorem Protector_scopes_balanced l t t' live :
  acts l (t, []) = Some (t', live) ->
  (forall p u,
     protector (snd (Protector_new p u)) = Some (fst (Protector_new p u)) /\
     protected (protector (snd (Protector_new p u))) = p :: protected (protector u) /\
     forall u', protector (Protector_delete (fst (Protector_new p u)) u') = protector u) /\
  (live = [] -> protector t' = protector t) /\
  (forall this, In this live -> In (Protector_p this) (snd (iterate t'))).
Proof.
  intros H.
  assert (L : linked (protector t) live (protector t')).
  { eapply acts_linked; [| exact H]. reflexivity. }
  split; [| split].
  - intros p u. repeat split.
  - intros ->. exact L.
  - intros this Hin. rewrite iterate_visits.
    apply in_or_app. right. apply in_or_app. right.
    eapply linked_protected; eauto.
Qed.

Lemma Protector_scopes_balanced_witness :
  acts sample_run (one_on_stack, []) = Some (sample_end, [sample_open]) /\
  In (LocalSlot "spec") (snd (iterate sample_end)).
Proof.
  split; [reflexivity |].
  destruct (Protector_scopes_balanced sample_run one_on_stack sample_end
              [sample_open] eq_refl) as [_ [_ H]].
  exact (H sample_open (or_introl eq_refl)).
Defined.

(** ** The interpreter on sample programs *)

(** [if_icmplt] with 5 below 7, offset bytes 0 and 9: the branch is taken, to
    [(ip - 1) + 9] with [ip] past the offset bytes. *)
Example if_icmplt_less :
  step no_classes (running [161; 0; 9] [5; 7]) =
  Some (Loop, set_sp 0 (set_ip 11 (running [161; 0; 9] [5; 7]))).
Proof. reflexivity. Qed.

Example if_icmple_less :
  step no_classes (running [164; 0; 9] [5; 7]) =
  Some (Loop, set_sp 0 (set_ip 11 (running [164; 0; 9] [5; 7]))).
Proof. reflexivity. Qed.

(** C4 (the code departs from it). [if_icmple] with the boxed int 7 twice on
    the stack, offset bytes 0 and 9: both operands are popped and execution
    falls through to the next opcode, at [ip = 3], although 7 <= 7; the
    branch would have gone to 11, as it does for 5 and 7. *)
Theorem if_icmple_equal_falls_through :
  step no_classes (running [164; 0; 9] [7; 7]) =
    Some (Loop, set_sp 0 (set_ip 3 (running [164; 0; 9] [7; 7]))) /\
  intValue 7 (running [164; 0; 9] [7; 7]) = Some 7 /\
  (7 <=? 7) = true.
Proof. repeat split. Qed.

(** C5 (the code departs from it). [arraylength] with [new int[3]] on the
    stack pops the array, pushes a boxed 3, and then reaches [abort(t)]
    instead of going back to the dispatch loop. *)
Theorem arraylength_aborts :
  step no_classes (running [190] [4]) =
    Some (Abort,
          set_store (program [190] ++ [Cell.Int 3])
            (set_stack [8; 0; 0; 0; 0] (set_ip 1 (running [190] [4])))).
Proof. reflexivity. Qed.

(** C6 (the code departs from it). [makeTrace] writes the live [ip] into the
    current frame and returns a list with one (method, ip) entry per frame,
    but it walks the chain with [t->frame] itself: when it returns,
    [t->frame] is null and no longer the frame it was. *)
Theorem makeTrace_loses_frame :
  makeTrace two_frames =
    Some (8,
          set_frame 0
            (set_store
               [ Cell.Code 0 0 4 2 [];
                 Cell.Method 0 0 0 0 1;
                 Cell.Frame 2 0 9 0 [0; 0];
                 Cell.Code 0 0 4 2 [];
                 Cell.Method 0 0 0 0 4;
                 Cell.Frame 5 3 7 2 [0; 0];
                 Cell.Trace 5 7 0;
                 Cell.Trace 2 9 7 ]
               two_frames)) /\
  frame two_frames = 6.
Proof. split; reflexivity. Qed.

(** C3 (the code departs from it). On the invocation of a method with two
    parameters, [ip] is written back into the caller's frame, a frame with
    stack base [sp - 2] is made and [ip] is set to 0, but [memcpy] is given
    the parameter count as its size in bytes: two bytes of the first
    parameter slot are copied, and the second parameter, the reference 7,
    never reaches [locals[1]], which keeps what the memory held.  So it is
    for pointers of 8 and of 4 bytes. *)
Theorem invoke_copies_bytes_not_slots :
  invoke 8 zeroed 2 calling =
    Some (Loop,
          mkThread Coordinator.ActiveState 0 8 2 0 0 0 0 [5; 7; 0; 0; 0; 0] None
            [ Cell.Code 0 0 4 2 [];
              Cell.Method 0 0 0 2 1;
              Cell.Frame 2 0 4 0 [0; 0];
              Cell.IntArray [0; 0; 0];
              Cell.Int 5;
              Cell.Int 0;
              Cell.Int 7;
              Cell.Frame 2 3 0 0 [5; 0] ]) /\
  invoke 4 zeroed 2 calling = invoke 8 zeroed 2 calling /\
  firstn 2 (skipn (Z.to_nat (sp calling - 2)) (stack calling)) = [5; 7].
Proof. repeat split. Qed.

(** ** The store and the monad *)

Arguments Word.u32 z : simpl never.
Arguments Word.s32 z : simpl never.

Lemma bind_Some {A B} (m : M A) (k : A -> M B) t a t' :
  m t = Some (a, t') -> bind m k t = k a t'.
Proof. intros H. unfold bind. now rewrite H. Qed.

Lemma lookup_pos h o : 0 < o -> lookup h o = h !! Z.to_nat (o - 1).
Proof.
  intros H. unfold lookup. destruct (o <=? 0) eqn:E; [| reflexivity].
  apply Z.leb_le in E. lia.
Qed.

Lemma lookup_Some_pos h o c : lookup h o = Some c -> 0 < o.
Proof.
  unfold lookup. destruct (o <=? 0) eqn:E; [discriminate |].
  intros _. apply Z.leb_gt in E. lia.
Qed.

Lemma lookup_Some_bound h o c :
  lookup h o = Some c -> 0 < o <= Z.of_nat (length h).
Proof.
  intros H. pose proof (lookup_Some_pos _ _ _ H) as P.
  rewrite lookup_pos in H by exact P. apply lookup_lt_Some in H. lia.
Qed.

Lemma lookup_app h x o c : lookup h o = Some c -> lookup (h ++ x) o = Some c.
Proof.
  intros H. pose proof (lookup_Some_pos _ _ _ H) as P.
  rewrite lookup_pos in * by exact P. now apply lookup_app_l_Some.
Qed.

Lemma lookup_fresh h c x : lookup (h ++ c :: x) (fresh h) = Some c.
Proof.
  unfold fresh. rewrite lookup_pos by lia.
  replace (Z.to_nat (Z.of_nat (length h) + 1 - 1)) with (length h + 0)%nat by lia.
  now rewrite lookup_app_r, Nat.add_comm, Nat.add_sub by lia.
Qed.

Lemma lookup_update_eq h o c c0 :
  lookup h o = Some c0 -> lookup (update h o c) o = Some c.
Proof.
  intros H. pose proof (lookup_Some_pos _ _ _ H) as P.
  rewrite lookup_pos in * by exact P. unfold update.
  apply list_lookup_insert_eq. now apply lookup_lt_Some in H.
Qed.

Lemma lookup_update_ne h o o' c :
  0 < o -> 0 < o' -> o <> o' -> lookup (update h o c) o' = lookup h o'.
Proof.
  intros H H' Hne. rewrite !lookup_pos by exact H'. unfold update.
  apply list_lookup_insert_ne. lia.
Qed.

Lemma length_update h o c : length (update h o c) = length h.
Proof. unfold update. apply length_insert. Qed.

(** ** Chains of frames *)

Lemma chain_det h : forall fs1 fs2 f, chain h f fs1 -> chain h f fs2 -> fs1 = fs2.
Proof.
  induction fs1 as [| [[a m] i] fs1 IH]; intros [| [[a' m'] i'] fs2] f H1 H2;
    simpl in *.
  - reflexivity.
  - destruct H2 as [-> (n & b & l & L & _)]. subst. discriminate L.
  - destruct H1 as [-> (n & b & l & L & _)]. subst. discriminate L.
  - destruct H1 as [-> (n & b & l & L & C)].
    destruct H2 as [<- (n' & b' & l' & L' & C')].
    rewrite L in L'. inversion L'; subst. f_equal. eapply IH; eauto.
Qed.

Lemma chain_from h : forall fs f x,
  chain h f fs -> In x (addresses fs) ->
  exists suffix, chain h x suffix /\ (length suffix <= length fs)%nat.
Proof.
  induction fs as [| [[a m] i] fs IH]; intros f x C Hin; [inversion Hin |].
  simpl in Hin. destruct Hin as [<- | Hin].
  - exists ((a, m, i) :: fs). split; [| lia].
    simpl in *. destruct C as [_ C]. split; [reflexivity | exact C].
  - simpl in C. destruct C as [_ (n & b & l & _ & C)].
    destruct (IH n x C Hin) as (suffix & Cs & Hl).
    exists suffix. split; [exact Cs | simpl; lia].
Qed.

Lemma chain_NoDup h : forall fs f, chain h f fs -> List.NoDup (addresses fs).
Proof.
  induction fs as [| [[a m] i] fs IH]; intros f C; simpl.
  - constructor.
  - pose proof C as C0. simpl in C. destruct C as [-> (n & b & l & L & C)].
    constructor; [| eapply IH; eauto].
    intros Hin. destruct (chain_from _ _ _ _ C Hin) as (suffix & Cs & Hl).
    pose proof (chain_det _ _ _ _ Cs C0) as ->. simpl in Hl. lia.
Qed.

Lemma chain_bound h : forall fs f a,
  chain h f fs -> In a (addresses fs) -> 0 < a <= Z.of_nat (length h).
Proof.
  induction fs as [| [[a' m] i] fs IH]; intros f a C Hin; [inversion Hin |].
  simpl in C. destruct C as [-> (n & b & l & L & C)].
  simpl in Hin. destruct Hin as [<- | Hin].
  - eapply lookup_Some_bound; eauto.
  - eapply IH; eauto.
Qed.

(** A chain that ends is no longer than the store. *)
Lemma chain_length h fs f : chain h f fs -> (length fs <= length h)%nat.
Proof.
  intros C.
  assert (L : (length (addresses fs) <= length (map Z.of_nat (seq 1 (length h))))%nat).
  { apply List.NoDup_incl_length; [eapply chain_NoDup; eauto |].
    intros a Hin. pose proof (chain_bound _ _ _ _ C Hin) as B.
    apply in_map_iff. exists (Z.to_nat a). split; [lia |].
    apply in_seq. lia. }
  unfold addresses in L. now rewrite !length_map, length_seq in L.
Qed.

Lemma chain_app h x : forall fs f, chain h f fs -> chain (h ++ x) f fs.
Proof.
  induction fs as [| [[a m] i] fs IH]; intros f C; simpl in *; [exact C |].
  destruct C as [-> (n & b & l & L & C)]. split; [reflexivity |].
  exists n, b, l. split; [now apply lookup_app | now apply IH].
Qed.

Lemma chain_update h a c : forall fs f,
  chain h f fs -> 0 < a -> ~ In a (addresses fs) -> chain (update h a c) f fs.
Proof.
  induction fs as [| [[a' m] i] fs IH]; intros f C Ha Hn; simpl in *; [exact C |].
  destruct C as [-> (n & b & l & L & C)]. split; [reflexivity |].
  exists n, b, l. split.
  - rewrite lookup_update_ne; [exact L | exact Ha | | intuition].
    eapply lookup_Some_bound; eauto.
  - apply IH; intuition.
Qed.

(** ** [makeTrace] *)

Lemma fresh_app h x : fresh (h ++ x) = fresh h + Z.of_nat (length x).
Proof. unfold fresh. rewrite length_app. lia. Qed.

Lemma thread_eta t :
  t = mkThread (state t) (thread t) (frame t) (code t) (exception t) (ip t)
        (sp t) (heapIndex t) (stack t) (protector t) (store t).
Proof. now destruct t. Qed.

Lemma makeTrace_loop_eq : forall fs fuel tr t,
  chain (store t) (frame t) fs ->
  (length fs <= fuel)%nat ->
  makeTrace_loop fuel tr t =
  Some (last_trace tr (fresh (store t)) fs,
        set_frame 0 (set_store (store t ++ trace_cells tr (fresh (store t)) fs) t)).
Proof.
  induction fs as [| [[a m] i] fs IH]; intros fuel tr t C Hf.
  - simpl in C. destruct fuel; simpl; unfold bind, get; rewrite C; simpl;
      unfold ret, set_frame, set_store; simpl; rewrite app_nil_r, <- C;
      now rewrite <- thread_eta.
  - simpl in C. destruct C as [Ea (n & b & l & L & C)].
    destruct fuel as [| fuel]; [simpl in Hf; lia |].
    pose proof (lookup_Some_pos _ _ _ L) as Pa.
    cbn [makeTrace_loop]. unfold bind at 1, get at 1. rewrite Ea.
    destruct (a =? 0) eqn:E0; [apply Z.eqb_eq in E0; lia |].
    unfold bind at 1, read at 1, frameMethod, cell_at. rewrite L.
    unfold bind at 1, read at 1, frameIp, cell_at. rewrite L.
    unfold bind at 1, alloc at 1.
    unfold bind at 1, read at 1, frameNext, cell_at. cbn [store set_store].
    rewrite (lookup_app _ _ _ _ L).
    unfold bind at 1, modify at 1.
    rewrite IH; cycle 1.
    + cbn. apply chain_app. exact C.
    + simpl in Hf. lia.
    + cbn [store set_store set_frame frame]. f_equal. f_equal.
      * unfold last_trace. destruct fs; [simpl; lia |].
        rewrite fresh_app. simpl length. lia.
      * unfold set_frame, set_store. cbn. f_equal.
        rewrite <- app_assoc. simpl. rewrite fresh_app. reflexivity.
Qed.

Lemma length_trace_cells : forall fs tr next,
  length (trace_cells tr next fs) = length fs.
Proof.
  induction fs as [| [[a m] i] fs IH]; intros tr next; simpl; [reflexivity |].
  now rewrite IH.
Qed.

Lemma fresh_traced t m n b l fs :
  fresh (traced t m n b l fs) = fresh (store t) + Z.of_nat (length fs) + 1.
Proof.
  unfold traced. rewrite fresh_app, length_trace_cells.
  unfold fresh. rewrite length_update. simpl length. lia.
Qed.

Lemma makeTrace_eq t m i fs n b l :
  chain (store t) (frame t) ((frame t, m, i) :: fs) ->
  lookup (store t) (frame t) = Some (Cell.Frame m n i b l) ->
  makeTrace t =
  Some (fresh (store t) + Z.of_nat (length fs),
        set_frame 0 (set_store (traced t m n b l fs) t)).
Proof.
  intros C L.
  pose proof (chain_NoDup _ _ _ C) as ND. simpl in ND.
  apply List.NoDup_cons_iff in ND. destruct ND as [Hn _].
  pose proof (lookup_Some_pos _ _ _ L) as Pa.
  assert (C' : chain (update (store t) (frame t) (Cell.Frame m n (ip t) b l))
                 (frame t) ((frame t, m, ip t) :: fs)).
  { simpl. split; [reflexivity |]. exists n, b, l. split.
    - eapply lookup_update_eq; eauto.
    - simpl in C. destruct C as [_ (n' & b' & l' & L' & C)].
      rewrite L in L'. inversion L'; subst.
      apply chain_update; assumption. }
  pose proof (chain_length _ _ _ C') as Hlen.
  unfold makeTrace, protect. cbn [Protector_new].
  unfold bind at 1, get at 1. unfold bind at 1, get at 1.
  unfold bind at 1, set_frameIp at 1, cell_at. cbn [store set_protector frame ip].
  rewrite L. unfold write. cbn [store set_protector]. rewrite L.
  unfold bind at 1, get at 1. cbn [store set_store].
  rewrite (makeTrace_loop_eq ((frame t, m, ip t) :: fs)); [| exact C' | exact Hlen].
  cbn [store set_store]. f_equal. f_equal.
  - unfold last_trace, fresh. rewrite length_update. simpl length. lia.
  - unfold traced, fresh. rewrite length_update. reflexivity.
Qed.

Lemma makeString_eq text t :
  makeString text t =
  Some (fresh (store t) + 1,
        set_store
          (store t ++ [Cell.ByteArray (c_bytes text);
                       Cell.String (fresh (store t)) 0
                         (Z.of_nat (length (c_bytes text))) 0]) t).
Proof.
  unfold makeString, bind, alloc, read, byteArrayLength, byteArrayBody, cell_at.
  cbn [store set_store]. rewrite lookup_fresh. cbn [store set_store].
  f_equal. f_equal.
  - rewrite fresh_app. simpl. lia.
  - unfold set_store. cbn. f_equal. now rewrite <- app_assoc.
Qed.

Lemma makeThrown_eq x message t m i fs n b l :
  chain (store t) (frame t) ((frame t, m, i) :: fs) ->
  lookup (store t) (frame t) = Some (Cell.Frame m n i b l) ->
  makeThrown x message t =
  Some (fresh (store t) + Z.of_nat (length fs) + 1,
        set_frame 0
          (set_store
             (traced t m n b l fs
                ++ [Cell.Thrown x message (fresh (store t) + Z.of_nat (length fs))])
             t)).
Proof.
  intros C L. unfold makeThrown, protect. cbn [Protector_new].
  unfold bind at 1. erewrite makeTrace_eq; [| exact C | exact L].
  unfold alloc. cbn [store set_store set_frame set_protector].
  rewrite fresh_traced. reflexivity.
Qed.

Lemma makeNullPointerException_eq t m i fs n b l :
  chain (store t) (frame t) ((frame t, m, i) :: fs) ->
  lookup (store t) (frame t) = Some (Cell.Frame m n i b l) ->
  makeNullPointerException t =
  Some (fresh (store t) + Z.of_nat (length fs) + 1,
        set_frame 0
          (set_store
             (traced t m n b l fs
                ++ [Cell.Thrown NullPointerException 0
                      (fresh (store t) + Z.of_nat (length fs))])
             t)).
Proof.
  intros C L. unfold makeNullPointerException.
  unfold bind at 1. erewrite makeTrace_eq; [| exact C | exact L].
  unfold alloc. cbn [store set_store set_frame set_protector].
  rewrite fresh_traced. reflexivity.
Qed.

(** ** Array accesses out of range *)

Lemma lookup_fresh_next h c1 c2 x :
  lookup (h ++ c1 :: c2 :: x) (fresh h + 1) = Some c2.
Proof.
  replace (h ++ c1 :: c2 :: x) with ((h ++ [c1]) ++ c2 :: x)
    by now rewrite <- app_assoc.
  replace (fresh h + 1) with (fresh (h ++ [c1])) by (rewrite fresh_app; simpl; lia).
  apply lookup_fresh.
Qed.

(** The records that were there before [makeTrace], the current frame
    apart, are there afterwards. *)
Lemma lookup_traced_old t m n b l fs x o c :
  lookup (store t) o = Some c -> o <> frame t -> 0 < frame t ->
  lookup (traced t m n b l fs ++ x) o = Some c.
Proof.
  intros L Hne Hf. apply lookup_app. unfold traced. apply lookup_app.
  rewrite lookup_update_ne; [exact L | exact Hf | | congruence].
  eapply lookup_Some_pos; eauto.
Qed.

(** The end of the out-of-range branch of every element load and store. *)
Lemma out_of_range_thrown text t m i0 fs n b l :
  chain (store t) (frame t) ((frame t, m, i0) :: fs) ->
  lookup (store t) (frame t) = Some (Cell.Frame m n i0 b l) ->
  exists t',
    (message <- makeString text ;;
     e <- makeArrayIndexOutOfBoundsException message ;;
     throw e) t = Some (Throw, t') /\
    thrown (exception t') t' =
      Some (ArrayIndexOutOfBoundsException, Some (c_bytes text)).
Proof.
  intros C L.
  pose proof (lookup_Some_bound _ _ _ L) as Bf.
  unfold bind at 1. rewrite makeString_eq.
  set (h1 := store t ++ _).
  unfold bind at 1, makeArrayIndexOutOfBoundsException.
  erewrite makeThrown_eq with (m := m) (i := i0) (fs := fs) (n := n) (b := b) (l := l);
    cycle 1.
  { cbn [store set_store frame]. apply chain_app. exact C. }
  { cbn [store set_store frame]. apply lookup_app. exact L. }
  unfold throw, bind, modify, ret. eexists. split; [reflexivity |].
  cbn [exception set_exception store set_store frame set_frame ip].
  unfold thrown, byteArrayBody, cell_at.
  cbn [store set_exception set_frame set_store].
  replace (fresh h1 + Z.of_nat (length fs) + 1)
    with (fresh (traced (set_store h1 t) m n b l fs))
    by (rewrite fresh_traced; reflexivity).
  rewrite lookup_fresh.
  destruct (fresh (store t) + 1 =? 0) eqn:E;
    [apply Z.eqb_eq in E; unfold fresh in E; lia |].
  erewrite lookup_traced_old; cycle 1.
  { cbn [store set_store]. apply lookup_fresh_next. }
  { cbn [frame set_store]. unfold fresh. lia. }
  { cbn [frame set_store]. lia. }
  cbv beta iota.
  erewrite lookup_traced_old; cycle 1.
  { cbn [store set_store]. apply lookup_fresh. }
  { cbn [frame set_store]. unfold fresh. lia. }
  { cbn [frame set_store]. lia. }
  simpl skipn. rewrite Nat2Z.id, firstn_all. reflexivity.
Qed.

(** The end of the null branch. *)
Lemma null_thrown t m i0 fs n b l :
  chain (store t) (frame t) ((frame t, m, i0) :: fs) ->
  lookup (store t) (frame t) = Some (Cell.Frame m n i0 b l) ->
  exists t',
    (e <- makeNullPointerException ;; throw e) t = Some (Throw, t') /\
    thrown (exception t') t' = Some (NullPointerException, None).
Proof.
  intros C L. unfold bind at 1.
  erewrite makeNullPointerException_eq; [| exact C | exact L].
  unfold throw, bind, modify, ret. eexists. split; [reflexivity |].
  cbn [exception set_exception]. unfold thrown, cell_at.
  cbn [store set_exception set_frame set_store].
  replace (fresh (store t) + Z.of_nat (length fs) + 1)
    with (fresh (traced t m n b l fs))
    by (rewrite fresh_traced; reflexivity).
  rewrite lookup_fresh. reflexivity.
Qed.

Lemma fetch_eq t body b :
  codeBody (code t) t = Some body -> nth_Z body (ip t) = Some b ->
  fetch t = Some (b, set_ip (Word.u32 (ip t + 1)) t).
Proof.
  intros H1 H2. unfold fetch, bind, get, read, modify, ret.
  rewrite H1, H2. reflexivity.
Qed.

Lemma pop_eq t o :
  1 <= sp t < 2 ^ 32 -> nth_Z (stack t) (sp t - 1) = Some o ->
  pop t = Some (o, set_sp (sp t - 1) t).
Proof.
  intros Hs H. unfold pop. rewrite u32_small by lia. now rewrite H.
Qed.

Lemma read_eq {A} (f : Thread -> option A) t a :
  f t = Some a -> read f t = Some (a, t).
Proof. intros H. unfold read. now rewrite H. Qed.

Lemma array_load_out_of_range k t array index i len m i0 fs n b l :
  2 <= sp t < 2 ^ 32 ->
  nth_Z (stack t) (sp t - 2) = Some array ->
  nth_Z (stack t) (sp t - 1) = Some index ->
  array <> 0 ->
  intValue index t = Some i ->
  arrayLength k array t = Some len ->
  (0 <=? i) && (Word.u32 i <? len) = false ->
  chain (store t) (frame t) ((frame t, m, i0) :: fs) ->
  lookup (store t) (frame t) = Some (Cell.Frame m n i0 b l) ->
  exists t',
    array_load k t = Some (Throw, t') /\
    thrown (exception t') t' =
      Some (ArrayIndexOutOfBoundsException, Some (c_bytes (not_in_text i len))).
Proof.
  intros Hs Ha Hi Hn Hv Hl Hr C L. unfold array_load.
  erewrite bind_Some by (apply pop_eq; [lia | exact Hi]).
  erewrite bind_Some
    by (apply pop_eq; cbn [sp set_sp stack];
        [lia | replace (sp t - 1 - 1) with (sp t - 2) by lia; exact Ha]).
  destruct (array =? 0) eqn:E; [apply Z.eqb_eq in E; congruence |].
  cbn [negb].
  erewrite bind_Some by (apply read_eq; exact Hv).
  erewrite bind_Some by (apply read_eq; exact Hl).
  rewrite Hr.
  apply out_of_range_thrown with (m := m) (i0 := i0) (fs := fs) (n := n) (b := b) (l := l).
  - exact C.
  - exact L.
Qed.

Lemma array_load_null k t index m i0 fs n b l :
  2 <= sp t < 2 ^ 32 ->
  nth_Z (stack t) (sp t - 2) = Some 0 ->
  nth_Z (stack t) (sp t - 1) = Some index ->
  chain (store t) (frame t) ((frame t, m, i0) :: fs) ->
  lookup (store t) (frame t) = Some (Cell.Frame m n i0 b l) ->
  exists t',
    array_load k t = Some (Throw, t') /\
    thrown (exception t') t' = Some (NullPointerException, None).
Proof.
  intros Hs Ha Hi C L. unfold array_load.
  erewrite bind_Some by (apply pop_eq; [lia | exact Hi]).
  erewrite bind_Some
    by (apply pop_eq; cbn [sp set_sp stack];
        [lia | replace (sp t - 1 - 1) with (sp t - 2) by lia; exact Ha]).
  cbn [Z.eqb negb].
  apply null_thrown with (m := m) (i0 := i0) (fs := fs) (n := n) (b := b) (l := l).
  - exact C.
  - exact L.
Qed.

Lemma array_store_out_of_range k t array index value i len m i0 fs n b l :
  3 <= sp t < 2 ^ 32 ->
  nth_Z (stack t) (sp t - 3) = Some array ->
  nth_Z (stack t) (sp t - 2) = Some index ->
  nth_Z (stack t) (sp t - 1) = Some value ->
  array <> 0 ->
  intValue index t = Some i ->
  arrayLength k array t = Some len ->
  (0 <=? i) && (Word.u32 i <? len) = false ->
  chain (store t) (frame t) ((frame t, m, i0) :: fs) ->
  lookup (store t) (frame t) = Some (Cell.Frame m n i0 b l) ->
  exists t',
    array_store k t = Some (Throw, t') /\
    thrown (exception t') t' =
      Some (ArrayIndexOutOfBoundsException, Some (c_bytes (not_in_text i len))).
Proof.
  intros Hs Ha Hi Hx Hn Hv Hl Hr C L. unfold array_store.
  erewrite bind_Some by (apply pop_eq; [lia | exact Hx]).
  erewrite bind_Some
    by (apply pop_eq; cbn [sp set_sp stack];
        [lia | replace (sp t - 1 - 1) with (sp t - 2) by lia; exact Hi]).
  erewrite bind_Some
    by (apply pop_eq; cbn [sp set_sp stack];
        [lia | replace (sp t - 1 - 1 - 1) with (sp t - 3) by lia; exact Ha]).
  erewrite bind_Some by (apply read_eq; exact Hv).
  destruct (array =? 0) eqn:E; [apply Z.eqb_eq in E; congruence |].
  cbn [negb].
  erewrite bind_Some by (apply read_eq; exact Hl).
  rewrite Hr.
  apply out_of_range_thrown with (m := m) (i0 := i0) (fs := fs) (n := n) (b := b) (l := l).
  - exact C.
  - exact L.
Qed.

Lemma array_store_null k t index value i m i0 fs n b l :
  3 <= sp t < 2 ^ 32 ->
  nth_Z (stack t) (sp t - 3) = Some 0 ->
  nth_Z (stack t) (sp t - 2) = Some index ->
  nth_Z (stack t) (sp t - 1) = Some value ->
  intValue index t = Some i ->
  chain (store t) (frame t) ((frame t, m, i0) :: fs) ->
  lookup (store t) (frame t) = Some (Cell.Frame m n i0 b l) ->
  exists t',
    array_store k t = Some (Throw, t') /\
    thrown (exception t') t' = Some (NullPointerException, None).
Proof.
  intros Hs Ha Hi Hx Hv C L. unfold array_store.
  erewrite bind_Some by (apply pop_eq; [lia | exact Hx]).
  erewrite bind_Some
    by (apply pop_eq; cbn [sp set_sp stack];
        [lia | replace (sp t - 1 - 1) with (sp t - 2) by lia; exact Hi]).
  erewrite bind_Some
    by (apply pop_eq; cbn [sp set_sp stack];
        [lia | replace (sp t - 1 - 1 - 1) with (sp t - 3) by lia; exact Ha]).
  erewrite bind_Some by (apply read_eq; exact Hv).
  cbn [Z.eqb negb].
  apply null_thrown with (m := m) (i0 := i0) (fs := fs) (n := n) (b := b) (l := l).
  - exact C.
  - exact L.
Qed.

(** *** The text of the message *)

Lemma until_nul_id l : Forall (fun c => c <> 0) l -> until_nul l = l.
Proof.
  induction 1 as [| c l Hc _ IH]; simpl; [reflexivity |].
  destruct (c =? 0) eqn:E; [apply Z.eqb_eq in E; congruence |].
  now rewrite IH.
Qed.

Lemma strip_zeros_spec l :
  (Forall (fun c => c <> 0) l -> Forall (fun c => c <> 0) (strip_zeros l)) /\
  (length (strip_zeros l) <= length l)%nat.
Proof.
  induction l as [| c l IH]; simpl; [split; auto |].
  destruct l as [| c' l]; [split; auto |].
  destruct (c =? 48).
  - destruct IH as [IH1 IH2]. split; [| simpl in *; lia].
    intros H. apply IH1. now inversion H.
  - split; auto.
Qed.

Lemma decimal_digits_spec n :
  Forall (fun c => c <> 0) (decimal_digits n) /\ length (decimal_digits n) = 10%nat.
Proof.
  split; [| reflexivity]. unfold decimal_digits.
  apply Forall_map. apply Forall_forall. intros k _. simpl.
  generalize (n / 10 ^ k). intros q.
  pose proof (Z.mod_pos_bound q 10 eq_refl). lia.
Qed.

Lemma format_d_spec z :
  Forall (fun c => c <> 0) (format_d z) /\ (length (format_d z) <= 11)%nat.
Proof.
  unfold format_d. cbv zeta.
  destruct (Word.s32 z <? 0).
  - destruct (decimal_digits_spec (- Word.s32 z)) as [F L].
    destruct (strip_zeros_spec (decimal_digits (- Word.s32 z))) as [F' L'].
    rewrite L in L'.
    split; [constructor; [discriminate | auto] | cbn [length]; lia].
  - destruct (decimal_digits_spec (Word.s32 z)) as [F L].
    destruct (strip_zeros_spec (decimal_digits (Word.s32 z))) as [F' L'].
    rewrite L in L'.
    split; [auto | lia].
Qed.

(** The message fits the buffer of [makeString] and holds no NUL: the byte
    array is the text followed by the closing NUL. *)
Lemma c_bytes_not_in_text i len :
  c_bytes (not_in_text i len) = not_in_text i len ++ [0].
Proof.
  unfold c_bytes. f_equal.
  destruct (format_d_spec i) as [Fi Li], (format_d_spec len) as [Fl Ll].
  assert (F1 : Forall (fun c => c <> 0) (chars " not in [0,")).
  { vm_compute. repeat constructor; discriminate. }
  assert (F2 : Forall (fun c => c <> 0) (chars "]")).
  { vm_compute. repeat constructor; discriminate. }
  rewrite firstn_all2.
  - apply until_nul_id. unfold not_in_text.
    apply List.Forall_app. split; [exact Fi |].
    apply List.Forall_app. split; [exact F1 |].
    apply List.Forall_app. split; [exact Fl | exact F2].
  - unfold not_in_text. rewrite !length_app.
    change (length (chars " not in [0,")) with 11%nat.
    change (length (chars "]")) with 1%nat. lia.
Qed.

(** ** The unwinding *)

Lemma cell_at_same t t' o : store t = store t' -> cell_at o t = cell_at o t'.
Proof. intros H. unfold cell_at. now rewrite H. Qed.

Section Same.

Variables t t' : Thread.
Hypothesis H : store t = store t'.

Ltac by_cells := unfold cell_at; now rewrite H.

Lemma typeOf_same o : typeOf o t = typeOf o t'.
Proof. unfold typeOf. by_cells. Qed.

Lemma objectClass_same o : objectClass o t = objectClass o t'.
Proof. unfold objectClass. by_cells. Qed.

Lemma interfaceId_same o : interfaceId o t = interfaceId o t'.
Proof. unfold interfaceId. by_cells. Qed.

Lemma classId_same o : classId o t = classId o t'.
Proof. unfold classId. by_cells. Qed.

Lemma classSuper_same o : classSuper o t = classSuper o t'.
Proof. unfold classSuper. by_cells. Qed.

Lemma classInterfaceTable_same o :
  classInterfaceTable o t = classInterfaceTable o t'.
Proof. unfold classInterfaceTable. by_cells. Qed.

Lemma rawArrayBody_same o : rawArrayBody o t = rawArrayBody o t'.
Proof. unfold rawArrayBody. by_cells. Qed.

Lemma codePool_same o : codePool o t = codePool o t'.
Proof. unfold codePool. by_cells. Qed.

Lemma itable_has_same id : forall l, itable_has id l t = itable_has id l t'.
Proof.
  assert (P : forall l,
             itable_has id l t = itable_has id l t' /\
             forall x, itable_has id (x :: l) t = itable_has id (x :: l) t').
  { induction l as [| y l [IH1 IH2]].
    - split; [reflexivity |]. intros x. simpl. now rewrite interfaceId_same.
    - split; [apply IH2 |]. intros x. cbn [itable_has].
      rewrite interfaceId_same. destruct (interfaceId x t'); [| reflexivity].
      destruct (_ =? id); [reflexivity | exact IH1]. }
  intros l. apply P.
Qed.

Lemma implements_same id :
  forall fuel oc, implements fuel id oc t = implements fuel id oc t'.
Proof.
  induction fuel as [| fuel IH]; intros oc; simpl; [reflexivity |].
  destruct (oc =? 0); [reflexivity |].
  rewrite classInterfaceTable_same.
  destruct (classInterfaceTable oc t') as [itable |]; [| reflexivity]. simpl.
  rewrite rawArrayBody_same.
  destruct (rawArrayBody itable t') as [body |]; [| reflexivity]. simpl.
  rewrite itable_has_same.
  destruct (itable_has id body t') as [[] |]; [reflexivity | | reflexivity].
  simpl. rewrite classSuper_same.
  destruct (classSuper oc t'); [| reflexivity]. simpl. apply IH.
Qed.

Lemma extends_same id :
  forall fuel oc, extends fuel id oc t = extends fuel id oc t'.
Proof.
  induction fuel as [| fuel IH]; intros oc; simpl; [reflexivity |].
  destruct (oc =? 0); [reflexivity |].
  rewrite classId_same.
  destruct (classId oc t'); [| reflexivity]. simpl.
  destruct (_ =? id); [reflexivity |].
  rewrite classSuper_same.
  destruct (classSuper oc t'); [| reflexivity]. simpl. apply IH.
Qed.

Lemma instanceOf_same class_ o : instanceOf class_ o t = instanceOf class_ o t'.
Proof.
  unfold instanceOf. destruct (o =? 0); [reflexivity |].
  rewrite typeOf_same. destruct (typeOf class_ t') as [ty |]; [| reflexivity].
  simpl. rewrite interfaceId_same, classId_same, objectClass_same, H.
  destruct ty; simpl;
    try (destruct (classId class_ t'); [| reflexivity]; simpl;
         destruct (objectClass o t'); [| reflexivity]; simpl;
         apply extends_same).
  destruct (interfaceId class_ t'); [| reflexivity]; simpl.
  destruct (objectClass o t'); [| reflexivity]; simpl.
  apply implements_same.
Qed.

Hypothesis He : exception t = exception t'.

Lemma find_handler_same c :
  forall table, find_handler c table t = find_handler c table t'.
Proof.
  induction table as [| eh table IH]; simpl; [reflexivity |].
  destruct (Word.u16 (exceptionHandlerCatchType eh) =? 0); [reflexivity |].
  rewrite codePool_same. destruct (codePool c t') as [pool |]; [| reflexivity].
  simpl. rewrite rawArrayBody_same.
  destruct (rawArrayBody pool t') as [body |]; [| reflexivity]. simpl.
  destruct (nth_Z body _) as [class_ |]; [| reflexivity]. simpl.
  rewrite instanceOf_same, He.
  destruct (instanceOf class_ (exception t') t') as [[] |]; simpl; auto.
Qed.

End Same.

Lemma find_handler_cons c eh table t :
  find_handler c (eh :: table) t =
  match catches c eh t with
  | Some true => Some (Some eh)
  | Some false => find_handler c table t
  | None => None
  end.
Proof.
  simpl. unfold catches.
  destruct (Word.u16 (exceptionHandlerCatchType eh) =? 0); [reflexivity |].
  destruct (codePool c t) as [pool |]; [| reflexivity]. simpl.
  destruct (rawArrayBody pool t) as [body |]; [| reflexivity]. simpl.
  destruct (nth_Z body _) as [class_ |]; [| reflexivity]. simpl.
  destruct (instanceOf class_ (exception t) t) as [[] |]; reflexivity.
Qed.

(** The scan returns the first row that catches. *)
Lemma find_handler_first c t : forall before eh after,
  Forall (fun x => catches c x t = Some false) before ->
  catches c eh t = Some true ->
  find_handler c (before ++ eh :: after) t = Some (Some eh).
Proof.
  induction before as [| x before IH]; intros eh after F Hc.
  - simpl app. now rewrite find_handler_cons, Hc.
  - inversion F; subst. simpl app. rewrite find_handler_cons.
    replace (catches c x t) with (Some false) by (symmetry; assumption).
    now apply IH.
Qed.

Lemma find_handler_none c t : forall table,
  Forall (fun x => catches c x t = Some false) table ->
  find_handler c table t = Some None.
Proof.
  induction table as [| x table IH]; intros F; [reflexivity |].
  inversion F; subst. rewrite find_handler_cons.
  replace (catches c x t) with (Some false) by (symmetry; assumption).
  now apply IH.
Qed.

Lemma scan_frame_eq f t c table found :
  handlers f t = Some (c, table) ->
  find_handler c table t = Some found ->
  scan_frame f t = Some (found, set_code c t).
Proof.
  unfold handlers, scan_frame. intros Hh Hf.
  destruct (frameMethod f t) as [m |] eqn:Em; [| discriminate]. simpl in Hh.
  destruct (methodCode m t) as [c' |] eqn:Ec; [| discriminate]. simpl in Hh.
  destruct (codeExceptionHandlerTable c' t) as [eht |] eqn:Ee; [| discriminate].
  simpl in Hh.
  erewrite bind_Some by (apply read_eq; exact Em).
  erewrite bind_Some by (apply read_eq; exact Ec).
  unfold bind at 1, modify at 1.
  erewrite bind_Some by (apply read_eq; exact Ee).
  destruct (eht =? 0) eqn:E0; cbn [negb].
  - inversion Hh; subst. simpl in Hf. inversion Hf; subst. reflexivity.
  - destruct (exceptionHandlerTableBody eht t) as [tb |] eqn:Et; [| discriminate].
    simpl in Hh. inversion Hh; subst.
    erewrite bind_Some by (apply read_eq; exact Et).
    apply read_eq. rewrite <- Hf. apply find_handler_same; reflexivity.
Qed.

Lemma catches_same t t' c eh :
  store t = store t' -> exception t = exception t' ->
  catches c eh t = catches c eh t'.
Proof.
  intros H He. unfold catches.
  now rewrite (codePool_same _ _ H), He;
    destruct (_ =? 0); [| destruct (codePool c t'); simpl;
      [rewrite (rawArrayBody_same _ _ H);
       destruct (rawArrayBody _ t'); simpl;
       [destruct (nth_Z _ _); simpl; [apply instanceOf_same |] |] |]].
Qed.

Lemma unwind_eq uninit a m i outer c before eh after base :
  forall inner fuel t,
  chain (store t) (frame t) (inner ++ (a, m, i) :: outer) ->
  (length inner < fuel)%nat ->
  Forall (passes t) inner ->
  handlers a t = Some (c, before ++ eh :: after) ->
  Forall (fun x => catches c x t = Some false) before ->
  catches c eh t = Some true ->
  frameStackBase a t = Some base ->
  0 <= base < Z.of_nat (length (stack t)) ->
  unwind uninit fuel t = Some (Loop, caught t a c eh base).
Proof.
  induction inner as [| [[a' m'] i'] inner IH];
    intros fuel t C Hf Hp Hh Hb Hc Hs Hr.
  - simpl in C. destruct C as [Ea (n & b & l & L & C)].
    destruct fuel as [| fuel]; [simpl in Hf; lia |].
    pose proof (lookup_Some_pos _ _ _ L) as Pa.
    cbn [unwind]. unfold bind at 1, get at 1. rewrite Ea.
    destruct (a =? 0) eqn:E0; [apply Z.eqb_eq in E0; lia |].
    erewrite bind_Some
      by (eapply scan_frame_eq; [exact Hh | apply find_handler_first; assumption]).
    cbv beta iota.
    erewrite bind_Some by (apply read_eq; exact Hs).
    unfold bind, modify, get, push, ret, set_nth_Z.
    cbn [set_sp set_ip set_code sp stack exception].
    destruct ((0 <=? base) && (base <? Z.of_nat (length (stack t)))) eqn:Er.
    + subst a. reflexivity.
    + apply andb_false_iff in Er. destruct Er as [Er | Er];
        [apply Z.leb_gt in Er | apply Z.ltb_ge in Er]; lia.
  - simpl in C. destruct C as [Ea (n & b & l & L & C)].
    destruct fuel as [| fuel]; [simpl in Hf; lia |].
    pose proof (lookup_Some_pos _ _ _ L) as Pa.
    inversion Hp as [| x xs [c' [table' [Hh' Hn']]] Hp']; subst x xs.
    cbn [unwind]. unfold bind at 1, get at 1. rewrite Ea.
    destruct (a' =? 0) eqn:E0; [apply Z.eqb_eq in E0; lia |].
    erewrite bind_Some
      by (eapply scan_frame_eq; [exact Hh' | apply find_handler_none; assumption]).
    cbv beta iota.
    unfold bind at 1, read at 1, frameNext, cell_at. cbn [store set_code].
    rewrite L. unfold bind at 1, modify at 1.
    rewrite (IH fuel (set_frame n (set_code c' t))).
    + reflexivity.
    + exact C.
    + simpl in Hf. lia.
    + eapply List.Forall_impl; [| exact Hp'].
      intros x (c0 & tb & H1 & H2). exists c0, tb. split; [exact H1 |].
      eapply List.Forall_impl; [| exact H2]. intros eh0 H3.
      rewrite <- H3. apply catches_same; reflexivity.
    + exact Hh.
    + eapply List.Forall_impl; [| exact Hb]. intros eh0 H3.
      rewrite <- H3. apply catches_same; reflexivity.
    + rewrite <- Hc. apply catches_same; reflexivity.
    + exact Hs.
    + exact Hr.
Qed.

(** ** The claims about the dispatch loop *)

Lemma step_array resolver k storing t body :
  codeBody (code t) t = Some body ->
  nth_Z body (ip t) = Some (array_opcode k storing) ->
  step resolver t =
  (if storing then array_store k else array_load k)
    (set_ip (Word.u32 (ip t + 1)) t).
Proof.
  intros Hb Ho. unfold step.
  rewrite (bind_Some _ _ _ _ _ (fetch_eq _ _ _ Hb Ho)).
  destruct k, storing; reflexivity.
Qed.

Lemma nth_Z_Some {A} (l : list A) j :
  0 <= j < Z.of_nat (length l) -> exists x, nth_Z l j = Some x.
Proof.
  intros H. unfold nth_Z. destruct (j <? 0) eqn:E; [apply Z.ltb_lt in E; lia |].
  destruct (l !! Z.to_nat j) as [x |] eqn:L; [now exists x |].
  apply lookup_ge_None in L. lia.
Qed.

Lemma out_of_range_test i len :
  - 2 ^ 31 <= i < 2 ^ 31 -> i < 0 \/ len <= i ->
  (0 <=? i) && (Word.u32 i <? len) = false.
Proof.
  intros Hi [H | H].
  - apply andb_false_iff. left. apply Z.leb_gt. exact H.
  - destruct (0 <=? i) eqn:E; [| reflexivity]. apply Z.leb_le in E.
    rewrite u32_small by lia. apply Z.ltb_ge. exact H.
Qed.

(** C7, amended. Every element load and store ([aaload], [aastore],
    [baload], [bastore], [caload], [castore], [iaload], [iastore], [laload],
    [lastore], [saload], [sastore]) executed in a frame, with an array reference and a
    boxed index [i] as operands: when the array is null the case ends in
    [throw_] with [t->exception] a NullPointerException; when the array has
    length [len] and [i] is negative or not below [len] it ends in [throw_]
    with [t->exception] an ArrayIndexOutOfBoundsException whose message is
    the string over the byte array holding the text
    ["i not in [0,len]"] and its closing NUL. *)
Theorem array_access_checked resolver k storing t body array index i m i0 fs :
  codeBody (code t) t = Some body ->
  nth_Z body (ip t) = Some (array_opcode k storing) ->
  operand_depth storing <= sp t <= Z.of_nat (length (stack t)) ->
  sp t < 2 ^ 32 ->
  nth_Z (stack t) (sp t - operand_depth storing) = Some array ->
  nth_Z (stack t) (sp t - operand_depth storing + 1) = Some index ->
  intValue index t = Some i ->
  - 2 ^ 31 <= i < 2 ^ 31 ->
  chain (store t) (frame t) ((frame t, m, i0) :: fs) ->
  (array = 0 ->
   exists t',
     step resolver t = Some (Throw, t') /\
     thrown (exception t') t' = Some (NullPointerException, None)) /\
  (forall len,
     array <> 0 ->
     arrayLength k array t = Some len ->
     i < 0 \/ len <= i ->
     exists t',
       step resolver t = Some (Throw, t') /\
       thrown (exception t') t' =
         Some (ArrayIndexOutOfBoundsException, Some (not_in_text i len ++ [0]))).
Proof.
  intros Hb Ho Hs Hs' Ha Hi Hv Hr C.
  pose proof C as C0. simpl in C0. destruct C0 as [_ (n & b & l & L & _)].
  rewrite (step_array _ _ _ _ _ Hb Ho).
  destruct storing; unfold operand_depth in *.
  - destruct (nth_Z_Some (stack t) (sp t - 1)) as [value Hx]; [lia |].
    replace (sp t - 3 + 1) with (sp t - 2) in Hi by lia.
    split.
    + intros ->.
      eapply array_store_null with (value := value); eauto; cbn [sp set_ip]; lia.
    + intros len Hn Hl Ho'. rewrite <- c_bytes_not_in_text.
      eapply array_store_out_of_range with (value := value) (array := array);
        eauto using out_of_range_test; cbn [sp set_ip]; lia.
  - replace (sp t - 2 + 1) with (sp t - 1) in Hi by lia.
    split.
    + intros ->.
      eapply array_load_null; eauto; cbn [sp set_ip]; lia.
    + intros len Hn Hl Ho'. rewrite <- c_bytes_not_in_text.
      eapply array_load_out_of_range with (array := array);
        eauto using out_of_range_test; cbn [sp set_ip]; lia.
Qed.

(** [int[] a = new int[3]; a[5] = 0;] *)
Example iastore_5_of_3 :
  step no_classes (running [79] [4; 5; 6]) = Some (Throw, after_iastore).
Proof. vm_compute. reflexivity. Qed.

Lemma array_access_checked_witness :
  exists t',
    step no_classes (running [79] [4; 5; 6]) = Some (Throw, t') /\
    thrown (exception t') t' =
      Some (ArrayIndexOutOfBoundsException, Some (chars "5 not in [0,3]" ++ [0])).
Proof.
  destruct (array_access_checked no_classes intArray true
              (running [79] [4; 5; 6]) [79] 4 5 5 2 0 [])
    as [_ H].
  - reflexivity.
  - reflexivity.
  - simpl. lia.
  - simpl. lia.
  - reflexivity.
  - reflexivity.
  - reflexivity.
  - lia.
  - simpl. split; [reflexivity |]. exists 0, 0, [0; 0]. split; reflexivity.
  - apply (H 3).
    + discriminate.
    + reflexivity.
    + lia.
Defined.

(** C7 as stated fails: after [int[] a = new int[3]; a[5] = 0;] the byte
    array of the message of the exception is not the 14 characters of
    ["5 not in [0,3]"].  It has 15 bytes, the last of them the closing NUL
    that [makeString] copies with the text, and the length of the message
    string is 15, so that the NUL is part of the message. *)
Lemma message_bytes_end_in_NUL :
  step no_classes (running [79] [4; 5; 6]) = Some (Throw, after_iastore) /\
  cell_at (exception after_iastore) after_iastore =
    Some (Cell.Thrown ArrayIndexOutOfBoundsException 9 10) /\
  cell_at 9 after_iastore = Some (Cell.String 8 0 15 0) /\
  byteArrayBody 8 after_iastore = Some (chars "5 not in [0,3]" ++ [0]) /\
  length (chars "5 not in [0,3]") = 14%nat /\
  byteArrayBody 8 after_iastore <> Some (chars "5 not in [0,3]") /\
  thrown (exception after_iastore) after_iastore <>
    Some (ArrayIndexOutOfBoundsException, Some (chars "5 not in [0,3]")).
Proof.
  split; [vm_compute; reflexivity |].
  split; [reflexivity |]. split; [reflexivity |]. split; [reflexivity |].
  split; [reflexivity |].
  split; intros H; vm_compute in H; discriminate H.
Qed.

(** C9. [checkcast] with null on top of the operand stack: the two index
    bytes are consumed and nothing else changes.  The thread afterwards is
    the thread before with [ip] advanced past the opcode and its two bytes,
    so [sp], the stack, the store (and with it the constant pool) and
    [t->exception] are as before; the result is the same for every class
    resolver, which is not called; and the case ends in [goto loop]. *)
Theorem checkcast_null resolver t body index1 index2 :
  codeBody (code t) t = Some body ->
  0 <= ip t ->
  ip t + 3 < 2 ^ 32 ->
  nth_Z body (ip t) = Some 192 ->
  nth_Z body (ip t + 1) = Some index1 ->
  nth_Z body (ip t + 2) = Some index2 ->
  peek 1 t = Some 0 ->
  step resolver t = Some (Loop, set_ip (ip t + 3) t).
Proof.
  intros Hb Hi0 Hi1 H0 H1 H2 Hp.
  assert (E1 : Word.u32 (ip t + 1) = ip t + 1) by (apply u32_small; lia).
  assert (E2 : Word.u32 (ip t + 1 + 1) = ip t + 2) by (rewrite u32_small; lia).
  assert (E3 : Word.u32 (ip t + 2 + 1) = ip t + 3) by (rewrite u32_small; lia).
  unfold step.
  rewrite (bind_Some _ _ _ _ _ (fetch_eq _ _ _ Hb H0)).
  cbn [decode]. unfold do_checkcast.
  erewrite bind_Some by
    (apply fetch_eq with (body := body); cbn [code ip set_ip];
     [exact Hb | rewrite E1; exact H1]).
  erewrite bind_Some by
    (apply fetch_eq with (body := body); cbn [code ip set_ip];
     [exact Hb | rewrite E1, E2; exact H2]).
  cbn [ip set_ip]. rewrite E1, E2, E3.
  erewrite bind_Some by (apply read_eq; exact Hp).
  reflexivity.
Qed.

Lemma checkcast_null_witness :
  step no_classes (running [192; 0; 1] [4; 0]) =
  Some (Loop, set_ip 3 (running [192; 0; 1] [4; 0])).
Proof.
  apply (checkcast_null no_classes (running [192; 0; 1] [4; 0]) [192; 0; 1] 0 1).
  - reflexivity.
  - simpl. lia.
  - simpl. lia.
  - reflexivity.
  - reflexivity.
  - reflexivity.
  - reflexivity.
Defined.

(** C2, amended. When an exception is thrown, the unwind selects the first
    handler in table order of the innermost frame whose catch type is [0] or
    names a class that the exception is an instance of; frames none of whose
    handlers catches are passed on the way out.  The pc range of a handler
    takes no part in the selection.  On the match, [code] is the code of the
    frame's method, [sp] is restored to the frame's stack base, the exception
    is pushed there, [ip] is the handler's, [t->exception] is cleared, and the
    case ends in [goto loop]. *)
Theorem throw_selects_first_catching_handler
    uninit t inner a m i outer c before eh after base :
  chain (store t) (frame t) (inner ++ (a, m, i) :: outer) ->
  Forall (passes t) inner ->
  handlers a t = Some (c, before ++ eh :: after) ->
  Forall (fun x => catches c x t = Some false) before ->
  catches c eh t = Some true ->
  frameStackBase a t = Some base ->
  0 <= base < Z.of_nat (length (stack t)) ->
  throw_ uninit t = Some (Loop, caught t a c eh base).
Proof.
  intros C Hp Hh Hb Hc Hs Hr. unfold throw_.
  unfold bind at 1, get at 1.
  apply unwind_eq with (m := m) (i := i) (outer := outer) (before := before)
                       (after := after) (inner := inner); try assumption.
  pose proof (chain_length _ _ _ C) as Hl. rewrite length_app in Hl.
  simpl in Hl. lia.
Qed.

Lemma throw_selects_first_catching_handler_witness :
  throw_ zeroed throwing =
  Some (Loop, caught throwing 3 1 (mkExceptionHandler 10 20 30 0) 0).
Proof.
  apply (throw_selects_first_catching_handler zeroed throwing [] 3 2 0 [] 1 []
           (mkExceptionHandler 10 20 30 0) [mkExceptionHandler 0 10 40 0] 0).
  - simpl. split; [reflexivity |]. exists 0, 0, [0; 0]. split; reflexivity.
  - constructor.
  - reflexivity.
  - constructor.
  - reflexivity.
  - reflexivity.
  - simpl. lia.
Defined.

(** C2 as stated fails: the handler that the unwind selects covers the pc
    range from 10 to 20, and the faulting [ip] is 5; the handler whose range
    holds 5 comes second in the table and is not the one entered. *)
Lemma throw_ignores_pc_range :
  throw_ zeroed throwing =
    Some (Loop, caught throwing 3 1 (mkExceptionHandler 10 20 30 0) 0) /\
  handlers (frame throwing) throwing =
    Some (1, [mkExceptionHandler 10 20 30 0; mkExceptionHandler 0 10 40 0]) /\
  ip throwing = 5 /\
  ~ (exceptionHandlerStart (mkExceptionHandler 10 20 30 0) <= ip throwing
     < exceptionHandlerEnd (mkExceptionHandler 10 20 30 0)) /\
  (exceptionHandlerStart (mkExceptionHandler 0 10 40 0) <= ip throwing
   < exceptionHandlerEnd (mkExceptionHandler 0 10 40 0)).
Proof.
  repeat split; simpl; lia.
Qed.

(** ** The departures in general *)

(** In every state, [if_icmple] does what [if_icmplt] does: its case compares
    with [<]. *)
Lemma if_icmple_compares_with_less resolver t body :
  codeBody (code t) t = Some body ->
  nth_Z body (ip t) = Some 164 ->
  step resolver t = if_icmp Z.ltb (set_ip (Word.u32 (ip t + 1)) t).
Proof.
  intros Hb Ho. unfold step.
  now rewrite (bind_Some _ _ _ _ _ (fetch_eq _ _ _ Hb Ho)).
Qed.

Lemma bind_inv {A B} (m : M A) (k : A -> M B) t r :
  bind m k t = Some r -> exists a t', m t = Some (a, t') /\ k a t' = Some r.
Proof.
  unfold bind. destruct (m t) as [[a t'] |]; [| discriminate].
  intros H. now exists a, t'.
Qed.

(** No execution of the case [arraylength] goes back to the dispatch loop. *)
Lemma do_arraylength_never_loops t c t' :
  do_arraylength t = Some (c, t') -> c = Abort \/ c = Throw.
Proof.
  unfold do_arraylength. intros H.
  apply bind_inv in H. destruct H as (array & t1 & _ & H).
  destruct (negb (array =? 0)).
  - apply bind_inv in H. destruct H as (ty & t2 & _ & H).
    apply bind_inv in H. destruct H as (u & t3 & _ & H).
    inversion H. now left.
  - apply bind_inv in H. destruct H as (e & t2 & _ & H).
    unfold throw in H. apply bind_inv in H. destruct H as (u & t3 & _ & H).
    inversion H. now right.
Qed.

(** Whenever [makeTrace] is called in a frame, it returns with [t->frame]
    null. *)
Lemma makeTrace_clears_frame t m i fs :
  chain (store t) (frame t) ((frame t, m, i) :: fs) ->
  exists trace t',
    makeTrace t = Some (trace, t') /\ frame t' = 0 /\ frame t <> 0.
Proof.
  intros C. pose proof C as C0. simpl in C0.
  destruct C0 as [_ (n & b & l & L & _)].
  eexists _, _. split; [eapply makeTrace_eq; eauto |].
  split; [reflexivity |].
  apply lookup_Some_pos in L. lia.
Qed.

(** [memcpy] of [n] bytes leaves every word from number [j] on as it was,
    when [j] words hold [n] bytes or more. *)
Lemma memcpy_leaves w : 0 < w ->
  forall dst src n r j,
    memcpy w dst src n = Some r ->
    n <= w * Z.of_nat j ->
    r !! j = dst !! j.
Proof.
  intros Hw. induction dst as [| d dst IH]; intros src n r j H Hn.
  - simpl in H. destruct (n <=? 0); inversion H; reflexivity.
  - simpl in H. destruct (n <=? 0) eqn:E0; [inversion H; reflexivity |].
    apply Z.leb_gt in E0.
    destruct src as [| s src]; [discriminate |].
    destruct j as [| j]; [lia |].
    destruct (w <=? n) eqn:Ew.
    + destruct (memcpy w dst src (n - w)) as [rest |] eqn:Er; [| discriminate].
      inversion H; subst. simpl. eapply IH; [exact Er | lia].
    + inversion H; subst. reflexivity.
Qed.

(** With two parameters or more and pointers of two bytes or more, the slot
    of the last parameter is among those left as they were. *)
Lemma memcpy_misses_last_parameter w dst src k r :
  2 <= w -> 2 <= k ->
  memcpy w dst src k = Some r ->
  r !! Z.to_nat (k - 1) = dst !! Z.to_nat (k - 1).
Proof.
  intros Hw Hk H. eapply memcpy_leaves; [| exact H |]; nia.
Qed.

(** [athrow] of a reference that is not null leaves the frames as they are
    and reaches [throw_] with the reference in [t->exception]. *)
Lemma athrow_throws resolver t body e :
  codeBody (code t) t = Some body ->
  nth_Z body (ip t) = Some 191 ->
  1 <= sp t < 2 ^ 32 ->
  nth_Z (stack t) (sp t - 1) = Some e ->
  e <> 0 ->
  step resolver t =
  Some (Throw, set_exception e (set_sp (sp t - 1) (set_ip (Word.u32 (ip t + 1)) t))).
Proof.
  intros Hb Ho Hs He Hn. unfold step.
  rewrite (bind_Some _ _ _ _ _ (fetch_eq _ _ _ Hb Ho)).
  cbn [decode]. unfold do_athrow.
  erewrite bind_Some by (apply pop_eq; [exact Hs | exact He]).
  destruct (e =? 0) eqn:E; [apply Z.eqb_eq in E; congruence |].
  reflexivity.
Qed.

(** The test at [invoke:]: when the callee's [maxStack] does not fit above
    the parameters, the invocation ends in [throw_] with a
    StackOverflowError. *)
Lemma invoke_overflows w uninit k t mc maxStack m i fs :
  methodCode (code t) t = Some mc ->
  codeMaxStack mc t = Some maxStack ->
  StackSize < Word.u32 (maxStack + sp t - k) ->
  chain (store t) (frame t) ((frame t, m, i) :: fs) ->
  exists t',
    invoke w uninit k t = Some (Throw, t') /\
    thrown (exception t') t' = Some (StackOverflowError, None).
Proof.
  intros Hm Hs Ho C. pose proof C as C0. simpl in C0.
  destruct C0 as [_ (n & b & l & L & _)].
  unfold invoke. unfold bind at 1, get at 1.
  erewrite bind_Some by (apply read_eq; exact Hm).
  erewrite bind_Some by (apply read_eq; exact Hs).
  unfold bind at 1, get at 1.
  destruct (StackSize <? Word.u32 (maxStack + sp t - k)) eqn:E;
    [| apply Z.ltb_ge in E; lia].
  unfold makeStackOverflowError. unfold bind at 1, bind at 1.
  erewrite makeTrace_eq; [| exact C | exact L].
  unfold alloc, throw, bind, modify, ret. eexists. split; [reflexivity |].
  cbn [exception set_exception]. unfold thrown, cell_at.
  cbn [store set_exception set_frame set_store].
  rewrite lookup_fresh. reflexivity.
Qed.

(** Otherwise the invocation, where it is defined, goes on in the dispatch
    loop at [ip] 0, in a new frame whose stack base is the new [sp]. *)
Lemma invoke_enters w uninit k t mc maxStack c t' :
  methodCode (code t) t = Some mc ->
  codeMaxStack mc t = Some maxStack ->
  Word.u32 (maxStack + sp t - k) <= StackSize ->
  invoke w uninit k t = Some (c, t') ->
  c = Loop /\ ip t' = 0 /\ sp t' = Word.u32 (sp t - k) /\
  exists locals,
    cell_at (frame t') t' =
    Some (Cell.Frame (code t) (frame t) 0 (Word.u32 (sp t - k)) locals).
Proof.
  intros Hm Hs Ho H. unfold invoke in H.
  unfold bind at 1, get at 1 in H.
  erewrite bind_Some in H by (apply read_eq; exact Hm).
  erewrite bind_Some in H by (apply read_eq; exact Hs).
  unfold bind at 1, get at 1 in H.
  destruct (StackSize <? Word.u32 (maxStack + sp t - k)) eqn:E;
    [apply Z.ltb_lt in E; lia |].
  unfold bind at 1, get at 1 in H. unfold bind at 1, get at 1 in H.
  apply bind_inv in H. destruct H as ([] & t1 & H1 & H).
  unfold set_frameIp in H1.
  destruct (cell_at (frame t) t) as [[] |] eqn:Ef; try discriminate.
  unfold write in H1. destruct (lookup (store t) (frame t)); [| discriminate].
  inversion H1; subst t1; clear H1.
  unfold bind at 1, modify at 1 in H. unfold bind at 1, get at 1 in H.
  apply bind_inv in H. destruct H as (maxLocals & t2 & H2 & H).
  unfold read in H2.
  destruct (codeMaxLocals mc _); [| discriminate]. inversion H2; subst; clear H2.
  unfold bind at 1, makeFrame at 1, alloc at 1 in H.
  unfold bind at 1, modify at 1 in H.
  apply bind_inv in H. destruct H as (ls & t3 & H3 & H).
  unfold read, frameLocals, cell_at in H3. cbn [store set_frame set_store] in H3.
  rewrite lookup_fresh in H3. inversion H3; subst; clear H3.
  unfold bind at 1, get at 1 in H.
  apply bind_inv in H. destruct H as (ls' & t4 & H4 & H).
  unfold read in H4. destruct (memcpy _ _ _ _); [| discriminate].
  inversion H4; subst; clear H4.
  apply bind_inv in H. destruct H as ([] & t5 & H5 & H).
  unfold set_frameLocals, cell_at in H5. cbn [store set_frame set_store] in H5.
  rewrite lookup_fresh in H5. unfold write in H5.
  cbn [store set_frame set_store] in H5. rewrite lookup_fresh in H5.
  inversion H5; subst; clear H5.
  unfold bind, modify, ret in H. inversion H; subst; clear H.
  repeat split. exists ls'.
  unfold cell_at. cbn [frame store set_ip set_store set_frame set_sp sp].
  eapply lookup_update_eq. apply lookup_fresh.
Qed.

(** The handler for the unrelated class is passed over, and the handler for
    the class of the exception is entered, with the exception at the stack
    base of the frame. *)
Example catch_skips_unrelated_class :
  instanceOf 6 8 catching = Some false /\
  instanceOf 5 8 catching = Some true /\
  throw_ zeroed catching =
    Some (Loop, caught catching 3 1 (mkExceptionHandler 0 10 30 2) 1).
Proof. repeat split. Qed.

(** * Further properties *)

(** ** The thread coordinator, continued *)

Module CoordinatorInvariants.
Import Coordinator.

(** What a call finds when [while (guard) wait()] is over: the guard is
    false, the thread's state is as it was, and only waits have happened; a
    wait that never ends has happened otherwise. *)
Lemma wait_while_from_spec guard : forall ws m s tr,
  match wait_while_from guard ws m s tr with
  | Returns _ w' =>
      guard (vm w') = false /\ state w' = s /\ scopes (trace w') = scopes tr /\
      (forall e, e <> Wait -> In e (trace w') -> In e tr)
  | Blocks w' =>
      state w' = s /\ scopes (trace w') = scopes tr /\
      (forall e, e <> Wait -> In e (trace w') -> In e tr)
  | Aborts _ => False
  end.
Proof.
  induction ws as [| m' ws IH]; intros m s tr; simpl;
    destruct (guard m) eqn:G; simpl; auto.
  - repeat split; auto. intros e He [H | H]; [congruence | exact H].
  - specialize (IH m' s (Wait :: tr)).
    destruct (wait_while_from guard ws m' s (Wait :: tr)) as [a w | w | w];
      simpl in *; [| exact IH |].
    + destruct IH as (Hg & Hs & Hh & Hi). repeat split; auto.
      intros e He H. destruct (Hi e He H); congruence.
    + destruct IH as (Hs & Hh & Hi). repeat split; auto.
      intros e He H. destruct (Hi e He H); congruence.
Qed.

Ltac waited :=
  match goal with
  | |- context [wait_while_from ?g ?ws ?m ?s ?tr] =>
      let H := fresh "W" in
      pose proof (wait_while_from_spec g ws m s tr) as H;
      destruct (wait_while_from g ws m s tr) as [[] [? ? ? ?] | ? | [? ? ? ?]];
      [ | contradiction | ]; cbn in H; cbn
  end.

Ltac declive :=
  let H := fresh in
  intros H; left;
  repeat (destruct H as [H | H]; [discriminate H |]);
  try (match goal with
       | Hi : forall e, e <> Wait -> In e _ -> _ |- _ =>
           apply Hi in H; [| discriminate]
       end;
       simpl in H; repeat (destruct H as [H | H]; [discriminate H |]));
  exact H.

Lemma not_exclusive m : is_exclusive m = false -> exclusive m = None.
Proof. unfold is_exclusive. destruct (exclusive m); congruence. Qed.

(** The summary of a call of [enter] for a target whose case does not call
    [enter] again. *)
Lemma enter_flat_effect t s m st ws tr :
  match enter_flat t s (mkWorld m st ws tr) with
  | Returns _ w' =>
      state w' = s /\ scopes (trace w') = scopes tr /\
      (s = ActiveState -> st <> ActiveState -> exclusive (vm w') = None) /\
      (In DecLive (trace w') -> In DecLive tr \/ s = ZombieState)
  | Aborts w' | Blocks w' =>
      scopes tr < scopes (trace w') /\
      (In DecLive (trace w') -> In DecLive tr \/ s = ZombieState)
  end.
Proof.
  unfold enter_flat, bind, get_state. cbn.
  destruct s, st; cbn;
    try (repeat split; solve [lia | congruence | tauto | intuition congruence]).
  all: unfold enter_idle_or_zombie, enter_active, enter_exit, bind, get_state,
         get_vm, assert; cbn.
  all: try waited.
  all: try (destruct (exclusive_is t m); cbn).
  all: try waited.
  all: try (destruct W as (? & ? & ? & ?); subst; cbn).
  all: try (destruct W as (? & ? & ?); subst; cbn).
  all: repeat split; try lia; try congruence; auto using not_exclusive.
  all: try solve [intuition congruence].
  all: declive.
Qed.

Lemma yield_S fuel t w :
  yield_while_exclusive (S fuel) t w =
  if is_exclusive (vm w) then
    bind (enter_flat t IdleState)
      (fun _ => bind (enter_flat t ActiveState)
                  (fun _ => yield_while_exclusive fuel t)) w
  else Returns tt w.
Proof.
  cbn [yield_while_exclusive]. unfold bind at 1, get_vm.
  destruct (is_exclusive (vm w)); reflexivity.
Qed.

(** The loop [while (t->vm->exclusive) { enter(t, IdleState); enter(t,
    ActiveState); }] of an active thread. *)
Lemma yield_effect t : forall fuel m ws tr,
  match yield_while_exclusive fuel t (mkWorld m ActiveState ws tr) with
  | Returns _ w' =>
      state w' = ActiveState /\ scopes (trace w') = scopes tr /\
      (In DecLive (trace w') -> In DecLive tr)
  | Aborts w' | Blocks w' =>
      scopes tr <= scopes (trace w') /\ (In DecLive (trace w') -> In DecLive tr)
  end.
Proof.
  induction fuel as [| fuel IH]; intros m ws tr.
  - cbn. unfold bind, get_vm. cbn.
    destruct (is_exclusive m); cbn; repeat split; solve [lia | auto].
  - rewrite yield_S. cbn [vm].
    destruct (is_exclusive m); [| cbn; repeat split; solve [lia | auto]].
    unfold bind.
    pose proof (enter_flat_effect t IdleState m ActiveState ws tr) as H1.
    destruct (enter_flat t IdleState _) as [[] [m1 s1 ws1 tr1] | w1 | w1];
      cbn in H1.
    + destruct H1 as (-> & Hh & _ & Hd).
      pose proof (enter_flat_effect t ActiveState m1 IdleState ws1 tr1) as H2.
      destruct (enter_flat t ActiveState _) as [[] [m2 s2 ws2 tr2] | w2 | w2];
        cbn in H2.
      * destruct H2 as (-> & Hh2 & _ & Hd2). specialize (IH m2 ws2 tr2).
        destruct (yield_while_exclusive fuel t _) as [[] w3 | w3 | w3].
        -- destruct IH as (? & ? & ?). split; [assumption |].
           split; [lia | intuition congruence].
        -- destruct IH as (? & ?). split; [lia | intuition congruence].
        -- destruct IH as (? & ?). split; [lia | intuition congruence].
      * destruct H2 as (? & ?). split; [lia | intuition congruence].
      * destruct H2 as (? & ?). split; [lia | intuition congruence].
    + destruct H1 as (? & ?). split; [lia | intuition congruence].
    + destruct H1 as (? & ?). split; [lia | intuition congruence].
Qed.

Lemma enter_is_flat fuel t s :
  s <> ExclusiveState -> enter fuel t s = enter_flat t s.
Proof. destruct s; intros H; try reflexivity. congruence. Qed.

(** The summary of a call of [enter]: where it returns, the thread is in
    the state asked for and every scope is closed; where it does not, a
    scope is open. *)
Lemma enter_effect fuel t s m st ws tr :
  match enter fuel t s (mkWorld m st ws tr) with
  | Returns _ w' =>
      state w' = s /\ scopes (trace w') = scopes tr /\
      (s = ActiveState -> st <> ActiveState -> exclusive (vm w') = None) /\
      (s = ExclusiveState -> st <> ExclusiveState -> activeCount (vm w') <= 1) /\
      (In DecLive (trace w') -> In DecLive tr \/ s = ZombieState)
  | Aborts w' | Blocks w' =>
      scopes tr < scopes (trace w') /\
      (In DecLive (trace w') -> In DecLive tr \/ s = ZombieState)
  end.
Proof.
  destruct (State_eqb s ExclusiveState) eqn:Es.
  - apply CoordinatorProofs.State_eqb_eq in Es. subst s.
    unfold enter, bind, get_state. cbn.
    destruct st; cbn;
      try solve [repeat split; solve [lia | congruence | tauto]
                | split; [lia | intros [H | H]; [discriminate H | tauto]]].
    unfold enter_exclusive, bind, get_state, assert. cbn.
    pose proof (yield_effect t fuel m ws (Acquire :: tr)) as Y.
    destruct (yield_while_exclusive fuel t _) as [[] [m1 s1 ws1 tr1] | w1 | w1];
      cbn in Y; cbn.
    + destruct Y as (-> & Hh & Hd). unfold get_vm. cbn.
      waited.
      * destruct W as (Hg & -> & Hw & Hi). cbn in Hw.
        apply Z.ltb_ge in Hg.
        repeat split; try lia; try congruence.
        intros H. left.
        destruct H as [H | H]; [discriminate H |].
        apply Hi in H; [| discriminate].
        destruct H as [H | H]; [discriminate H |].
        apply Hd in H. destruct H as [H | H]; [discriminate H | exact H].
      * destruct W as (-> & Hw & Hi). cbn in Hw. split; [lia |].
        intros H. left. apply Hi in H; [| discriminate].
        destruct H as [H | H]; [discriminate H |].
        apply Hd in H. destruct H as [H | H]; [discriminate H | exact H].
    + destruct Y as (Hh & Hd). cbn in Hh. split; [lia |].
      intros H. left. apply Hd in H.
      destruct H as [H | H]; [discriminate H | exact H].
    + destruct Y as (Hh & Hd). cbn in Hh. split; [lia |].
      intros H. left. apply Hd in H.
      destruct H as [H | H]; [discriminate H | exact H].
  - assert (Hs : s <> ExclusiveState).
    { intros ->. discriminate Es. }
    rewrite enter_is_flat by exact Hs.
    pose proof (enter_flat_effect t s m st ws tr) as F.
    destruct (enter_flat t s _) as [[] w | w | w].
    + destruct F as (? & ? & ? & ?). repeat split; auto. congruence.
    + exact F.
    + exact F.
Qed.

(** X1. A call of [enter(t, s)] that returns leaves the thread in the
    state [s] that was asked for, from whatever state and machine it
    started and whatever the thread found each time it woke up. *)
Theorem enter_returns_in_target_state fuel t s w w' :
  enter fuel t s w = Returns tt w' -> state w' = s.
Proof.
  intros H. destruct w as [m st ws tr].
  pose proof (enter_effect fuel t s m st ws tr) as E.
  rewrite H in E. apply E.
Qed.

Lemma enter_returns_in_target_state_witness :
  enter 0 7 ZombieState (mkWorld (mkMachine None 2 2) ActiveState [] []) =
    Returns tt
      (mkWorld (mkMachine None 1 1) ZombieState []
         [Release; NotifyAll; DecLive; DecActive; Acquire]) /\
  state (mkWorld (mkMachine None 1 1) ZombieState []
           [Release; NotifyAll; DecLive; DecActive; Acquire]) = ZombieState.
Proof.
  split; [reflexivity |].
  apply (enter_returns_in_target_state 0 7 ZombieState
           (mkWorld (mkMachine None 2 2) ActiveState [] [])).
  reflexivity.
Defined.








(** X3. When a call of [enter(t, ExclusiveState)] made in another state
    returns, at most one thread is counted active: the call has waited until
    [activeCount] was no more than 1. *)
Theorem enter_exclusive_returns_alone fuel t w w' :
  state w <> ExclusiveState ->
  enter fuel t ExclusiveState w = Returns tt w' ->
  activeCount (vm w') <= 1.
Proof.
  intros Hs H. destruct w as [m st ws tr].
  pose proof (enter_effect fuel t ExclusiveState m st ws tr) as E.
  rewrite H in E. destruct E as (_ & _ & _ & E & _). now apply E.
Qed.

Lemma enter_exclusive_returns_alone_witness :
  enter 2 7 ExclusiveState
    (mkWorld (mkMachine (Some 3%nat) 2 2) ActiveState
       [mkMachine None 1 2; mkMachine (Some 7%nat) 1 2] []) =
    Returns tt
      (mkWorld (mkMachine (Some 7%nat) 1 2) ExclusiveState []
         [Release; Wait; SetExclusive; Release; IncActive; Wait; Acquire;
          Release; NotifyAll; DecActive; Acquire; Acquire]) /\
  activeCount (mkMachine (Some 7%nat) 1 2) <= 1.
Proof.
  split; [reflexivity |].
  apply (enter_exclusive_returns_alone 2 7
           (mkWorld (mkMachine (Some 3%nat) 2 2) ActiveState
              [mkMachine None 1 2; mkMachine (Some 7%nat) 1 2] [])
           (mkWorld (mkMachine (Some 7%nat) 1 2) ExclusiveState []
              [Release; Wait; SetExclusive; Release; IncActive; Wait; Acquire;
               Release; NotifyAll; DecActive; Acquire; Acquire])).
  - discriminate.
  - reflexivity.
Defined.

(** X4. When a call of [enter(t, ActiveState)] made in another state
    returns, no thread is exclusive: the thread has given up the exclusive
    state itself, or has waited until [t->vm->exclusive] was null. *)
Theorem enter_active_returns_with_none_exclusive fuel t w w' :
  state w <> ActiveState ->
  enter fuel t ActiveState w = Returns tt w' ->
  exclusive (vm w') = None.
Proof.
  intros Hs H. destruct w as [m st ws tr].
  pose proof (enter_effect fuel t ActiveState m st ws tr) as E.
  rewrite H in E. destruct E as (_ & _ & E & _). now apply E.
Qed.

Lemma enter_active_returns_with_none_exclusive_witness :
  enter 0 7 ActiveState
    (mkWorld (mkMachine (Some 3%nat) 1 2) IdleState [mkMachine None 0 2] []) =
    Returns tt
      (mkWorld (mkMachine None 1 2) ActiveState []
         [Release; IncActive; Wait; Acquire]) /\
  exclusive (mkMachine None 1 2) = None.
Proof.
  split; [reflexivity |].
  apply (enter_active_returns_with_none_exclusive 0 7
           (mkWorld (mkMachine (Some 3%nat) 1 2) IdleState [mkMachine None 0 2] [])
           (mkWorld (mkMachine None 1 2) ActiveState []
              [Release; IncActive; Wait; Acquire])).
  - discriminate.
  - reflexivity.
Defined.

(** X5. In [enter], [liveCount] is decremented only on the way to
    [ZombieState], and only from [ActiveState] or [ExclusiveState]:
    whatever the machine, the fuel and the wake-ups, and whether the call
    returns, aborts or blocks. *)
Theorem enter_decrements_liveCount_only_to_Zombie fuel t s m st ws :
  In DecLive (events (call_enter fuel t s m st ws)) ->
  s = ZombieState /\ (st = ActiveState \/ st = ExclusiveState).
Proof.
  unfold events, call_enter. rewrite <- in_rev. intros H.
  pose proof (enter_effect fuel t s m st ws []) as E.
  assert (Hs : s = ZombieState).
  { destruct (enter fuel t s _) as [a w' | w' | w']; cbn [final] in H.
    - destruct E as (_ & _ & _ & _ & E). destruct (E H) as [[] | Hs]. exact Hs.
    - destruct E as (_ & E). destruct (E H) as [[] | Hs]. exact Hs.
    - destruct E as (_ & E). destruct (E H) as [[] | Hs]. exact Hs. }
  split; [exact Hs |]. subst s. clear E.
  destruct st; auto; exfalso; cbn in H; intuition discriminate.
Qed.

Lemma enter_decrements_liveCount_only_to_Zombie_witness :
  In DecLive
    (events (call_enter 0 7 ZombieState (mkMachine None 2 2) ActiveState [])) /\
  (ZombieState = ZombieState /\
   (ActiveState = ActiveState \/ ActiveState = ExclusiveState)).
Proof.
  split.
  - vm_compute. tauto.
  - apply (enter_decrements_liveCount_only_to_Zombie
             0 7 ZombieState (mkMachine None 2 2) ActiveState []).
    vm_compute. tauto.
Defined.

(** X6. [ZombieState] and [ExitState] are final: a call of [enter] for
    another state made in one of them aborts, with the machine's counters
    and the thread's state as they were. *)
Theorem zombie_and_exit_are_final fuel t s m st ws :
  st = ZombieState \/ st = ExitState ->
  s <> st ->
  exists tr,
    call_enter fuel t s m st ws = Aborts (mkWorld m st ws tr).
Proof.
  intros [-> | ->] Hs; destruct s; try congruence; eexists; reflexivity.
Qed.

Lemma zombie_and_exit_are_final_witness :
  exists tr,
    call_enter 3 7 ActiveState (mkMachine None 1 1) ZombieState [] =
    Aborts (mkWorld (mkMachine None 1 1) ZombieState [] tr).
Proof.
  apply (zombie_and_exit_are_final 3 7 ActiveState (mkMachine None 1 1)
           ZombieState []).
  - left. reflexivity.
  - discriminate.
Defined.

End CoordinatorInvariants.

(** ** Class names *)

Lemma hash_from_spec : forall n s h,
  (n <= length s)%nat -> 0 <= h < 2 ^ 32 ->
  hash_from h s n =
  Some (Word.u32 (h * 31 ^ Z.of_nat n + polynomial (firstn n s))).
Proof.
  induction n as [| n IH]; intros s h Hn Hh.
  - cbn [hash_from firstn polynomial]. change (Z.of_nat 0) with 0.
    rewrite Z.pow_0_r, Z.mul_1_r, Z.add_0_r, u32_small by exact Hh.
    reflexivity.
  - destruct s as [| c s]; [simpl in Hn; lia |].
    cbn [hash_from firstn polynomial]. simpl in Hn.
    rewrite IH by (try apply u32_range; lia).
    f_equal. rewrite length_firstn, Nat.min_l by lia.
    unfold Word.u32.
    rewrite <- Z.add_mod_idemp_l, Z.mul_mod_idemp_l, Z.add_mod_idemp_l by lia.
    f_equal. rewrite Nat2Z.inj_succ, Z.pow_succ_r by lia. ring.
Qed.

Lemma hash_from_short : forall n s h,
  (length s < n)%nat -> hash_from h s n = None.
Proof.
  induction n as [| n IH]; intros s h Hn; [lia |].
  destruct s as [| c s]; [reflexivity |]. simpl in *. apply IH. lia.
Qed.

(** X7. [hash] of the first [n] bytes of a string is the polynomial
    [s[0]*31^(n-1) + ... + s[n-1]] of its bytes, read as [int8_t], reduced
    modulo 2^32: the wrap-around of the intermediate sums does not show.
    With [n] beyond the string, the loop reads past its end. *)
Theorem hash_is_polynomial s n :
  0 <= n ->
  hash s n =
  if n <=? Z.of_nat (length s)
  then Some (Word.u32 (polynomial (firstn (Z.to_nat n) s)))
  else None.
Proof.
  intros Hn. unfold hash.
  destruct (n <=? Z.of_nat (length s)) eqn:E.
  - apply Z.leb_le in E. rewrite hash_from_spec by lia. reflexivity.
  - apply Z.leb_gt in E. apply hash_from_short. lia.
Qed.

Lemma hash_is_polynomial_witness :
  hash (chars "Ab") 2 = Some (65 * 31 + 98) /\
  hash (chars "Ab") 3 = None.
Proof.
  split.
  - rewrite (hash_is_polynomial (chars "Ab") 2); [reflexivity | lia].
  - rewrite (hash_is_polynomial (chars "Ab") 3); [reflexivity | lia].
Defined.

Lemma strcmp_texts : forall x y,
  Forall (fun c => c <> 0) x -> Forall (fun c => c <> 0) y ->
  strcmp_is_0 (x ++ [0]) (y ++ [0]) = Some (bool_decide (x = y)).
Proof.
  induction x as [| c x IH]; intros [| d y] Hx Hy; cbn [strcmp_is_0 app].
  - reflexivity.
  - inversion Hy; subst. destruct (0 =? d) eqn:E; [apply Z.eqb_eq in E; congruence |].
    now rewrite bool_decide_eq_false_2.
  - inversion Hx; subst. destruct (c =? 0) eqn:E; [apply Z.eqb_eq in E; congruence |].
    now rewrite bool_decide_eq_false_2.
  - inversion Hx; inversion Hy; subst.
    destruct (c =? d) eqn:E.
    + apply Z.eqb_eq in E. subst d.
      destruct (c =? 0) eqn:E0; [apply Z.eqb_eq in E0; congruence |].
      rewrite IH by assumption.
      f_equal. apply bool_decide_ext. split; congruence.
    + apply Z.eqb_neq in E. rewrite bool_decide_eq_false_2; congruence.
Qed.

(** X8. On byte arrays that hold texts closed by their NUL, as [makeString]
    and the class-file parser make them, [byteArrayEqual] is equality of the
    texts. *)
Theorem byteArrayEqual_on_texts a b x y t :
  byteArrayBody a t = Some (x ++ [0]) ->
  byteArrayBody b t = Some (y ++ [0]) ->
  Forall (fun c => c <> 0) x ->
  Forall (fun c => c <> 0) y ->
  byteArrayEqual a b t = Some (bool_decide (x = y)).
Proof.
  intros Ha Hb Hx Hy. unfold byteArrayEqual, byteArrayLength.
  destruct (a =? b) eqn:E.
  - apply Z.eqb_eq in E. subst b. rewrite Ha in Hb. inversion Hb as [H].
    apply app_inj_tail in H. destruct H as [-> _].
    now rewrite bool_decide_eq_true_2.
  - rewrite Ha, Hb. cbn [mbind option_bind]. rewrite !length_app. cbn [length].
    destruct (Z.of_nat _ =? Z.of_nat _) eqn:El.
    + now apply strcmp_texts.
    + apply Z.eqb_neq in El. rewrite bool_decide_eq_false_2; [reflexivity |].
      intros ->. lia.
Qed.

Lemma byteArrayEqual_on_texts_witness :
  byteArrayEqual 1 2
    (set_store [Cell.ByteArray (chars "Main" ++ [0]);
                Cell.ByteArray (chars "Main" ++ [0])] two_on_stack) = Some true.
Proof.
  apply (byteArrayEqual_on_texts 1 2 (chars "Main") (chars "Main")
           (set_store [Cell.ByteArray (chars "Main" ++ [0]);
                       Cell.ByteArray (chars "Main" ++ [0])] two_on_stack)).
  - reflexivity.
  - reflexivity.
  - vm_compute. repeat constructor; discriminate.
  - vm_compute. repeat constructor; discriminate.
Defined.

(** ** Linked records *)

Section Links.

Variable next : object -> option object.
Variable bound : nat.
Hypothesis next_bound : forall a n, next a = Some n -> 0 < a <= Z.of_nat bound.

Lemma path_det : forall l1 l2 o, path next o l1 -> path next o l2 -> l1 = l2.
Proof.
  induction l1 as [| a l1 IH]; intros [| a' l2] o H1 H2; simpl in *.
  - reflexivity.
  - destruct H2 as [-> (n & L & _)]. apply next_bound in L. lia.
  - destruct H1 as [-> (n & L & _)]. apply next_bound in L. lia.
  - destruct H1 as [-> (n & L & P)]. destruct H2 as [<- (n' & L' & P')].
    rewrite L in L'. inversion L'; subst. f_equal. eapply IH; eauto.
Qed.

Lemma path_from : forall l o x,
  path next o l -> In x l ->
  exists suffix, path next x suffix /\ (length suffix <= length l)%nat.
Proof.
  induction l as [| a l IH]; intros o x P Hin; [inversion Hin |].
  simpl in Hin. destruct Hin as [<- | Hin].
  - exists (a :: l). split; [| lia].
    simpl in *. destruct P as [_ P]. split; [reflexivity | exact P].
  - simpl in P. destruct P as [_ (n & _ & P)].
    destruct (IH n x P Hin) as (suffix & Ps & Hl).
    exists suffix. split; [exact Ps | simpl; lia].
Qed.

Lemma path_NoDup : forall l o, path next o l -> List.NoDup l.
Proof.
  induction l as [| a l IH]; intros o P; [constructor |].
  pose proof P as P0. simpl in P. destruct P as [-> (n & L & P)].
  constructor; [| eapply IH; eauto].
  intros Hin. destruct (path_from _ _ _ P Hin) as (suffix & Ps & Hl).
  pose proof (path_det _ _ _ Ps P0) as ->. simpl in Hl. lia.
Qed.

Lemma path_bound : forall l o a,
  path next o l -> In a l -> 0 < a <= Z.of_nat bound.
Proof.
  induction l as [| a' l IH]; intros o a P Hin; [inversion Hin |].
  simpl in P. destruct P as [-> (n & L & P)].
  simpl in Hin. destruct Hin as [<- | Hin].
  - eapply next_bound; eauto.
  - eapply IH; eauto.
Qed.

(** A list of links that ends is no longer than the store. *)
Lemma path_length l o : path next o l -> (length l <= bound)%nat.
Proof.
  intros P.
  assert (L : (length l <= length (map Z.of_nat (seq 1 bound)))%nat).
  { apply List.NoDup_incl_length; [eapply path_NoDup; eauto |].
    intros a Hin. pose proof (path_bound _ _ _ P Hin) as B.
    apply in_map_iff. exists (Z.to_nat a). split; [lia |].
    apply in_seq. lia. }
  now rewrite length_map, length_seq in L.
Qed.

End Links.

(** ** The class map *)

Lemma at_bound h o r : HashMap.at_ h o = Some r -> 0 < o <= Z.of_nat (length h).
Proof.
  unfold HashMap.at_. destruct (o <=? 0) eqn:E; [discriminate |].
  apply Z.leb_gt in E. intros H. apply lookup_lt_Some in H. lia.
Qed.

Lemma tripleThird_bound h a n :
  tripleThird h a = Some n -> 0 < a <= Z.of_nat (length h).
Proof.
  unfold tripleThird, HashMap.triple.
  destruct (HashMap.at_ h a) as [r |] eqn:E; [| discriminate].
  intros _. eapply at_bound; eauto.
Qed.

Lemma bucket_path h : forall es n,
  bucket h n es -> exists l, path (tripleThird h) n l /\ length l = length es.
Proof.
  induction es as [| [k v] es IH]; intros n B; simpl in B.
  - exists []. now split.
  - destruct B as (next & T & B). destruct (IH next B) as (l & P & Hl).
    exists (n :: l). split; [| simpl; lia]. simpl. split; [reflexivity |].
    exists next. split; [| exact P]. unfold tripleThird. now rewrite T.
Qed.

Lemma bucket_length h es n : bucket h n es -> (length es <= length h)%nat.
Proof.
  intros B. destruct (bucket_path _ _ _ B) as (l & P & <-).
  eapply path_length; [| exact P]. apply tripleThird_bound.
Qed.

Lemma find_from_bucket equal h key : forall es fuel n,
  bucket h n es -> (length es <= fuel)%nat ->
  HashMap.find_from equal fuel h n key = Some (first_match equal key es).
Proof.
  induction es as [| [k v] es IH]; intros fuel n B Hf; simpl in B.
  - subst n. destruct fuel; reflexivity.
  - destruct B as (next & T & B).
    destruct fuel as [| fuel]; [simpl in Hf; lia |].
    assert (Hn : 0 < n).
    { unfold HashMap.triple in T.
      destruct (HashMap.at_ h n) eqn:E; [| discriminate].
      apply at_bound in E. lia. }
    cbn [HashMap.find_from first_match].
    destruct (n =? 0) eqn:E0; [apply Z.eqb_eq in E0; lia |].
    rewrite T. destruct (equal k key); [reflexivity |].
    apply IH; [exact B | simpl in Hf; lia].
Qed.

(** X9. [hashMapFind] returns the value of the first entry of the bucket of
    the hash whose key [equal] accepts, and null when the bucket has none:
    the search neither misses an entry of the bucket nor runs past its
    end. *)
Theorem hashMapFind_returns_first_match equal h map hash key body n es :
  HashMap.rawArrayBody h map = Some body ->
  nth_Z body (HashMap.index hash body) = Some n ->
  bucket h n es ->
  HashMap.hashMapFind equal h map hash key = Some (first_match equal key es).
Proof.
  intros Hb Hn B. unfold HashMap.hashMapFind. rewrite Hb. cbn [mbind option_bind].
  rewrite Hn. cbn [mbind option_bind].
  apply find_from_bucket; [exact B | eapply bucket_length; eauto].
Qed.

Lemma hashMapFind_returns_first_match_witness :
  HashMap.hashMapFind Z.eqb
    [HashMap.RawArray [0; 3]; HashMap.Triple 7 70 0; HashMap.Triple 9 90 2]
    1 5 7 = Some 70.
Proof.
  apply (hashMapFind_returns_first_match Z.eqb
           [HashMap.RawArray [0; 3]; HashMap.Triple 7 70 0; HashMap.Triple 9 90 2]
           1 5 7 [0; 3] 3 [(9, 90); (7, 70)]).
  - reflexivity.
  - reflexivity.
  - simpl. exists 2. split; [reflexivity |]. exists 0. split; reflexivity.
Defined.

Lemma at_pos h o : 0 < o -> HashMap.at_ h o = h !! Z.to_nat (o - 1).
Proof.
  intros H. unfold HashMap.at_. destruct (o <=? 0) eqn:E; [| reflexivity].
  apply Z.leb_le in E. lia.
Qed.

(** The triples that were there before an insertion are there afterwards. *)
Lemma triple_kept h map x new body a r :
  HashMap.rawArrayBody h map = Some body ->
  HashMap.triple h a = Some r ->
  HashMap.triple (<[Z.to_nat (map - 1) := HashMap.RawArray x]> (h ++ [new])) a =
  Some r.
Proof.
  unfold HashMap.rawArrayBody, HashMap.triple. intros Hm Ha.
  destruct (HashMap.at_ h map) as [[b |] |] eqn:Em; try discriminate.
  destruct (HashMap.at_ h a) as [[| k v n] |] eqn:Ea; try discriminate.
  pose proof (at_bound _ _ _ Em) as Bm. pose proof (at_bound _ _ _ Ea) as Ba.
  assert (Hne : a <> map) by (intros ->; congruence).
  rewrite at_pos in Ea by lia. rewrite at_pos by lia.
  rewrite list_lookup_insert_ne by lia.
  rewrite lookup_app_l by lia. now rewrite Ea.
Qed.

Lemma bucket_kept h map x new body : forall es n,
  HashMap.rawArrayBody h map = Some body ->
  bucket h n es ->
  bucket (<[Z.to_nat (map - 1) := HashMap.RawArray x]> (h ++ [new])) n es.
Proof.
  induction es as [| [k v] es IH]; intros n Hm B; simpl in *; [exact B |].
  destruct B as (next & T & B). exists next. split.
  - eapply triple_kept; eauto.
  - now apply IH.
Qed.

Lemma index_same hash (b b' : list object) :
  length b = length b' -> HashMap.index hash b = HashMap.index hash b'.
Proof. intros H. unfold HashMap.index. now rewrite H. Qed.

Lemma nth_Z_insert {A} (l : list A) i j x :
  0 <= i < Z.of_nat (length l) -> 0 <= j ->
  nth_Z (<[Z.to_nat i := x]> l) j = if j =? i then Some x else nth_Z l j.
Proof.
  intros Hi Hj. unfold nth_Z.
  destruct (j <? 0) eqn:E; [apply Z.ltb_lt in E; lia |].
  destruct (j =? i) eqn:Eji.
  - apply Z.eqb_eq in Eji. subst j. apply list_lookup_insert_eq. lia.
  - apply Z.eqb_neq in Eji. apply list_lookup_insert_ne. lia.
Qed.

Lemma set_nth_Z_Some {A} (l l' : list A) i x :
  set_nth_Z l i x = Some l' ->
  0 <= i < Z.of_nat (length l) /\ l' = <[Z.to_nat i := x]> l.
Proof.
  unfold set_nth_Z.
  destruct ((0 <=? i) && (i <? Z.of_nat (length l))) eqn:E; [| discriminate].
  apply andb_true_iff in E. destruct E as [E1 E2].
  apply Z.leb_le in E1. apply Z.ltb_lt in E2. intros H. inversion H. split; [lia | reflexivity].
Qed.

Lemma nth_Z_nonneg {A} (l : list A) i x : nth_Z l i = Some x -> 0 <= i.
Proof.
  unfold nth_Z. destruct (i <? 0) eqn:E; [discriminate |].
  apply Z.ltb_ge in E. intros _. exact E.
Qed.

(** X10. After [hashMapInsert] of a key and a value, [hashMapFind] returns
    that value for every key that [equal] takes for the inserted one and
    whose hash falls into the same bucket, the entry going in front of the
    older ones; for every other key and hash it returns what it returned
    before. *)
Theorem hashMapFind_after_insert
    equal h map hash key value h' body hash' key' n es :
  HashMap.hashMapInsert h map hash key value = Some h' ->
  HashMap.rawArrayBody h map = Some body ->
  nth_Z body (HashMap.index hash' body) = Some n ->
  bucket h n es ->
  HashMap.hashMapFind equal h map hash' key' = Some (first_match equal key' es) /\
  HashMap.hashMapFind equal h' map hash' key' =
  Some (if (HashMap.index hash' body =? HashMap.index hash body) && equal key key'
        then value else first_match equal key' es).
Proof.
  intros Hi Hb Hn B. split.
  { unfold HashMap.hashMapFind. rewrite Hb. cbn [mbind option_bind].
    rewrite Hn. cbn [mbind option_bind].
    apply find_from_bucket; [exact B | eapply bucket_length; eauto]. }
  unfold HashMap.hashMapInsert in Hi. rewrite Hb in Hi.
  cbn [mbind option_bind] in Hi.
  destruct (nth_Z body (HashMap.index hash body)) as [n0 |] eqn:En0;
    [| discriminate].
  cbn [mbind option_bind] in Hi. cbv zeta in Hi.
  assert (Hm : 0 < map <= Z.of_nat (length h)).
  { unfold HashMap.rawArrayBody in Hb.
    destruct (HashMap.at_ h map) eqn:E; [| discriminate].
    eapply at_bound; eauto. }
  assert (Hb' : HashMap.rawArrayBody (h ++ [HashMap.Triple key value n0]) map
                = Some body).
  { unfold HashMap.rawArrayBody in *. rewrite at_pos in Hb by lia.
    rewrite at_pos by lia. rewrite lookup_app_l by lia. exact Hb. }
  rewrite Hb' in Hi. cbn [mbind option_bind] in Hi.
  apply stdpp.option.bind_Some in Hi. destruct Hi as (body'' & Es & Hi).
  inversion Hi; subst h'; clear Hi.
  apply set_nth_Z_Some in Es. destruct Es as [Hr ->].
  set (n' := Z.of_nat (length h) + 1) in *.
  set (idx := HashMap.index hash body) in *.
  match goal with
  | |- context [HashMap.RawArray ?b] => set (body'' := b)
  end.
  match goal with
  | |- context [HashMap.hashMapFind _ ?x _ _ _] => set (h'' := x)
  end.
  assert (Hb'' : HashMap.rawArrayBody h'' map = Some body'').
  { unfold HashMap.rawArrayBody, h''. rewrite at_pos by lia.
    rewrite list_lookup_insert_eq; [reflexivity |].
    rewrite length_app. simpl. lia. }
  assert (Hl : length body'' = length body) by apply length_insert.
  assert (Hnew : HashMap.triple h'' n' = Some (key, value, n0)).
  { unfold HashMap.triple, h'', n'. rewrite at_pos by lia.
    rewrite list_lookup_insert_ne by lia.
    replace (Z.to_nat (Z.of_nat (length h) + 1 - 1)) with (length h + 0)%nat by lia.
    rewrite lookup_app_r by lia.
    now replace (length h + 0 - length h)%nat with 0%nat by lia. }
  unfold HashMap.hashMapFind. rewrite Hb''. cbn [mbind option_bind].
  rewrite (index_same hash' body'' body Hl).
  unfold body''. rewrite nth_Z_insert; [| exact Hr | eapply nth_Z_nonneg; eauto].
  fold idx. destruct (HashMap.index hash' body =? idx) eqn:Ei.
  - apply Z.eqb_eq in Ei. rewrite Ei in Hn. rewrite Hn in En0.
    inversion En0; subst n0. cbn [mbind option_bind andb].
    rewrite (find_from_bucket equal h'' key' ((key, value) :: es)).
    + reflexivity.
    + simpl. exists n. split; [exact Hnew |]. eapply bucket_kept; eauto.
    + pose proof (bucket_length _ _ _ B). unfold h''.
      rewrite length_insert, length_app. simpl. lia.
  - rewrite Hn. cbn [mbind option_bind andb].
    apply find_from_bucket.
    + eapply bucket_kept; eauto.
    + pose proof (bucket_length _ _ _ B). unfold h''.
      rewrite length_insert, length_app. simpl. lia.
Qed.

Lemma hashMapFind_after_insert_witness :
  HashMap.hashMapFind Z.eqb
    [HashMap.RawArray [0; 3]; HashMap.Triple 7 70 0; HashMap.Triple 9 90 2]
    1 5 7 = Some 70 /\
  HashMap.hashMapFind Z.eqb
    [HashMap.RawArray [0; 4]; HashMap.Triple 7 70 0; HashMap.Triple 9 90 2;
     HashMap.Triple 7 71 3]
    1 5 7 = Some 71.
Proof.
  apply (hashMapFind_after_insert Z.eqb
           [HashMap.RawArray [0; 3]; HashMap.Triple 7 70 0; HashMap.Triple 9 90 2]
           1 13 7 71
           [HashMap.RawArray [0; 4]; HashMap.Triple 7 70 0; HashMap.Triple 9 90 2;
            HashMap.Triple 7 71 3]
           [0; 3] 5 7 3 [(9, 90); (7, 70)]).
  - reflexivity.
  - reflexivity.
  - reflexivity.
  - simpl. exists 2. split; [reflexivity |]. exists 0. split; reflexivity.
Defined.

(** ** Classes and their ancestors *)

Lemma classSuper_bound t a n :
  classSuper a t = Some n -> 0 < a <= Z.of_nat (length (store t)).
Proof.
  unfold classSuper, cell_at. destruct (lookup (store t) a) eqn:E; [| discriminate].
  intros _. eapply lookup_Some_bound; eauto.
Qed.

Lemma supers_path t : forall cs oc,
  supers (store t) oc cs ->
  exists l, path (fun a => classSuper a t) oc l /\ length l = length cs.
Proof.
  induction cs as [| [id itable] cs IH]; intros oc S; simpl in S.
  - exists []. now split.
  - destruct S as (name & super & L & S). destruct (IH super S) as (l & P & Hl).
    exists (oc :: l). split; [| simpl; lia]. simpl. split; [reflexivity |].
    exists super. split; [| exact P]. unfold classSuper, cell_at. now rewrite L.
Qed.

Lemma supers_length t cs oc :
  supers (store t) oc cs -> (length cs <= length (store t))%nat.
Proof.
  intros S. destruct (supers_path _ _ _ S) as (l & P & <-).
  eapply path_length; [| exact P]. intros a n. apply classSuper_bound.
Qed.

Lemma extends_supers t id : forall cs fuel oc,
  supers (store t) oc cs -> (length cs <= fuel)%nat ->
  extends fuel id oc t = Some (existsb (fun c => fst c =? id) cs).
Proof.
  induction cs as [| [id' itable] cs IH]; intros fuel oc S Hf; simpl in S.
  - subst oc. destruct fuel; reflexivity.
  - destruct S as (name & super & L & S).
    destruct fuel as [| fuel]; [simpl in Hf; lia |].
    pose proof (lookup_Some_pos _ _ _ L) as Hp.
    cbn [extends existsb fst].
    destruct (oc =? 0) eqn:E0; [apply Z.eqb_eq in E0; lia |].
    unfold classId, classSuper, cell_at. rewrite L. cbn [mbind option_bind].
    destruct (id' =? id); [reflexivity |]. cbn [orb].
    apply IH; [exact S | simpl in Hf; lia].
Qed.

(** X11. For a class, [instanceOf] holds exactly when the class of the
    object or one of its ancestors along [classSuper] has the id of that
    class: the walk up the chain visits every ancestor and stops at the
    null superclass. *)
Theorem instanceOf_follows_superclass_chain class_ o t id oc cs :
  classId class_ t = Some id ->
  objectClass o t = Some oc ->
  supers (store t) oc cs ->
  instanceOf class_ o t = Some (existsb (fun c => fst c =? id) cs).
Proof.
  intros Hc Ho S. unfold instanceOf.
  assert (Po : 0 < o).
  { unfold objectClass, cell_at in Ho.
    destruct (lookup (store t) o) eqn:E; [| discriminate].
    eapply lookup_Some_pos; eauto. }
  destruct (o =? 0) eqn:E0; [apply Z.eqb_eq in E0; lia |].
  unfold classId, cell_at in Hc.
  destruct (lookup (store t) class_) as [[] |] eqn:L; try discriminate.
  inversion Hc; subst.
  pose proof (lookup_Some_pos _ _ _ L) as Pc.
  unfold typeOf, cell_at. rewrite L.
  destruct (class_ =? 0) eqn:E1; [apply Z.eqb_eq in E1; lia |].
  cbn [mbind option_bind]. unfold classId, cell_at. rewrite L.
  cbn [mbind option_bind]. rewrite Ho. cbn [mbind option_bind].
  apply extends_supers; [exact S | eapply supers_length; eauto].
Qed.

Lemma instanceOf_follows_superclass_chain_witness :
  instanceOf 6 8 catching = Some false /\
  instanceOf 5 8 catching = Some true.
Proof.
  split.
  - apply (instanceOf_follows_superclass_chain 6 8 catching 2 5 [(1, 0)]).
    + reflexivity.
    + reflexivity.
    + simpl. exists 0, 0. split; reflexivity.
  - apply (instanceOf_follows_superclass_chain 5 8 catching 1 5 [(1, 0)]).
    + reflexivity.
    + reflexivity.
    + simpl. exists 0, 0. split; reflexivity.
Defined.

(** X12. [isSuperclass(class_, base)] holds exactly when an ancestor of
    [base] other than [base] itself has the id of [class_]; so [instanceOf]
    for a class is the test of the object's own class together with
    [isSuperclass] of that class. *)
Theorem isSuperclass_tests_strict_ancestors class_ o t id oc c cs :
  classId class_ t = Some id ->
  objectClass o t = Some oc ->
  supers (store t) oc (c :: cs) ->
  isSuperclass class_ oc t = Some (existsb (fun c => fst c =? id) cs) /\
  instanceOf class_ o t =
    Some ((fst c =? id) || existsb (fun c => fst c =? id) cs).
Proof.
  intros Hc Ho S. split.
  - unfold isSuperclass. rewrite Hc. cbn [mbind option_bind].
    destruct c as [id' itable]. simpl in S.
    destruct S as (name & super & L & S).
    unfold classSuper, cell_at. rewrite L. cbn [mbind option_bind].
    apply extends_supers; [exact S | eapply supers_length; eauto].
  - unfold instanceOf.
    assert (Po : 0 < o).
    { unfold objectClass, cell_at in Ho.
      destruct (lookup (store t) o) eqn:E; [| discriminate].
      eapply lookup_Some_pos; eauto. }
    destruct (o =? 0) eqn:E0; [apply Z.eqb_eq in E0; lia |].
    unfold classId, cell_at in Hc.
    destruct (lookup (store t) class_) as [[] |] eqn:L; try discriminate.
    inversion Hc; subst.
    pose proof (lookup_Some_pos _ _ _ L) as Pc.
    unfold typeOf, cell_at. rewrite L.
    destruct (class_ =? 0) eqn:E1; [apply Z.eqb_eq in E1; lia |].
    cbn [mbind option_bind]. unfold classId, cell_at. rewrite L.
    cbn [mbind option_bind]. rewrite Ho. cbn [mbind option_bind].
    rewrite (extends_supers t id (c :: cs));
      [reflexivity | exact S | eapply supers_length; eauto].
Qed.

Lemma isSuperclass_tests_strict_ancestors_witness :
  isSuperclass 1 2 family = Some true /\
  isSuperclass 2 2 family = Some false /\
  instanceOf 2 5 family = Some true.
Proof.
  destruct (isSuperclass_tests_strict_ancestors 1 5 family 1 2 (2, 4) [(1, 6)])
    as [H1 _].
  { reflexivity. }
  { reflexivity. }
  { simpl. exists 0, 1. split; [reflexivity |]. exists 0, 0. split; reflexivity. }
  destruct (isSuperclass_tests_strict_ancestors 2 5 family 2 2 (2, 4) [(1, 6)])
    as [H2 H3].
  { reflexivity. }
  { reflexivity. }
  { simpl. exists 0, 1. split; [reflexivity |]. exists 0, 0. split; reflexivity. }
  exact (conj H1 (conj H2 H3)).
Defined.

Lemma itable_has_listed t id : forall body ids,
  listed (store t) body ids ->
  itable_has id body t = Some (existsb (fun x => x =? id) ids).
Proof.
  assert (P : forall body,
             (forall ids, listed (store t) body ids ->
                itable_has id body t = Some (existsb (fun x => x =? id) ids)) /\
             (forall x ids, listed (store t) (x :: body) ids ->
                itable_has id (x :: body) t =
                Some (existsb (fun x => x =? id) ids))).
  { induction body as [| y body [IH1 IH2]].
    - split.
      + intros [| id' ids] H; [reflexivity | contradiction].
      + intros x [| id' ids] H; [contradiction |]. simpl in H.
        destruct H as [[name L] ->]. simpl.
        unfold interfaceId, cell_at. rewrite L.
        destruct (id' =? id); reflexivity.
    - split; [apply IH2 |].
      intros x [| id' ids] H; [contradiction |]. cbn [listed] in H.
      destruct H as [[name L] H]. cbn [itable_has existsb].
      unfold interfaceId, cell_at. rewrite L.
      destruct (id' =? id); [reflexivity |]. cbn [orb]. now apply IH1. }
  intros body. apply P.
Qed.

Lemma implements_supers t id : forall cs idss fuel oc,
  supers (store t) oc cs ->
  Forall2 (lists (store t)) cs idss ->
  (length cs <= fuel)%nat ->
  implements fuel id oc t =
  Some (existsb (existsb (fun x => x =? id)) idss).
Proof.
  induction cs as [| [id' itable] cs IH]; intros idss fuel oc S F Hf; simpl in S.
  - subst oc. inversion F; subst. destruct fuel; reflexivity.
  - destruct S as (name & super & L & S).
    inversion F as [| c ids cs' idss' [body [Lb Hl]] F']; subst.
    destruct fuel as [| fuel]; [simpl in Hf; lia |].
    pose proof (lookup_Some_pos _ _ _ L) as Hp.
    cbn [implements existsb].
    destruct (oc =? 0) eqn:E0; [apply Z.eqb_eq in E0; lia |].
    unfold classInterfaceTable, classSuper, cell_at. rewrite L.
    cbn [mbind option_bind]. unfold rawArrayBody, cell_at.
    simpl in Lb. rewrite Lb. cbn [mbind option_bind].
    rewrite (itable_has_listed t id body ids Hl). cbn [mbind option_bind].
    destruct (existsb (fun x => x =? id) ids); [reflexivity |]. cbn [orb].
    apply IH; [exact S | exact F' | simpl in Hf; lia].
Qed.

(** X13. For an interface, [instanceOf] holds exactly when the interface
    table of the object's class or of one of its ancestors lists an
    interface with the id of that interface at one of its even positions,
    the positions that the scan visits. *)
Theorem instanceOf_scans_interface_tables class_ o t id oc cs idss :
  interfaceId class_ t = Some id ->
  objectClass o t = Some oc ->
  supers (store t) oc cs ->
  Forall2 (lists (store t)) cs idss ->
  instanceOf class_ o t = Some (existsb (existsb (fun x => x =? id)) idss).
Proof.
  intros Hc Ho S F. unfold instanceOf.
  assert (Po : 0 < o).
  { unfold objectClass, cell_at in Ho.
    destruct (lookup (store t) o) eqn:E; [| discriminate].
    eapply lookup_Some_pos; eauto. }
  destruct (o =? 0) eqn:E0; [apply Z.eqb_eq in E0; lia |].
  unfold interfaceId, cell_at in Hc.
  destruct (lookup (store t) class_) as [[] |] eqn:L; try discriminate.
  inversion Hc; subst.
  pose proof (lookup_Some_pos _ _ _ L) as Pc.
  unfold typeOf, cell_at. rewrite L.
  destruct (class_ =? 0) eqn:E1; [apply Z.eqb_eq in E1; lia |].
  cbn [mbind option_bind]. unfold interfaceId, cell_at. rewrite L.
  cbn [mbind option_bind]. rewrite Ho. cbn [mbind option_bind].
  apply implements_supers with (cs := cs);
    [exact S | exact F | eapply supers_length; eauto].
Qed.

Lemma instanceOf_scans_interface_tables_witness :
  instanceOf 3 5 family = Some true /\
  instanceOf 7 5 family = Some false.
Proof.
  assert (S : supers (store family) 2 [(2, 4); (1, 6)]).
  { simpl. exists 0, 1. split; [reflexivity |]. exists 0, 0. split; reflexivity. }
  assert (F : Forall2 (lists (store family)) [(2, 4); (1, 6)] [[7]; []]).
  { repeat constructor.
    - exists [3; 0]. split; [reflexivity |]. simpl. split; [now exists 0 | reflexivity].
    - exists []. split; reflexivity. }
  split.
  - apply (instanceOf_scans_interface_tables 3 5 family 7 2 [(2, 4); (1, 6)]
             [[7]; []] eq_refl eq_refl S F).
  - apply (instanceOf_scans_interface_tables 7 5 family 8 2 [(2, 4); (1, 6)]
             [[7]; []] eq_refl eq_refl S F).
Defined.

(** ** Resolution of constant-pool entries *)

Lemma rawArrayBody_lookup pool t body :
  rawArrayBody pool t = Some body ->
  lookup (store t) pool = Some (Cell.RawArray body).
Proof.
  unfold rawArrayBody, cell_at.
  destruct (lookup (store t) pool) as [[] |]; try discriminate.
  now intros [= ->].
Qed.

(** X14. The resolution of a class name in a constant pool is cached: when
    the slot holds a name and the class resolver returns a class for it
    without raising an exception, [resolveClass] returns that class and
    leaves it in the slot, and the protector list as it was; from then on
    [resolveClass] of the slot returns the class at once, whatever the
    resolver, which is not called again, and changes nothing. *)
Theorem resolveClass_caches resolver pool index t body name class_ t1 body1 ty1 :
  rawArrayBody pool t = Some body ->
  nth_Z body index = Some name ->
  typeOf name t = Some ByteArrayType ->
  resolver name (snd (Protector_new (LocalSlot "pool") t)) = Some (class_, t1) ->
  exception t1 = 0 ->
  rawArrayBody pool t1 = Some body1 ->
  0 <= index < Z.of_nat (length body1) ->
  typeOf class_ t1 = Some ty1 ->
  ty1 <> ByteArrayType ->
  exists t2,
    resolveClass resolver pool index t = Some (class_, t2) /\
    rawArrayBody pool t2 = Some (<[Z.to_nat index := class_]> body1) /\
    protector t2 = protector t /\
    forall resolver', resolveClass resolver' pool index t2 = Some (class_, t2).
Proof.
  intros Hb Hn Ht Hr He Hb1 Hi Hc Hty.
  pose proof (rawArrayBody_lookup _ _ _ Hb1) as L1.
  pose proof (lookup_Some_bound _ _ _ L1) as Bp.
  set (t2 := Protector_delete (fst (Protector_new (LocalSlot "pool") t))
               (set_store (update (store t1) pool
                             (Cell.RawArray (<[Z.to_nat index := class_]> body1)))
                  t1)).
  assert (Hb2 : rawArrayBody pool t2 =
                Some (<[Z.to_nat index := class_]> body1)).
  { unfold rawArrayBody, cell_at, t2. cbn [store Protector_delete set_protector set_store].
    erewrite lookup_update_eq by exact L1. reflexivity. }
  exists t2. split; [| split; [exact Hb2 | split; [reflexivity |]]].
  - unfold resolveClass.
    erewrite bind_Some by (apply read_eq; exact Hb).
    erewrite bind_Some by (apply read_eq; exact Hn).
    erewrite bind_Some by (apply read_eq; exact Ht).
    unfold protect. cbn [Protector_new snd] in *.
    unfold bind at 1. rewrite Hr.
    unfold bind at 1, get at 1. rewrite He. cbn [Z.eqb negb].
    erewrite bind_Some by (apply read_eq; exact Hb1).
    unfold set_nth_Z.
    destruct ((0 <=? index) && (index <? Z.of_nat (length body1))) eqn:Er;
      [| apply andb_false_iff in Er; destruct Er as [Er | Er];
         [apply Z.leb_gt in Er | apply Z.ltb_ge in Er]; lia].
    unfold bind, read, write, ret. rewrite L1. reflexivity.
  - intros resolver'. unfold resolveClass.
    erewrite bind_Some by (apply read_eq; exact Hb2).
    assert (Hn2 : nth_Z (<[Z.to_nat index := class_]> body1) index = Some class_).
    { rewrite nth_Z_insert by lia. now rewrite Z.eqb_refl. }
    erewrite bind_Some by (apply read_eq; exact Hn2).
    assert (Ht2 : exists ty2, typeOf class_ t2 = Some ty2 /\ ty2 <> ByteArrayType).
    { unfold typeOf, cell_at, t2 in *.
      cbn [store Protector_delete set_protector set_store].
      destruct (class_ =? 0) eqn:E0; [exists NullType; split; [reflexivity | discriminate] |].
      apply Z.eqb_neq in E0.
      destruct (Z.eq_dec class_ pool) as [-> | Hne].
      - erewrite lookup_update_eq by exact L1.
        exists RawArrayType. split; [reflexivity | discriminate].
      - destruct (lookup (store t1) class_) as [c |] eqn:Lc; [| discriminate].
        pose proof (lookup_Some_pos _ _ _ Lc) as Pc.
        rewrite lookup_update_ne by lia. rewrite Lc.
        exists ty1. split; [exact Hc | exact Hty]. }
    destruct Ht2 as (ty2 & Ht2 & Hty2).
    erewrite bind_Some by (apply read_eq; exact Ht2).
    destruct ty2; try reflexivity. congruence.
Qed.

Lemma resolveClass_caches_witness :
  exists t2,
    resolveClass (finds 3) 1 1 unresolved = Some (3, t2) /\
    rawArrayBody 1 t2 = Some [0; 3] /\
    protector t2 = None /\
    forall resolver', resolveClass resolver' 1 1 t2 = Some (3, t2).
Proof.
  apply (resolveClass_caches (finds 3) 1 1 unresolved [0; 2] 2 3
           (snd (Protector_new (LocalSlot "pool") unresolved)) [0; 2] ClassType).
  - reflexivity.
  - reflexivity.
  - reflexivity.
  - reflexivity.
  - reflexivity.
  - reflexivity.
  - simpl. lia.
  - reflexivity.
  - discriminate.
Defined.

(** ** The further cases of the dispatch loop *)

Lemma dispatch_further resolver t body b op :
  codeBody (code t) t = Some body ->
  nth_Z body (ip t) = Some b ->
  decode b = None ->
  decode_further b = Some op ->
  dispatch resolver t = execute resolver op (set_ip (Word.u32 (ip t + 1)) t).
Proof.
  intros Hb Hn Hd Hf. unfold dispatch.
  unfold bind at 1, get at 1.
  erewrite bind_Some by (apply read_eq; exact Hb).
  unfold bind at 1, get at 1.
  erewrite bind_Some by (apply read_eq; exact Hn).
  rewrite Hd, Hf.
  now rewrite (bind_Some _ _ _ _ _ (fetch_eq _ _ _ Hb Hn)).
Qed.

Lemma dispatch_step resolver t body b op :
  codeBody (code t) t = Some body ->
  nth_Z body (ip t) = Some b ->
  decode b = Some op ->
  dispatch resolver t = step resolver t.
Proof.
  intros Hb Hn Hd. unfold dispatch.
  unfold bind at 1, get at 1.
  erewrite bind_Some by (apply read_eq; exact Hb).
  unfold bind at 1, get at 1.
  erewrite bind_Some by (apply read_eq; exact Hn).
  now rewrite Hd.
Qed.

Lemma fetch8_eq t body b :
  codeBody (code t) t = Some body -> nth_Z body (ip t) = Some b ->
  fetch8 t = Some (uint8 b, set_ip (Word.u32 (ip t + 1)) t).
Proof.
  intros H1 H2. unfold fetch8.
  now rewrite (bind_Some _ _ _ _ _ (fetch_eq _ _ _ H1 H2)).
Qed.

(** *** Reading a computation backwards *)

Lemma fetch_inv t b t' :
  fetch t = Some (b, t') ->
  exists body,
    codeBody (code t) t = Some body /\ nth_Z body (ip t) = Some b /\
    t' = set_ip (Word.u32 (ip t + 1)) t.
Proof.
  unfold fetch, bind, get, read, modify, ret.
  destruct (codeBody (code t) t) as [body |]; [| discriminate].
  destruct (nth_Z body (ip t)) as [x |] eqn:E; [| discriminate].
  intros [= <- <-]. now exists body.
Qed.

Lemma fetch8_inv t b t' :
  fetch8 t = Some (b, t') ->
  exists body x,
    codeBody (code t) t = Some body /\ nth_Z body (ip t) = Some x /\
    b = uint8 x /\ t' = set_ip (Word.u32 (ip t + 1)) t.
Proof.
  unfold fetch8. intros H. apply bind_inv in H.
  destruct H as (x & t1 & H1 & H). apply fetch_inv in H1.
  destruct H1 as (body & Hb & Hn & ->). inversion H; subst.
  now exists body, x.
Qed.

Lemma pop_inv t o t' :
  pop t = Some (o, t') -> t' = set_sp (Word.u32 (sp t - 1)) t.
Proof.
  unfold pop. destruct (nth_Z (stack t) _); [| discriminate]. now intros [= <- <-].
Qed.

Lemma read_inv {A} (f : Thread -> option A) t a t' :
  read f t = Some (a, t') -> f t = Some a /\ t' = t.
Proof.
  unfold read. destruct (f t); [| discriminate]. now intros [= <- <-].
Qed.

Lemma push_inv o t u t' :
  push o t = Some (u, t') ->
  exists st, t' = set_sp (Word.u32 (sp t + 1)) (set_stack st t).
Proof.
  unfold push. destruct (set_nth_Z (stack t) (sp t) o) as [st |]; [| discriminate].
  intros [= <- <-]. now exists st.
Qed.

Ltac inv_bind H :=
  let a := fresh "a" in
  let t := fresh "t" in
  let H1 := fresh "H" in
  apply bind_inv in H; destruct H as (a & t & H1 & H).

(** *** Branches *)

Lemma land_shiftl_low a b n :
  0 <= n -> 0 <= b < 2 ^ n -> Z.land (Z.shiftl a n) b = 0.
Proof.
  intros Hn Hb.
  destruct (Z.eq_dec b 0) as [-> | Hb0]; [apply Z.land_0_r |].
  apply Z.bits_inj'. intros k Hk.
  rewrite Z.land_spec, Z.bits_0.
  destruct (Z.lt_ge_cases k n) as [H | H].
  - rewrite Z.shiftl_spec_low by exact H. reflexivity.
  - rewrite (Z.bits_above_log2 b k); [apply andb_false_r | lia |].
    apply Z.log2_lt_pow2; [lia |].
    apply Z.lt_le_trans with (2 ^ n); [lia |].
    apply Z.pow_le_mono_r; lia.
Qed.

Lemma lor_shiftl_bytes a b :
  0 <= b < 256 -> Z.lor (Z.shiftl a 8) b = 256 * a + b.
Proof.
  intros Hb.
  pose proof (Z.add_lor_land (Z.shiftl a 8) b) as H.
  rewrite (land_shiftl_low a b 8) in H by (simpl; lia).
  rewrite Z.shiftl_mul_pow2 in H by lia. rewrite Z.shiftl_mul_pow2 by lia.
  change (2 ^ 8) with 256 in *. lia.
Qed.

Lemma uint8_range z : 0 <= uint8 z < 256.
Proof. unfold uint8. apply Z.mod_pos_bound. lia. Qed.

Lemma uint8_small z : 0 <= z < 256 -> uint8 z = z.
Proof. intros H. unfold uint8. now apply Z.mod_small. Qed.

Lemma nth_Z_Forall {A} (P : A -> Prop) (l : list A) i x :
  Forall P l -> nth_Z l i = Some x -> P x.
Proof.
  unfold nth_Z. destruct (i <? 0); [discriminate |].
  intros F H. eapply Forall_lookup_1; eauto.
Qed.

(** The state after the two offset bytes of a branching opcode at [a]. *)
Lemma two_offsets t body a o1 o2 t1 t2 :
  codeBody (code t) t = Some body ->
  Forall (fun x => 0 <= x < 256) body ->
  ip t = a + 1 -> 0 <= a -> a + 3 < 2 ^ 32 ->
  fetch t = Some (o1, t1) -> fetch t1 = Some (o2, t2) ->
  nth_Z body (a + 1) = Some o1 /\ nth_Z body (a + 2) = Some o2 /\
  0 <= o1 < 256 /\ 0 <= o2 < 256 /\ t2 = set_ip (a + 3) t.
Proof.
  intros Hb Hf Hi Ha Hw F1 F2.
  apply fetch_inv in F1. destruct F1 as (body1 & Hb1 & Hn1 & ->).
  rewrite Hb in Hb1. inversion Hb1; subst body1.
  apply fetch_inv in F2. destruct F2 as (body2 & Hb2 & Hn2 & ->).
  cbn [code set_ip ip] in *. unfold codeBody, cell_at in Hb2.
  cbn [store set_ip] in Hb2. fold (cell_at (code t) t) in Hb2.
  fold (codeBody (code t) t) in Hb2. rewrite Hb in Hb2.
  inversion Hb2; subst body2.
  rewrite Hi in *. rewrite (u32_small (a + 1 + 1)) in * by lia.
  replace (a + 1 + 1) with (a + 2) in * by lia.
  rewrite (u32_small (a + 2 + 1)) by lia.
  replace (a + 2 + 1) with (a + 3) by lia.
  repeat split; try assumption.
  - exact (proj1 (nth_Z_Forall _ _ _ _ Hf Hn1)).
  - exact (proj2 (nth_Z_Forall _ _ _ _ Hf Hn1)).
  - exact (proj1 (nth_Z_Forall _ _ _ _ Hf Hn2)).
  - exact (proj2 (nth_Z_Forall _ _ _ _ Hf Hn2)).
Qed.

Lemma branch_end o1 o2 (taken : bool) t c t' :
  0 <= o1 < 256 -> 0 <= o2 < 256 ->
  ((if taken then branch o1 o2 else ret tt) ;;; ret Loop) t = Some (c, t') ->
  c = Loop /\
  t' = if taken then set_ip (Word.u32 (ip t - 1 + (256 * o1 + o2))) t else t.
Proof.
  intros H1 H2 H. destruct taken.
  - unfold branch, bind, get, modify, ret in H. inversion H; subst.
    rewrite lor_shiftl_bytes by exact H2. now split.
  - unfold bind, ret in H. inversion H; subst. now split.
Qed.

Section Forward.

Variables (t : Thread) (body : list Z) (a : Z).
Hypothesis Hb : codeBody (code t) t = Some body.
Hypothesis Hf : Forall (fun x => 0 <= x < 256) body.
Hypothesis Hi : ip t = a + 1.
Hypothesis Ha : 0 <= a.
Hypothesis Hw : a + 65538 < 2 ^ 32.

Lemma landed o1 o2 (taken : bool) u c t' :
  nth_Z body (a + 1) = Some o1 -> nth_Z body (a + 2) = Some o2 ->
  0 <= o1 < 256 -> 0 <= o2 < 256 ->
  ip u = a + 3 ->
  ((if taken then branch o1 o2 else ret tt) ;;; ret Loop) u = Some (c, t') ->
  lands body a c t'.
Proof.
  intros N1 N2 R1 R2 Hu H.
  destruct (branch_end _ _ _ _ _ _ R1 R2 H) as [-> ->].
  exists o1, o2. repeat split; try assumption.
  destruct taken; [right | left; exact Hu].
  cbn [ip set_ip]. rewrite Hu. rewrite u32_small by lia. lia.
Qed.

Lemma if_icmp_forward compare c t' :
  if_icmp compare t = Some (c, t') -> lands body a c t'.
Proof.
  unfold if_icmp. intros H. inv_bind H. inv_bind H.
  destruct (two_offsets _ _ _ _ _ _ _ Hb Hf Hi Ha ltac:(lia) H0 H1)
    as (N1 & N2 & R1 & R2 & ->).
  inv_bind H. apply pop_inv in H2. subst.
  inv_bind H. apply pop_inv in H2. subst.
  inv_bind H. apply read_inv in H2. destruct H2 as [_ ->].
  inv_bind H. apply read_inv in H2. destruct H2 as [_ ->].
  eapply landed; [exact N1 | exact N2 | exact R1 | exact R2 | | exact H].
  reflexivity.
Qed.

Lemma two_offsets8 o1 o2 t1 t2 :
  fetch8 t = Some (o1, t1) -> fetch8 t1 = Some (o2, t2) ->
  nth_Z body (a + 1) = Some o1 /\ nth_Z body (a + 2) = Some o2 /\
  0 <= o1 < 256 /\ 0 <= o2 < 256 /\ t2 = set_ip (a + 3) t.
Proof.
  unfold fetch8. intros F1 F2.
  inv_bind F1. inv_bind F2. inversion F1; subst. inversion F2; subst.
  destruct (two_offsets _ _ _ _ _ _ _ Hb Hf Hi Ha ltac:(lia) H H0)
    as (N1 & N2 & R1 & R2 & ->).
  rewrite !uint8_small by assumption. now repeat split.
Qed.

Lemma if_acmp_forward compare c t' :
  if_acmp compare t = Some (c, t') -> lands body a c t'.
Proof.
  unfold if_acmp. intros H. inv_bind H. inv_bind H.
  destruct (two_offsets8 _ _ _ _ H0 H1) as (N1 & N2 & R1 & R2 & ->).
  inv_bind H. apply pop_inv in H2. subst.
  inv_bind H. apply pop_inv in H2. subst.
  eapply landed; [exact N1 | exact N2 | exact R1 | exact R2 | | exact H].
  reflexivity.
Qed.

Lemma if_int_forward test c t' :
  if_int test t = Some (c, t') -> lands body a c t'.
Proof.
  unfold if_int. intros H. inv_bind H. inv_bind H.
  destruct (two_offsets8 _ _ _ _ H0 H1) as (N1 & N2 & R1 & R2 & ->).
  inv_bind H. apply pop_inv in H2. subst.
  inv_bind H. apply read_inv in H2. destruct H2 as [_ ->].
  eapply landed; [exact N1 | exact N2 | exact R1 | exact R2 | | exact H].
  reflexivity.
Qed.

Lemma if_ref_forward test c t' :
  if_ref test t = Some (c, t') -> lands body a c t'.
Proof.
  unfold if_ref. intros H. inv_bind H. inv_bind H.
  destruct (two_offsets8 _ _ _ _ H0 H1) as (N1 & N2 & R1 & R2 & ->).
  inv_bind H. apply pop_inv in H2. subst.
  eapply landed; [exact N1 | exact N2 | exact R1 | exact R2 | | exact H].
  reflexivity.
Qed.

Lemma goto_forward resolver c t' :
  execute resolver Op.goto_ t = Some (c, t') -> lands body a c t'.
Proof.
  cbn [execute]. intros H. inv_bind H. inv_bind H.
  destruct (two_offsets8 _ _ _ _ H0 H1) as (N1 & N2 & R1 & R2 & ->).
  eapply (landed _ _ true); [exact N1 | exact N2 | exact R1 | exact R2 | | exact H].
  reflexivity.
Qed.

Lemma jsr_forward resolver c t' :
  execute resolver Op.jsr t = Some (c, t') -> lands body a c t'.
Proof.
  cbn [execute]. intros H. inv_bind H. inv_bind H.
  destruct (two_offsets8 _ _ _ _ H0 H1) as (N1 & N2 & R1 & R2 & ->).
  unfold do_jsr in H. unfold bind at 1, get at 1 in H.
  inv_bind H. unfold makeInt, alloc in H2. inversion H2; subst; clear H2.
  inv_bind H. apply push_inv in H2. destruct H2 as [st ->].
  eapply (landed _ _ true); [exact N1 | exact N2 | exact R1 | exact R2 | | exact H].
  reflexivity.
Qed.

End Forward.

(** X15. No branch by a two-byte offset goes backward.  Each of the cases
    [ifeq] to [ifle], [if_icmpeq] to [if_icmple], [if_acmpeq], [if_acmpne],
    [goto_], [jsr], [ifnull] and [ifnonnull], wherever it is defined, ends in
    [goto loop] with [ip] either past the two offset bytes or at the address
    of the second offset byte plus the offset, which is read as an unsigned
    number between 0 and 65535: so [ip] is then greater than the address of
    the opcode. *)
Theorem branches_never_go_back resolver t body b c t' :
  codeBody (code t) t = Some body ->
  Forall (fun x => 0 <= x < 256) body ->
  nth_Z body (ip t) = Some b ->
  In b branching ->
  ip t + 65538 < 2 ^ 32 ->
  dispatch resolver t = Some (c, t') ->
  lands body (ip t) c t' /\ ip t < ip t'.
Proof.
  intros Hb Hf Hn Hin Hw H.
  pose proof (nth_Z_nonneg _ _ _ Hn) as Ha.
  assert (Hi : ip (set_ip (Word.u32 (ip t + 1)) t) = ip t + 1).
  { cbn [ip set_ip]. apply u32_small. lia. }
  assert (L : lands body (ip t) c t').
  { unfold branching in Hin. cbn [In] in Hin.
    repeat (destruct Hin as [<- | Hin]);
      try (rewrite (dispatch_further resolver t body _ _ Hb Hn eq_refl eq_refl) in H);
      try (rewrite (dispatch_step resolver t body _ _ Hb Hn eq_refl) in H;
           unfold step in H;
           rewrite (bind_Some _ _ _ _ _ (fetch_eq _ _ _ Hb Hn)) in H;
           cbn [decode] in H);
      try contradiction;
      first [ eapply if_icmp_forward; [.. | exact H]
            | eapply if_acmp_forward; [.. | exact H]
            | eapply if_int_forward; [.. | exact H]
            | eapply if_ref_forward; [.. | exact H]
            | eapply goto_forward; [.. | exact H]
            | eapply jsr_forward; [.. | exact H] ];
      first [exact Hb | exact Hf | exact Hi | exact Ha | exact Hw]. }
  split; [exact L |].
  destruct L as (o1 & o2 & N1 & N2 & _ & [E | E]); rewrite E; [lia |].
  pose proof (nth_Z_Forall _ _ _ _ Hf N1). pose proof (nth_Z_Forall _ _ _ _ Hf N2).
  simpl in *. lia.
Qed.

Lemma branches_never_go_back_witness :
  dispatch no_classes (running [167; 0; 5] []) =
    Some (Loop, set_ip 7 (running [167; 0; 5] [])) /\
  lands [167; 0; 5] 0 Loop (set_ip 7 (running [167; 0; 5] [])) /\
  0 < 7.
Proof.
  split; [reflexivity |].
  apply (branches_never_go_back no_classes (running [167; 0; 5] [])
           [167; 0; 5] 167 Loop (set_ip 7 (running [167; 0; 5] []))).
  - reflexivity.
  - repeat constructor; lia.
  - reflexivity.
  - unfold branching. simpl. tauto.
  - simpl. lia.
  - reflexivity.
Defined.

(** *** Local variables and the operand stack *)

Lemma set_nth_Z_eq {A} (l : list A) i x :
  0 <= i < Z.of_nat (length l) ->
  set_nth_Z l i x = Some (<[Z.to_nat i := x]> l).
Proof.
  intros H. unfold set_nth_Z.
  destruct ((0 <=? i) && (i <? Z.of_nat (length l))) eqn:E; [reflexivity |].
  apply andb_false_iff in E. destruct E as [E | E];
    [apply Z.leb_gt in E | apply Z.ltb_ge in E]; lia.
Qed.

Lemma push_eq o t :
  0 <= sp t < Z.of_nat (length (stack t)) -> sp t + 1 < 2 ^ 32 ->
  push o t =
  Some (tt, set_sp (sp t + 1) (set_stack (<[Z.to_nat (sp t) := o]> (stack t)) t)).
Proof.
  intros H1 H2. unfold push. rewrite set_nth_Z_eq by exact H1.
  now rewrite u32_small by lia.
Qed.

Lemma store_local_eq k t m n i b ls value :
  lookup (store t) (frame t) = Some (Cell.Frame m n i b ls) ->
  0 <= k < Z.of_nat (length ls) ->
  1 <= sp t < 2 ^ 32 ->
  nth_Z (stack t) (sp t - 1) = Some value ->
  store_local k t =
  Some (Loop,
        set_store
          (update (store t) (frame t)
             (Cell.Frame m n i b (<[Z.to_nat k := value]> ls)))
          (set_sp (sp t - 1) t)).
Proof.
  intros L Hk Hs Hv. unfold store_local.
  erewrite bind_Some by (apply pop_eq; [exact Hs | exact Hv]).
  unfold set_local. unfold bind at 1. unfold bind at 1, get at 1.
  cbn [frame set_sp].
  unfold bind at 1, read at 1, frameLocals, cell_at. cbn [store set_sp]. rewrite L.
  unfold bind at 1, read at 1. rewrite set_nth_Z_eq by exact Hk.
  unfold set_frameLocals, cell_at. cbn [store set_sp]. rewrite L.
  unfold write. cbn [store set_sp]. rewrite L. reflexivity.
Qed.

Lemma load_local_eq k t m n i b ls value :
  lookup (store t) (frame t) = Some (Cell.Frame m n i b ls) ->
  nth_Z ls k = Some value ->
  0 <= sp t < Z.of_nat (length (stack t)) -> sp t + 1 < 2 ^ 32 ->
  load_local k t =
  Some (Loop,
        set_sp (sp t + 1) (set_stack (<[Z.to_nat (sp t) := value]> (stack t)) t)).
Proof.
  intros L Hv Hs Hw. unfold load_local, local.
  unfold bind at 1. unfold bind at 1, get at 1.
  unfold bind at 1, read at 1, frameLocals, cell_at. rewrite L.
  unfold read at 1. rewrite Hv.
  unfold bind at 1. rewrite push_eq by assumption. reflexivity.
Qed.

Lemma codeBody_frame_update o t t' f m n i b ls c body :
  lookup (store t) f = Some (Cell.Frame m n i b ls) ->
  codeBody o t = Some body ->
  store t' = update (store t) f c ->
  codeBody o t' = Some body.
Proof.
  unfold codeBody, cell_at. intros L H E. rewrite E.
  destruct (lookup (store t) o) as [[] |] eqn:Lo; try discriminate.
  rewrite lookup_update_ne; [now rewrite Lo | | | congruence].
  - eapply lookup_Some_pos; eauto.
  - eapply lookup_Some_pos; eauto.
Qed.

(** X16. A store into one of the first four local variables followed by a
    load from the same variable ([astore_k], [istore_k] or [lstore_k], then
    [aload_k], [iload_k] or [lload_k]) leaves the operand stack as it was
    before the store, with the stored value on top, and the variable
    holding that value; nothing else of the frame or the store changes. *)
Theorem store_then_load_local resolver k sop lop t body m n i b ls value :
  0 <= k <= 3 ->
  In sop [59 + k; 63 + k; 75 + k] ->
  In lop [26 + k; 30 + k; 42 + k] ->
  codeBody (code t) t = Some body ->
  nth_Z body (ip t) = Some sop ->
  nth_Z body (ip t + 1) = Some lop ->
  ip t + 2 < 2 ^ 32 ->
  lookup (store t) (frame t) = Some (Cell.Frame m n i b ls) ->
  k < Z.of_nat (length ls) ->
  1 <= sp t <= Z.of_nat (length (stack t)) ->
  sp t < 2 ^ 32 ->
  nth_Z (stack t) (sp t - 1) = Some value ->
  exists t1,
    dispatch resolver t = Some (Loop, t1) /\
    dispatch resolver t1 =
    Some (Loop,
          set_ip (ip t + 2)
            (set_store
               (update (store t) (frame t)
                  (Cell.Frame m n i b (<[Z.to_nat k := value]> ls)))
               t)).
Proof.
  intros Hk Hs Hl Hb Hn1 Hn2 Hw L Hkl Hsp Hsp' Hv.
  pose proof (nth_Z_nonneg _ _ _ Hn1) as Hi0.
  set (S' := update (store t) (frame t)
               (Cell.Frame m n i b (<[Z.to_nat k := value]> ls))).
  set (t1 := set_store S' (set_sp (sp t - 1) (set_ip (ip t + 1) t))).
  assert (E1 : Word.u32 (ip t + 1) = ip t + 1) by (apply u32_small; lia).
  assert (E2 : Word.u32 (ip t + 1 + 1) = ip t + 2) by (rewrite u32_small; lia).
  assert (D1 : dispatch resolver t = Some (Loop, t1)).
  { assert (Hx : exists op,
               decode sop = None /\ decode_further sop = Some op /\
               execute resolver op = store_local k).
    { assert (K : k = 0 \/ k = 1 \/ k = 2 \/ k = 3) by lia.
      destruct K as [-> | [-> | [-> | ->]]]; cbn [In Z.add] in Hs;
        repeat (destruct Hs as [<- | Hs]); try contradiction;
        eexists; repeat split. }
    destruct Hx as (op & Hd & Hf & He).
    rewrite (dispatch_further resolver t body sop op Hb Hn1 Hd Hf), He, E1.
    erewrite store_local_eq; [reflexivity | exact L | lia | cbn [sp set_ip]; lia
                             | exact Hv]. }
  exists t1. split; [exact D1 |].
  assert (Hb1 : codeBody (code t1) t1 = Some body).
  { eapply codeBody_frame_update; [exact L | exact Hb | reflexivity]. }
  assert (Hx : exists op,
             decode lop = None /\ decode_further lop = Some op /\
             execute resolver op = load_local k).
  { assert (K : k = 0 \/ k = 1 \/ k = 2 \/ k = 3) by lia.
    destruct K as [-> | [-> | [-> | ->]]]; cbn [In Z.add] in Hl;
      repeat (destruct Hl as [<- | Hl]); try contradiction;
      eexists; repeat split. }
  destruct Hx as (op & Hd & Hf & He).
  rewrite (dispatch_further resolver t1 body lop op Hb1 Hn2 Hd Hf), He.
  cbn [ip t1 set_store set_sp set_ip]. rewrite E2.
  erewrite load_local_eq with (value := value)
                              (ls := <[Z.to_nat k := value]> ls);
    cycle 1.
  - cbn [store frame set_ip t1 set_store set_sp]. unfold S'.
    eapply lookup_update_eq. exact L.
  - rewrite nth_Z_insert by lia. now rewrite Z.eqb_refl.
  - cbn [sp stack set_ip t1 set_store set_sp]. lia.
  - cbn [sp set_ip t1 set_store set_sp]. lia.
  - cbn [sp stack set_ip t1 set_store set_sp].
    replace (sp t - 1 + 1) with (sp t) by lia.
    rewrite list_insert_id.
    + destruct t. reflexivity.
    + unfold nth_Z in Hv. destruct (sp t - 1 <? 0); [discriminate | exact Hv].
Qed.

Lemma store_then_load_local_witness :
  exists t1,
    dispatch no_classes (running [75; 42] [5]) = Some (Loop, t1) /\
    dispatch no_classes t1 =
    Some (Loop,
          set_ip 2
            (set_store
               (update (program [75; 42]) 3 (Cell.Frame 2 0 0 0 [5; 0]))
               (running [75; 42] [5]))).
Proof.
  apply (store_then_load_local no_classes 0 75 42 (running [75; 42] [5])
           [75; 42] 2 0 0 0 [0; 0] 5).
  - lia.
  - simpl. tauto.
  - simpl. tauto.
  - reflexivity.
  - reflexivity.
  - reflexivity.
  - simpl. lia.
  - reflexivity.
  - simpl. lia.
  - simpl. lia.
  - simpl. lia.
  - reflexivity.
Defined.

Lemma nth_Z_lookup {A} (l : list A) i x :
  nth_Z l i = Some x -> l !! Z.to_nat i = Some x.
Proof. unfold nth_Z. destruct (i <? 0); [discriminate | auto]. Qed.

Lemma nth_Z_eq {A} (l : list A) i :
  0 <= i -> nth_Z l i = l !! Z.to_nat i.
Proof.
  intros H. unfold nth_Z. destruct (i <? 0) eqn:E; [| reflexivity].
  apply Z.ltb_lt in E. lia.
Qed.

Lemma peek_eq n t :
  0 <= sp t - n < 2 ^ 32 -> peek n t = nth_Z (stack t) (sp t - n).
Proof. intros H. unfold peek. now rewrite u32_small. Qed.

Lemma do_swap_eq t x y :
  2 <= sp t <= Z.of_nat (length (stack t)) -> sp t < 2 ^ 32 ->
  nth_Z (stack t) (sp t - 1) = Some x ->
  nth_Z (stack t) (sp t - 2) = Some y ->
  do_swap t =
  Some (Loop,
        set_stack
          (<[Z.to_nat (sp t - 2) := x]> (<[Z.to_nat (sp t - 1) := y]> (stack t)))
          t).
Proof.
  intros Hs Hw Hx Hy. unfold do_swap.
  erewrite bind_Some by (apply read_eq; rewrite peek_eq by lia; exact Hx).
  erewrite bind_Some by (apply read_eq; rewrite peek_eq by lia; exact Hy).
  unfold bind at 1, get at 1. unfold bind at 1, get at 1.
  rewrite !u32_small by lia.
  unfold bind at 1, read at 1. rewrite set_nth_Z_eq by lia.
  unfold bind at 1, read at 1.
  rewrite set_nth_Z_eq by (rewrite length_insert; lia).
  reflexivity.
Qed.

(** X17. [swap] is its own inverse: two [swap]s in a row, on a stack of two
    values or more, leave the thread as it was but for [ip]. *)
Theorem swap_twice_restores resolver t body x y :
  codeBody (code t) t = Some body ->
  nth_Z body (ip t) = Some 95 ->
  nth_Z body (ip t + 1) = Some 95 ->
  ip t + 2 < 2 ^ 32 ->
  2 <= sp t <= Z.of_nat (length (stack t)) ->
  sp t < 2 ^ 32 ->
  nth_Z (stack t) (sp t - 1) = Some x ->
  nth_Z (stack t) (sp t - 2) = Some y ->
  exists t1,
    dispatch resolver t = Some (Loop, t1) /\
    nth_Z (stack t1) (sp t1 - 1) = Some y /\
    nth_Z (stack t1) (sp t1 - 2) = Some x /\
    dispatch resolver t1 = Some (Loop, set_ip (ip t + 2) t).
Proof.
  intros Hb Hn1 Hn2 Hw Hs Hs' Hx Hy.
  pose proof (nth_Z_nonneg _ _ _ Hn1) as Hi0.
  assert (E1 : Word.u32 (ip t + 1) = ip t + 1) by (apply u32_small; lia).
  assert (E2 : Word.u32 (ip t + 1 + 1) = ip t + 2) by (rewrite u32_small; lia).
  set (a := Z.to_nat (sp t - 1)). set (b := Z.to_nat (sp t - 2)).
  assert (Hab : a <> b) by (unfold a, b; lia).
  set (t1 := set_stack (<[b := x]> (<[a := y]> (stack t))) (set_ip (ip t + 1) t)).
  assert (Y1 : nth_Z (stack t1) (sp t1 - 1) = Some y).
  { cbn [stack sp t1 set_stack set_ip]. rewrite nth_Z_eq by lia. fold a.
    rewrite list_lookup_insert_ne by lia.
    apply list_lookup_insert_eq. unfold a. lia. }
  assert (X1 : nth_Z (stack t1) (sp t1 - 2) = Some x).
  { cbn [stack sp t1 set_stack set_ip]. rewrite nth_Z_eq by lia. fold b.
    apply list_lookup_insert_eq. rewrite length_insert. unfold b. lia. }
  exists t1. split; [| split; [exact Y1 | split; [exact X1 |]]].
  - rewrite (dispatch_further resolver t body 95 Op.swap Hb Hn1 eq_refl eq_refl).
    cbn [execute]. rewrite E1.
    erewrite do_swap_eq; [reflexivity | | | exact Hx | exact Hy];
      cbn [sp stack set_ip]; lia.
  - assert (Hb1 : codeBody (code t1) t1 = Some body) by exact Hb.
    rewrite (dispatch_further resolver t1 body 95 Op.swap Hb1 Hn2 eq_refl eq_refl).
    cbn [execute]. cbn [ip t1 set_stack set_ip]. rewrite E2.
    erewrite do_swap_eq with (x := y) (y := x);
      [ | cbn [sp stack set_ip t1 set_stack]; rewrite !length_insert; lia
        | cbn [sp set_ip t1 set_stack]; lia
        | exact Y1 | exact X1 ].
    cbn [sp stack set_ip t1 set_stack]. fold a b.
    f_equal. f_equal.
    rewrite (list_insert_insert_ne _ a b) by lia.
    rewrite !list_insert_insert_eq.
    rewrite (list_insert_id _ a) by (apply nth_Z_lookup; exact Hx).
    rewrite (list_insert_id _ b) by (apply nth_Z_lookup; exact Hy).
    destruct t. reflexivity.
Qed.

Lemma swap_twice_restores_witness :
  exists t1,
    dispatch no_classes (running [95; 95] [5; 7]) = Some (Loop, t1) /\
    nth_Z (stack t1) (sp t1 - 1) = Some 5 /\
    nth_Z (stack t1) (sp t1 - 2) = Some 7 /\
    dispatch no_classes t1 = Some (Loop, set_ip 2 (running [95; 95] [5; 7])).
Proof.
  apply (swap_twice_restores no_classes (running [95; 95] [5; 7]) [95; 95] 7 5).
  - reflexivity.
  - reflexivity.
  - reflexivity.
  - simpl. lia.
  - simpl. lia.
  - simpl. lia.
  - reflexivity.
  - reflexivity.
Defined.

(** *** Constants and arithmetic *)

Lemma alloc_push_eq cell t :
  0 <= sp t < Z.of_nat (length (stack t)) -> sp t + 1 < 2 ^ 32 ->
  (v <- alloc cell ;; push v ;;; ret Loop) t =
  Some (Loop,
        set_sp (sp t + 1)
          (set_stack (<[Z.to_nat (sp t) := fresh (store t)]> (stack t))
             (set_store (store t ++ [cell]) t))).
Proof.
  intros Hs Hw. unfold bind at 1, alloc at 1.
  unfold bind at 1. rewrite push_eq by (cbn [sp stack set_store]; assumption).
  reflexivity.
Qed.

(** X18. [sipush] pushes a boxed int between 0 and 65535: its two operand
    bytes are read as an unsigned 16-bit number, without sign extension. *)
Theorem sipush_pushes_unsigned resolver t body b1 b2 :
  codeBody (code t) t = Some body ->
  nth_Z body (ip t) = Some 17 ->
  nth_Z body (ip t + 1) = Some b1 ->
  nth_Z body (ip t + 2) = Some b2 ->
  ip t + 3 < 2 ^ 32 ->
  0 <= sp t < Z.of_nat (length (stack t)) ->
  sp t + 1 < 2 ^ 32 ->
  dispatch resolver t =
    Some (Loop,
          set_sp (sp t + 1)
            (set_stack (<[Z.to_nat (sp t) := fresh (store t)]> (stack t))
               (set_store
                  (store t ++ [Cell.Int (256 * uint8 b1 + uint8 b2)])
                  (set_ip (ip t + 3) t)))) /\
  0 <= 256 * uint8 b1 + uint8 b2 < 65536.
Proof.
  intros Hb H0 H1 H2 Hw Hs Hs'.
  pose proof (nth_Z_nonneg _ _ _ H0) as Hi0.
  pose proof (uint8_range b1) as R1. pose proof (uint8_range b2) as R2.
  split; [| lia].
  assert (E1 : Word.u32 (ip t + 1) = ip t + 1) by (apply u32_small; lia).
  assert (E2 : Word.u32 (ip t + 1 + 1) = ip t + 2) by (rewrite u32_small; lia).
  assert (E3 : Word.u32 (ip t + 2 + 1) = ip t + 3) by (rewrite u32_small; lia).
  rewrite (dispatch_further resolver t body 17 Op.sipush Hb H0 eq_refl eq_refl).
  cbn [execute]. rewrite E1.
  erewrite bind_Some by
    (apply fetch8_eq with (body := body); cbn [code ip set_ip];
     [exact Hb | exact H1]).
  erewrite bind_Some by
    (apply fetch8_eq with (body := body); cbn [code ip set_ip];
     [exact Hb | rewrite E2; exact H2]).
  cbn [ip set_ip]. rewrite E2, E3.
  rewrite lor_shiftl_bytes by exact R2.
  unfold makeInt. rewrite s32_small by lia.
  rewrite alloc_push_eq by (cbn [sp stack set_ip]; assumption).
  reflexivity.
Qed.

Lemma sipush_pushes_unsigned_witness :
  dispatch no_classes (running [17; 255; 255] []) =
    Some (Loop,
          set_sp 1
            (set_stack [8; 0; 0; 0]
               (set_store (program [17; 255; 255] ++ [Cell.Int 65535])
                  (set_ip 3 (running [17; 255; 255] []))))) /\
  0 <= 65535 < 65536.
Proof.
  apply (sipush_pushes_unsigned no_classes (running [17; 255; 255] [])
           [17; 255; 255] 255 255).
  - reflexivity.
  - reflexivity.
  - reflexivity.
  - reflexivity.
  - simpl. lia.
  - simpl. lia.
  - simpl. lia.
Defined.

Lemma binary_eq (value : object -> Thread -> option Z) f make t a b x y r cell :
  2 <= sp t <= Z.of_nat (length (stack t)) -> sp t < 2 ^ 32 ->
  nth_Z (stack t) (sp t - 1) = Some b ->
  nth_Z (stack t) (sp t - 2) = Some a ->
  value a (set_sp (sp t - 2) (set_sp (sp t - 1) t)) = Some x ->
  value b (set_sp (sp t - 2) (set_sp (sp t - 1) t)) = Some y ->
  f x y = Some r ->
  (forall u, make r u = alloc cell u) ->
  binary value f make t =
  Some (Loop,
        set_sp (sp t - 1)
          (set_stack (<[Z.to_nat (sp t - 2) := fresh (store t)]> (stack t))
             (set_store (store t ++ [cell]) t))).
Proof.
  intros Hs Hw Hb Ha Hx Hy Hf Hm. unfold binary.
  erewrite bind_Some by (apply pop_eq; [lia | exact Hb]).
  erewrite bind_Some by
    (apply pop_eq; cbn [sp stack set_sp];
     [lia | replace (sp t - 1 - 1) with (sp t - 2) by lia; exact Ha]).
  cbn [sp set_sp]. replace (sp t - 1 - 1) with (sp t - 2) by lia.
  erewrite bind_Some by (apply read_eq; exact Hx).
  erewrite bind_Some by (apply read_eq; exact Hy).
  erewrite bind_Some by (apply read_eq; exact Hf).
  unfold bind at 1. rewrite Hm. unfold alloc.
  unfold bind at 1. rewrite push_eq by (cbn [sp stack set_store set_sp]; lia).
  cbn [sp stack store set_store set_sp].
  replace (sp t - 2 + 1) with (sp t - 1) by lia.
  destruct t. reflexivity.
Qed.

Lemma int64_uint64_shift x y :
  0 <= y -> int64 (uint64 (uint64 x * 2 ^ y)) = int64 (x * 2 ^ y).
Proof.
  intros Hy. unfold int64, uint64. f_equal.
  rewrite Z.mul_mod_idemp_l by lia. rewrite Z.add_mod_idemp_l by lia.
  reflexivity.
Qed.

(** X19. [lushr] shifts to the left: for a count [y] from 0 to 63 it pushes
    a boxed long holding [x * 2^y] reduced to 64 bits, which is what a left
    shift of [x] by [y] gives; the operands are popped and their boxes are
    left as they were. *)
Theorem lushr_shifts_left resolver t body a b x y :
  codeBody (code t) t = Some body ->
  nth_Z body (ip t) = Some 125 ->
  ip t + 1 < 2 ^ 32 ->
  2 <= sp t <= Z.of_nat (length (stack t)) ->
  sp t < 2 ^ 32 ->
  nth_Z (stack t) (sp t - 2) = Some a ->
  nth_Z (stack t) (sp t - 1) = Some b ->
  longValue a t = Some x ->
  longValue b t = Some y ->
  0 <= y < 64 ->
  dispatch resolver t =
  Some (Loop,
        set_sp (sp t - 1)
          (set_stack (<[Z.to_nat (sp t - 2) := fresh (store t)]> (stack t))
             (set_store (store t ++ [Cell.Long (int64 (x * 2 ^ y))])
                (set_ip (ip t + 1) t)))).
Proof.
  intros Hb H0 Hw Hs Hs' Ha Hb' Hx Hy Hr.
  pose proof (nth_Z_nonneg _ _ _ H0) as Hi0.
  rewrite (dispatch_further resolver t body 125 Op.lushr Hb H0 eq_refl eq_refl).
  cbn [execute]. rewrite u32_small by lia.
  erewrite binary_eq with (a := a) (b := b) (x := x) (y := y)
                          (cell := Cell.Long (int64 (x * 2 ^ y)));
    [reflexivity | exact Hs | exact Hs' | exact Hb' | exact Ha | exact Hx
    | exact Hy | | ].
  - destruct ((0 <=? y) && (y <? 64)) eqn:E; [reflexivity |].
    apply andb_false_iff in E. destruct E as [E | E];
      [apply Z.leb_gt in E | apply Z.ltb_ge in E]; lia.
  - intros u. unfold makeLong. fold (int64 (uint64 (uint64 x * 2 ^ y))).
    now rewrite int64_uint64_shift by lia.
Qed.

Lemma lushr_shifts_left_witness :
  dispatch no_classes (with_longs [125] [8; 9] 1 1) =
  Some (Loop,
        set_sp 1
          (set_stack [10; 9; 0; 0; 0; 0]
             (set_store (program [125] ++ [Cell.Long 1; Cell.Long 1; Cell.Long 2])
                (set_ip 1 (with_longs [125] [8; 9] 1 1))))).
Proof.
  apply (lushr_shifts_left no_classes (with_longs [125] [8; 9] 1 1) [125] 8 9 1 1).
  - reflexivity.
  - reflexivity.
  - simpl. lia.
  - simpl. lia.
  - simpl. lia.
  - reflexivity.
  - reflexivity.
  - reflexivity.
  - reflexivity.
  - lia.
Defined.

(** ** Exceptions that no frame catches *)

Lemma uncaught_eq uninit t method c maxLocals :
  threadExceptionHandler (thread t) t = Some method ->
  methodCode method t = Some c ->
  codeMaxLocals c t = Some maxLocals ->
  (0 < length (stack t))%nat ->
  uncaught uninit t = Some (Loop, delivered uninit t method c maxLocals).
Proof.
  intros Hh Hm Hl Hs. unfold uncaught.
  unfold bind at 1, get at 1.
  erewrite bind_Some by (apply read_eq; exact Hh).
  erewrite bind_Some by (apply read_eq; exact Hm).
  unfold bind at 1, modify at 1.
  erewrite bind_Some by (apply read_eq; exact Hl).
  unfold bind at 1, makeFrame, alloc.
  unfold bind, modify, get, push, ret.
  cbn [sp stack set_sp set_ip set_frame set_store set_code].
  rewrite set_nth_Z_eq by lia. reflexivity.
Qed.

Lemma passes_same t t' x :
  store t = store t' -> exception t = exception t' ->
  passes t x -> passes t' x.
Proof.
  intros Hs He (c & table & Hh & Hf). exists c, table. split.
  - rewrite <- Hh. unfold handlers, frameMethod, methodCode,
      codeExceptionHandlerTable, exceptionHandlerTableBody, cell_at.
    now rewrite Hs.
  - eapply List.Forall_impl; [| exact Hf]. intros eh H.
    rewrite <- H. symmetry. now apply catches_same.
Qed.

Lemma unwind_uncaught uninit method c maxLocals : forall fs fuel t,
  chain (store t) (frame t) fs ->
  (length fs <= fuel)%nat ->
  Forall (passes t) fs ->
  threadExceptionHandler (thread t) t = Some method ->
  methodCode method t = Some c ->
  codeMaxLocals c t = Some maxLocals ->
  (0 < length (stack t))%nat ->
  unwind uninit fuel t = Some (Loop, delivered uninit t method c maxLocals).
Proof.
  induction fs as [| [[a m] i] fs IH]; intros fuel t C Hf Hp Hh Hm Hl Hs.
  - simpl in C.
    assert (E : unwind uninit fuel t = uncaught uninit t).
    { destruct fuel; cbn [unwind]; unfold bind at 1, get at 1; rewrite C;
        reflexivity. }
    rewrite E. now apply uncaught_eq.
  - simpl in C. destruct C as [Ea (n & b & l & L & C)].
    destruct fuel as [| fuel]; [simpl in Hf; lia |].
    pose proof (lookup_Some_pos _ _ _ L) as Pa.
    inversion Hp as [| x xs [c' [table' [Hh' Hn']]] Hp']; subst x xs.
    cbn [unwind]. unfold bind at 1, get at 1. rewrite Ea.
    destruct (a =? 0) eqn:E0; [apply Z.eqb_eq in E0; lia |].
    erewrite bind_Some
      by (eapply scan_frame_eq; [exact Hh' | apply find_handler_none; assumption]).
    cbv beta iota.
    unfold bind at 1, read at 1, frameNext, cell_at. cbn [store set_code].
    rewrite L. unfold bind at 1, modify at 1.
    rewrite (IH fuel (set_frame n (set_code c' t))).
    + reflexivity.
    + exact C.
    + simpl in Hf. lia.
    + eapply List.Forall_impl; [| exact Hp'].
      intros x. apply passes_same; reflexivity.
    + exact Hh.
    + exact Hm.
    + exact Hl.
    + exact Hs.
Qed.

(** X20. An exception that no frame of the thread catches is given to the
    method that the thread object names for uncaught exceptions: [throw_:]
    leaves every frame, makes a frame without a caller for that method,
    whose locals it does not assign, and goes back to the dispatch loop at
    [ip] 0 of its code with the exception alone on the operand stack and
    [t->exception] cleared. *)
Theorem uncaught_exception_reaches_thread_handler
    uninit t fs method c maxLocals :
  chain (store t) (frame t) fs ->
  Forall (passes t) fs ->
  threadExceptionHandler (thread t) t = Some method ->
  methodCode method t = Some c ->
  codeMaxLocals c t = Some maxLocals ->
  (0 < length (stack t))%nat ->
  throw_ uninit t = Some (Loop, delivered uninit t method c maxLocals).
Proof.
  intros C Hp Hh Hm Hl Hs. unfold throw_.
  unfold bind at 1, get at 1.
  apply unwind_uncaught with (fs := fs); try assumption.
  eapply chain_length; eauto.
Qed.

Lemma uncaught_exception_reaches_thread_handler_witness :
  throw_ zeroed unhandled =
  Some (Loop,
        mkThread Coordinator.ActiveState 5 8 6 0 0 1 0 [4; 0; 0; 0] None
          (store unhandled ++ [Cell.Frame 7 0 0 0 [0]])).
Proof.
  apply (uncaught_exception_reaches_thread_handler zeroed unhandled
           [(3, 2, 0)] 7 6 1).
  - simpl. split; [reflexivity |]. exists 0, 0, [0; 0]. split; reflexivity.
  - constructor; [| constructor]. exists 1, []. split; [reflexivity | constructor].
  - reflexivity.
  - reflexivity.
  - reflexivity.
  - simpl. lia.
Defined.

(** ** Calls and returns *)

Lemma fresh_update h o c : fresh (update h o c) = fresh h.
Proof. unfold fresh. now rewrite length_update. Qed.

Lemma update_fresh h c c' : update (h ++ [c]) (fresh h) c' = h ++ [c'].
Proof.
  unfold update, fresh.
  replace (Z.to_nat (Z.of_nat (length h) + 1 - 1)) with (length h + 0)%nat by lia.
  rewrite insert_app_r. reflexivity.
Qed.

(** What an invocation that enters the method has found and done. *)
Lemma invoke_inv w uninit k t t' :
  invoke w uninit k t = Some (Loop, t') ->
  exists mc maxLocals m n i0 b l locals,
    methodCode (code t) t = Some mc /\
    lookup (store t) (frame t) = Some (Cell.Frame m n i0 b l) /\
    codeMaxLocals mc t = Some maxLocals /\
    memcpy w (map uninit (seq 0 (Z.to_nat maxLocals)))
      (skipn (Z.to_nat (Word.u32 (sp t - k))) (stack t)) k = Some locals /\
    t' = called t k m n b l locals.
Proof.
  intros H. unfold invoke in H.
  unfold bind at 1, get at 1 in H.
  inv_bind H. apply read_inv in H0. destruct H0 as [Hm ->].
  inv_bind H. apply read_inv in H0. destruct H0 as [Hs ->].
  unfold bind at 1, get at 1 in H.
  destruct (StackSize <? Word.u32 (a0 + sp t - k)).
  { inv_bind H. unfold throw, bind, modify, ret in H. inversion H. }
  unfold bind at 1, get at 1 in H. unfold bind at 1, get at 1 in H.
  inv_bind H. unfold set_frameIp, cell_at in H0.
  destruct (lookup (store t) (frame t)) as [[] |] eqn:L; try discriminate.
  unfold write in H0. rewrite L in H0. inversion H0; subst; clear H0.
  unfold bind at 1, modify at 1 in H. unfold bind at 1, get at 1 in H.
  inv_bind H. apply read_inv in H0. destruct H0 as [Hl ->].
  unfold bind at 1, makeFrame at 1, alloc at 1 in H.
  unfold bind at 1, modify at 1 in H.
  inv_bind H. apply read_inv in H0. destruct H0 as [Hf ->].
  unfold frameLocals, cell_at in Hf. cbn [store set_frame set_store] in Hf.
  rewrite lookup_fresh in Hf. inversion Hf; subst; clear Hf.
  unfold bind at 1, get at 1 in H.
  inv_bind H. apply read_inv in H0. destruct H0 as [Hc ->].
  inv_bind H. unfold set_frameLocals, cell_at in H0.
  cbn [store set_frame set_store] in H0. rewrite lookup_fresh in H0.
  unfold write in H0. cbn [store set_frame set_store] in H0.
  rewrite lookup_fresh in H0. inversion H0; subst; clear H0.
  unfold bind, modify, ret in H. inversion H; subst; clear H.
  pose proof (lookup_Some_pos _ _ _ L) as Pf.
  assert (Hl' : codeMaxLocals a t = Some a1).
  { unfold codeMaxLocals, cell_at in *. cbn [store set_sp set_store] in Hl.
    destruct (Z.eq_dec a (frame t)) as [-> | Hne].
    - erewrite lookup_update_eq in Hl by exact L. discriminate.
    - destruct (lookup (update (store t) (frame t) _) a) eqn:La;
        [| discriminate].
      pose proof (lookup_Some_pos _ _ _ La) as Pa.
      rewrite lookup_update_ne in La by (try lia; congruence).
      now rewrite La. }
  exists a, a1, method, next, ip0, stackBase, locals, a2.
  repeat split; try assumption.
  unfold called. cbn [sp set_sp set_store set_frame set_ip stack frame store
                      state thread code exception heapIndex protector].
  rewrite update_fresh, fresh_update. reflexivity.
Qed.

Lemma lookup_called t k m n b l locals i0 :
  lookup (store t) (frame t) = Some (Cell.Frame m n i0 b l) ->
  (lookup (store (called t k m n b l locals)) (frame t)
     = Some (Cell.Frame m n (ip t) b l)) /\
  (forall o c, lookup (store t) o = Some c -> o <> frame t ->
     lookup (store (called t k m n b l locals)) o = Some c).
Proof.
  intros L. pose proof (lookup_Some_pos _ _ _ L) as Pf.
  unfold called. cbn [store]. split.
  - apply lookup_app. eapply lookup_update_eq. exact L.
  - intros o c Lo Hne. apply lookup_app.
    rewrite lookup_update_ne; [exact Lo | exact Pf | | congruence].
    eapply lookup_Some_pos. exact Lo.
Qed.

(** X21. A return executed in a frame that has a caller ([return_],
    [areturn], [ireturn] or [lreturn]) makes the caller's frame the current
    one, [t->code] the code of the caller's method and [ip] the one that
    the caller's frame holds.  Nothing else changes: [sp] is not set back
    to the stack base of the frame that is left and nothing is popped or
    pushed, so the value of a valued return is what is on top of the stack,
    and the frame that is left stays in the store. *)
Theorem return_resumes_caller resolver t body b n m n' i s l c :
  codeBody (code t) t = Some body ->
  nth_Z body (ip t) = Some b ->
  In b [172; 173; 176; 177] ->
  frameNext (frame t) t = Some n ->
  lookup (store t) n = Some (Cell.Frame m n' i s l) ->
  methodCode m t = Some c ->
  dispatch resolver t =
    Some (Loop,
          mkThread (state t) (thread t) n c (exception t) i (sp t)
            (heapIndex t) (stack t) (protector t) (store t)).
Proof.
  intros Hb Hn Hin Hf L Hc.
  pose proof (lookup_Some_pos _ _ _ L) as Pn.
  assert (E : exists valued,
            dispatch resolver t
            = do_return valued (set_ip (Word.u32 (ip t + 1)) t)).
  { cbn [In] in Hin.
    destruct Hin as [<- | [<- | [<- | [<- | []]]]];
      [exists true | exists true | exists true | exists false];
      now rewrite (dispatch_further resolver t body _ _ Hb Hn eq_refl eq_refl). }
  destruct E as [valued ->].
  unfold do_return. unfold bind at 1, get at 1.
  erewrite bind_Some by (apply read_eq; exact Hf).
  unfold bind at 1, modify at 1.
  replace (n =? 0) with false by (symmetry; apply Z.eqb_neq; lia).
  cbn [negb].
  erewrite bind_Some; cycle 1.
  { apply read_eq. unfold frameMethod, cell_at. cbn [store set_frame set_ip].
    rewrite L. reflexivity. }
  erewrite bind_Some by (apply read_eq; exact Hc).
  unfold bind at 1, modify at 1.
  erewrite bind_Some; cycle 1.
  { apply read_eq. unfold frameIp, cell_at.
    cbn [store set_frame set_ip set_code]. rewrite L. reflexivity. }
  reflexivity.
Qed.

Lemma return_resumes_caller_witness :
  dispatch no_classes returning_to_caller =
    Some (Loop,
          mkThread (state returning_to_caller) (thread returning_to_caller)
            3 1 (exception returning_to_caller) 9 (sp returning_to_caller)
            (heapIndex returning_to_caller) (stack returning_to_caller)
            (protector returning_to_caller) (store returning_to_caller)).
Proof.
  apply (return_resumes_caller no_classes returning_to_caller [172] 172
           3 2 0 9 0 [0; 0] 1).
  all: try reflexivity.
  cbn. tauto.
Defined.

(** X22. [invoke:] never assigns [t->code]: in the method it has entered,
    [t->code] still names the method that was called, not its code, so the
    next round of the loop finds no bytecode there, whatever that method
    is. *)
Theorem invoke_leaves_code_at_method w uninit k resolver t t1 :
  invoke w uninit k t = Some (Loop, t1) ->
  code t1 = code t /\ codeBody (code t1) t1 = None /\
  dispatch resolver t1 = None.
Proof.
  intros H. apply invoke_inv in H.
  destruct H as (mc & maxLocals & m & n & i0 & b & l & locals
                 & Hmc & L & Hl & Hcp & ->).
  destruct (lookup_called t k m n b l locals i0 L) as [Lf Lo].
  assert (B : codeBody (code t) (called t k m n b l locals) = None).
  { unfold methodCode, cell_at in Hmc. unfold codeBody, cell_at.
    destruct (lookup (store t) (code t)) as [c |] eqn:Lc; [| discriminate].
    rewrite (Lo _ _ Lc).
    - destruct c; try discriminate. reflexivity.
    - intros E. rewrite E, L in Lc. inversion Lc; subst. discriminate. }
  split; [reflexivity |]. split; [exact B |].
  unfold dispatch. unfold bind at 1, get at 1.
  unfold bind at 1, read at 1. cbn [code called] in *. now rewrite B.
Qed.

Lemma invoke_leaves_code_at_method_witness :
  code entered = code calling /\ codeBody (code entered) entered = None /\
  dispatch no_classes entered = None.
Proof.
  apply (invoke_leaves_code_at_method 8 zeroed 2 no_classes calling entered).
  reflexivity.
Defined.

(** ** Exceptions of the further cases *)

(** [makeString] followed by the constructor of a throwable with a message
    and [goto throw_]. *)
Lemma message_thrown x text t m i0 fs n b l :
  chain (store t) (frame t) ((frame t, m, i0) :: fs) ->
  lookup (store t) (frame t) = Some (Cell.Frame m n i0 b l) ->
  exists t',
    (message <- makeString text ;;
     e <- makeThrown x message ;;
     throw e) t = Some (Throw, t') /\
    thrown (exception t') t' = Some (x, Some (c_bytes text)) /\
    sp t' = sp t /\ ip t' = ip t /\ stack t' = stack t.
Proof.
  intros C L.
  pose proof (lookup_Some_bound _ _ _ L) as Bf.
  unfold bind at 1. rewrite makeString_eq.
  set (h1 := store t ++ _).
  unfold bind at 1.
  erewrite makeThrown_eq with (m := m) (i := i0) (fs := fs) (n := n) (b := b) (l := l);
    cycle 1.
  { cbn [store set_store frame]. apply chain_app. exact C. }
  { cbn [store set_store frame]. apply lookup_app. exact L. }
  unfold throw, bind, modify, ret. eexists. split; [reflexivity |].
  split; [| repeat split].
  cbn [exception set_exception store set_store frame set_frame ip].
  unfold thrown, byteArrayBody, cell_at.
  cbn [store set_exception set_frame set_store].
  replace (fresh h1 + Z.of_nat (length fs) + 1)
    with (fresh (traced (set_store h1 t) m n b l fs))
    by (rewrite fresh_traced; reflexivity).
  rewrite lookup_fresh.
  destruct (fresh (store t) + 1 =? 0) eqn:E;
    [apply Z.eqb_eq in E; unfold fresh in E; lia |].
  erewrite lookup_traced_old; cycle 1.
  { cbn [store set_store]. apply lookup_fresh_next. }
  { cbn [frame set_store]. unfold fresh. lia. }
  { cbn [frame set_store]. lia. }
  cbv beta iota.
  erewrite lookup_traced_old; cycle 1.
  { cbn [store set_store]. apply lookup_fresh. }
  { cbn [frame set_store]. unfold fresh. lia. }
  { cbn [frame set_store]. lia. }
  simpl skipn. rewrite Nat2Z.id, firstn_all. reflexivity.
Qed.

Lemma c_bytes_format_d c : c_bytes (format_d c) = format_d c ++ [0].
Proof.
  unfold c_bytes. f_equal. destruct (format_d_spec c) as [F Hl].
  rewrite firstn_all2 by lia. now apply until_nul_id.
Qed.

(** X23. [newarray] and [anewarray] with a negative count on the stack: the
    count is popped and the case ends in [throw_] with [t->exception] a
    NegativeArrayStoreException whose message is the count in decimal and
    its closing NUL; the bytes after the opcode, the element type or the
    index of the class, are not read. *)
Theorem negative_array_count_throws resolver t body b count c m i0 fs :
  codeBody (code t) t = Some body ->
  nth_Z body (ip t) = Some b ->
  b = 188 \/ b = 189 ->
  1 <= sp t < 2 ^ 32 ->
  nth_Z (stack t) (sp t - 1) = Some count ->
  intValue count t = Some c ->
  c < 0 ->
  chain (store t) (frame t) ((frame t, m, i0) :: fs) ->
  exists t',
    dispatch resolver t = Some (Throw, t') /\
    thrown (exception t') t' =
      Some (NegativeArrayStoreException, Some (format_d c ++ [0])) /\
    sp t' = sp t - 1 /\ ip t' = Word.u32 (ip t + 1).
Proof.
  intros Hb Hn Ho Hs Hc Hv Hneg C.
  pose proof C as C0. simpl in C0. destruct C0 as [_ (n & b0 & l & L & _)].
  assert (E : dispatch resolver t
              = negative_count c
                  (set_sp (sp t - 1) (set_ip (Word.u32 (ip t + 1)) t))).
  { destruct Ho as [-> | ->].
    - erewrite dispatch_further by (try exact Hb; try exact Hn; reflexivity).
      cbn [execute]. unfold do_newarray.
      erewrite bind_Some by (apply pop_eq; cbn [sp set_ip stack]; [lia | exact Hc]).
      erewrite bind_Some by (apply read_eq; exact Hv).
      replace (0 <=? c) with false by (symmetry; apply Z.leb_gt; lia).
      reflexivity.
    - erewrite dispatch_further by (try exact Hb; try exact Hn; reflexivity).
      cbn [execute]. unfold do_anewarray.
      erewrite bind_Some by (apply pop_eq; cbn [sp set_ip stack]; [lia | exact Hc]).
      erewrite bind_Some by (apply read_eq; exact Hv).
      replace (0 <=? c) with false by (symmetry; apply Z.leb_gt; lia).
      reflexivity. }
  rewrite E. unfold negative_count, makeNegativeArrayStoreException.
  rewrite <- c_bytes_format_d.
  destruct (message_thrown NegativeArrayStoreException (format_d c)
              (set_sp (sp t - 1) (set_ip (Word.u32 (ip t + 1)) t))
              m i0 fs n b0 l) as (t' & R & T & S & I & _).
  - exact C.
  - exact L.
  - exists t'. repeat split; assumption.
Qed.

Lemma negative_array_count_throws_witness :
  exists t',
    dispatch no_classes
      (set_store (program [188; 10] ++ [Cell.Int (-3)])
         (running [188; 10] [8]))
      = Some (Throw, t') /\
    thrown (exception t') t' =
      Some (NegativeArrayStoreException, Some (format_d (-3) ++ [0])) /\
    sp t' = 1 - 1 /\ ip t' = Word.u32 (0 + 1).
Proof.
  apply (negative_array_count_throws no_classes
           (set_store (program [188; 10] ++ [Cell.Int (-3)])
              (running [188; 10] [8]))
           [188; 10] 188 8 (-3) 2 0 []).
  - reflexivity.
  - reflexivity.
  - left; reflexivity.
  - cbn; lia.
  - reflexivity.
  - reflexivity.
  - lia.
  - cbn. split; [reflexivity |]. exists 0, 0, [0; 0]. split; reflexivity.
Defined.

(** A slot of the pool that holds a class already is returned as it is. *)
Lemma resolveClass_resolved resolver pool index t body o ty :
  rawArrayBody pool t = Some body ->
  nth_Z body index = Some o ->
  typeOf o t = Some ty ->
  ty <> ByteArrayType ->
  resolveClass resolver pool index t = Some (o, t).
Proof.
  intros Hb Hn Ht Hty. unfold resolveClass.
  erewrite bind_Some by (apply read_eq; exact Hb).
  erewrite bind_Some by (apply read_eq; exact Hn).
  erewrite bind_Some by (apply read_eq; exact Ht).
  destruct ty; try reflexivity. congruence.
Qed.

(** X24. [checkcast] of a reference that is not null to a class that the
    pool holds resolved and that the object is no instance of: the case
    ends in [throw_] with [t->exception] a ClassCastException whose message
    is the name of the object's class, [" as "], the name of the class of
    the cast, and the closing NUL, cut to the 254 characters of the buffer;
    the reference stays on the operand stack. *)
Theorem checkcast_failure_throws resolver t body index1 index2 o pool pbody
    class_ ty oc n1 b1 s1 n2 b2 s2 m i0 fs :
  codeBody (code t) t = Some body ->
  0 <= ip t ->
  ip t + 3 < 2 ^ 32 ->
  nth_Z body (ip t) = Some 192 ->
  nth_Z body (ip t + 1) = Some index1 ->
  nth_Z body (ip t + 2) = Some index2 ->
  peek 1 t = Some o ->
  o <> 0 ->
  exception t = 0 ->
  codePool (code t) t = Some pool ->
  rawArrayBody pool t = Some pbody ->
  nth_Z pbody (Word.u16 (Z.lor (Z.shiftl index1 8) index2)) = Some class_ ->
  typeOf class_ t = Some ty ->
  ty <> ByteArrayType ->
  instanceOf class_ o t = Some false ->
  objectClass o t = Some oc ->
  className oc t = Some n1 ->
  byteArrayBody n1 t = Some b1 ->
  c_string b1 = Some s1 ->
  className class_ t = Some n2 ->
  byteArrayBody n2 t = Some b2 ->
  c_string b2 = Some s2 ->
  chain (store t) (frame t) ((frame t, m, i0) :: fs) ->
  exists t',
    step resolver t = Some (Throw, t') /\
    thrown (exception t') t' =
      Some (ClassCastException, Some (c_bytes (cast_text s1 s2))) /\
    sp t' = sp t /\ stack t' = stack t.
Proof.
  intros Hb Hi0 Hi1 H0 H1 H2 Hp Ho He Hcp Hpb Hcl Hty Hne Hin Hoc Hn1 Hb1 Hs1
         Hn2 Hb2 Hs2 C.
  pose proof C as C0. simpl in C0. destruct C0 as [_ (n & b0 & l & L & _)].
  assert (E1 : Word.u32 (ip t + 1) = ip t + 1) by (apply u32_small; lia).
  assert (E2 : Word.u32 (ip t + 1 + 1) = ip t + 2) by (rewrite u32_small; lia).
  assert (E3 : Word.u32 (ip t + 2 + 1) = ip t + 3) by (rewrite u32_small; lia).
  unfold step.
  rewrite (bind_Some _ _ _ _ _ (fetch_eq _ _ _ Hb H0)).
  cbn [decode]. unfold do_checkcast.
  erewrite bind_Some by
    (apply fetch_eq with (body := body); cbn [code ip set_ip];
     [exact Hb | rewrite E1; exact H1]).
  erewrite bind_Some by
    (apply fetch_eq with (body := body); cbn [code ip set_ip];
     [exact Hb | rewrite E1, E2; exact H2]).
  cbn [ip set_ip]. rewrite E1, E2, E3.
  set (t2 := set_ip (ip t + 3) (set_ip (ip t + 2) (set_ip (ip t + 1) t))).
  erewrite bind_Some by (apply read_eq; exact Hp).
  replace (o =? 0) with false by (symmetry; apply Z.eqb_neq; exact Ho).
  cbn [negb]. unfold bind at 1, get at 1.
  erewrite bind_Some by (apply read_eq; exact Hcp).
  erewrite bind_Some
    by (eapply resolveClass_resolved; [exact Hpb | exact Hcl | exact Hty | exact Hne]).
  unfold bind at 1, get at 1.
  replace (exception t2) with 0 by (symmetry; exact He).
  cbn [Z.eqb negb].
  erewrite bind_Some by (apply read_eq; exact Hp).
  erewrite bind_Some
    by (apply read_eq; rewrite (instanceOf_same t2 t eq_refl); exact Hin).
  cbn [negb].
  erewrite bind_Some by (apply read_eq; exact Hoc).
  erewrite bind_Some by (apply read_eq; exact Hn1).
  erewrite bind_Some by (apply read_eq; exact Hb1).
  erewrite bind_Some by (apply read_eq; exact Hs1).
  erewrite bind_Some by (apply read_eq; exact Hn2).
  erewrite bind_Some by (apply read_eq; exact Hb2).
  erewrite bind_Some by (apply read_eq; exact Hs2).
  destruct (message_thrown ClassCastException (cast_text s1 s2) t2
              m i0 fs n b0 l) as (t' & R & T & S & _ & K).
  - exact C.
  - exact L.
  - exists t'. split; [exact R |]. split; [exact T |]. split; assumption.
Qed.

Lemma checkcast_failure_throws_witness :
  exists t',
    step no_classes casting = Some (Throw, t') /\
    thrown (exception t') t' =
      Some (ClassCastException, Some (c_bytes (cast_text [65] [66]))) /\
    sp t' = sp casting /\ stack t' = stack casting.
Proof.
  apply (checkcast_failure_throws no_classes casting [192; 0; 1] 0 1 9 8
           [0; 7] 7 ClassType 6 4 [65; 0] [65] 5 [66; 0] [66] 2 0 []).
  all: try reflexivity.
  - lia.
  - discriminate.
  - cbn. split; [reflexivity |]. exists 0, 0, [0; 0]. split; reflexivity.
Defined.

(** ** Subroutines *)

Lemma codeBody_app o t t' x body :
  codeBody o t = Some body -> store t' = store t ++ x ->
  codeBody o t' = Some body.
Proof.
  unfold codeBody, cell_at. intros H E. rewrite E.
  destruct (lookup (store t) o) as [c |] eqn:L; [| discriminate].
  now rewrite (lookup_app _ x _ _ L).
Qed.

Lemma set_local_eq k value t m n i b ls :
  lookup (store t) (frame t) = Some (Cell.Frame m n i b ls) ->
  0 <= k < Z.of_nat (length ls) ->
  set_local k value t =
  Some (tt,
        set_store
          (update (store t) (frame t)
             (Cell.Frame m n i b (<[Z.to_nat k := value]> ls))) t).
Proof.
  intros L Hk. unfold set_local. unfold bind at 1, get at 1.
  unfold bind at 1, read at 1, frameLocals, cell_at. rewrite L.
  unfold bind at 1, read at 1. rewrite set_nth_Z_eq by exact Hk.
  unfold set_frameLocals, cell_at, write. now rewrite L.
Qed.

Lemma local_eq k t m n i b ls value :
  lookup (store t) (frame t) = Some (Cell.Frame m n i b ls) ->
  nth_Z ls k = Some value ->
  local k t = Some (value, t).
Proof.
  intros L Hv. unfold local. unfold bind at 1, get at 1.
  unfold bind at 1, read at 1, frameLocals, cell_at. rewrite L.
  unfold read. now rewrite Hv.
Qed.

(** X25. A subroutine returns to the instruction after its [jsr]: when the
    [jsr] at address [a] leads to [astore k] and [ret k], the address that
    [jsr] pushes is [a + 3], [astore] puts it into the local variable, and
    [ret] continues there, in the same frame and with the operand stack at
    the height it had before the [jsr]. *)
Theorem subroutine_returns_after_jsr resolver t body o1 o2 k m n i b ls :
  codeBody (code t) t = Some body ->
  nth_Z body (ip t) = Some 168 ->
  nth_Z body (ip t + 1) = Some o1 ->
  nth_Z body (ip t + 2) = Some o2 ->
  0 <= o1 < 256 -> 0 <= o2 < 256 ->
  nth_Z body (ip t + 2 + (256 * o1 + o2)) = Some 58 ->
  nth_Z body (ip t + 2 + (256 * o1 + o2) + 1) = Some k ->
  nth_Z body (ip t + 2 + (256 * o1 + o2) + 2) = Some 169 ->
  nth_Z body (ip t + 2 + (256 * o1 + o2) + 3) = Some k ->
  ip t + 65541 < 2 ^ 31 ->
  lookup (store t) (frame t) = Some (Cell.Frame m n i b ls) ->
  0 <= k < Z.of_nat (length ls) ->
  0 <= sp t < Z.of_nat (length (stack t)) ->
  sp t + 1 < 2 ^ 32 ->
  exists t1 t2 t3,
    dispatch resolver t = Some (Loop, t1) /\
    dispatch resolver t1 = Some (Loop, t2) /\
    dispatch resolver t2 = Some (Loop, t3) /\
    intValue (fresh (store t)) t1 = Some (ip t + 3) /\
    peek 1 t1 = Some (fresh (store t)) /\
    ip t3 = ip t + 3 /\ sp t3 = sp t /\ frame t3 = frame t /\
    code t3 = code t.
Proof.
  intros Hb N0 N1 N2 R1 R2 M0 M1 M2 M3 Hw L Hk Hs Hs'.
  pose proof (nth_Z_nonneg _ _ _ N0) as Hi0.
  pose proof (lookup_Some_bound _ _ _ L) as Bf.
  set (d := ip t + 2 + (256 * o1 + o2)) in *.
  set (r := fresh (store t)).
  set (h1 := store t ++ [Cell.Int (ip t + 3)]).
  set (t1 := set_ip d
               (set_sp (sp t + 1)
                  (set_stack (<[Z.to_nat (sp t) := r]> (stack t))
                     (set_store h1 t)))).
  set (h2 := update h1 (frame t)
               (Cell.Frame m n i b (<[Z.to_nat k := r]> ls))).
  set (t2 := set_store h2 (set_ip (d + 2) (set_sp (sp t) t1))).
  set (t3 := set_ip (ip t + 3) t2).
  assert (E1 : Word.u32 (ip t + 1) = ip t + 1) by (apply u32_small; lia).
  assert (E2 : Word.u32 (ip t + 1 + 1) = ip t + 2) by (rewrite u32_small; lia).
  assert (E3 : Word.u32 (ip t + 2 + 1) = ip t + 3) by (rewrite u32_small; lia).
  assert (L1 : lookup h1 (frame t) = Some (Cell.Frame m n i b ls))
    by (apply lookup_app; exact L).
  assert (Lr : lookup h1 r = Some (Cell.Int (ip t + 3)))
    by apply lookup_fresh.
  assert (Hne : r <> frame t) by (unfold r, fresh; lia).
  exists t1, t2, t3.
  assert (D1 : dispatch resolver t = Some (Loop, t1)).
  { erewrite dispatch_further by (try exact Hb; try exact N0; reflexivity).
    cbn [execute].
    erewrite bind_Some by
      (apply fetch8_eq with (body := body); cbn [code ip set_ip];
       [exact Hb | rewrite E1; exact N1]).
    erewrite bind_Some by
      (apply fetch8_eq with (body := body); cbn [code ip set_ip];
       [exact Hb | rewrite E1, E2; exact N2]).
    cbn [ip set_ip]. rewrite E1, E2, E3, !uint8_small by assumption.
    unfold do_jsr. unfold bind at 1, get at 1. cbn [ip set_ip].
    unfold bind at 1, makeInt, alloc. cbn [store set_ip].
    rewrite s32_small by lia.
    unfold bind at 1. rewrite push_eq by (cbn [sp stack set_store set_ip]; assumption).
    unfold bind at 1, branch, bind, get, modify, ret.
    cbn [ip sp stack set_sp set_stack set_store set_ip].
    rewrite lor_shiftl_bytes by assumption.
    replace (Word.u32 (ip t + 3 - 1 + (256 * o1 + o2))) with d
      by (rewrite u32_small; unfold d; lia).
    reflexivity. }
  assert (B1 : codeBody (code t1) t1 = Some body)
    by (eapply codeBody_app; [exact Hb | reflexivity]).
  assert (D2 : dispatch resolver t1 = Some (Loop, t2)).
  { erewrite dispatch_further by (try exact B1; try exact M0; reflexivity).
    cbn [execute].
    erewrite bind_Some; cycle 1.
    { apply pop_eq; unfold t1; cbn [sp stack set_ip set_sp set_stack]; [lia |].
      replace (sp t + 1 - 1) with (sp t) by lia.
      rewrite nth_Z_insert by lia. now rewrite Z.eqb_refl. }
    erewrite bind_Some; cycle 1.
    { apply fetch_eq with (body := body); [exact B1 |].
      unfold t1. cbn [ip set_ip set_sp]. rewrite u32_small by (unfold d; lia).
      exact M1. }
    erewrite bind_Some; cycle 1.
    { apply set_local_eq with (m := m) (n := n) (i := i) (b := b) (ls := ls);
        [exact L1 | exact Hk]. }
    unfold ret, t1. cbn [ip sp frame store set_ip set_sp set_stack set_store].
    rewrite (u32_small (d + 1)) by (unfold d; lia).
    rewrite (u32_small (d + 1 + 1)) by (unfold d; lia).
    replace (d + 1 + 1) with (d + 2) by lia.
    replace (sp t + 1 - 1) with (sp t) by lia.
    reflexivity. }
  assert (B2 : codeBody (code t2) t2 = Some body).
  { eapply codeBody_frame_update with (t := t1); [exact L1 | exact B1 |].
    reflexivity. }
  assert (D3 : dispatch resolver t2 = Some (Loop, t3)).
  { erewrite dispatch_further by (try exact B2; try exact M2; reflexivity).
    cbn [execute]. unfold bind at 1, get at 1.
    erewrite bind_Some by (apply read_eq; exact B2).
    unfold bind at 1, get at 1. unfold t2 at 1 2. cbn [ip set_ip set_store].
    rewrite u32_small by (unfold d; lia).
    replace (d + 2 + 1) with (d + 3) by lia.
    erewrite bind_Some by (apply read_eq; exact M3).
    unfold do_ret.
    erewrite bind_Some; cycle 1.
    { apply local_eq with (m := m) (n := n) (i := i) (b := b)
                          (ls := <[Z.to_nat k := r]> ls).
      - unfold t2, t1. cbn [store frame set_ip set_sp set_stack set_store].
        unfold h2. erewrite lookup_update_eq by exact L1. reflexivity.
      - rewrite nth_Z_insert by lia. now rewrite Z.eqb_refl. }
    erewrite bind_Some; cycle 1.
    { apply read_eq. unfold intValue, cell_at, t2.
      cbn [store set_ip set_store]. unfold h2.
      rewrite lookup_update_ne by (unfold r, fresh in *; lia). now rewrite Lr. }
    unfold bind, modify, ret. rewrite u32_small by lia. reflexivity. }
  repeat split; try assumption.
  - unfold intValue, cell_at, t1. cbn [store set_ip set_sp set_stack set_store].
    fold h1. now rewrite Lr.
  - rewrite peek_eq by (unfold t1; cbn [sp set_ip set_sp]; lia).
    unfold t1. cbn [sp stack set_ip set_sp set_stack].
    replace (sp t + 1 - 1) with (sp t) by lia.
    rewrite nth_Z_insert by lia. now rewrite Z.eqb_refl.
Qed.

Lemma subroutine_returns_after_jsr_witness :
  exists t1 t2 t3,
    dispatch no_classes (running subroutine []) = Some (Loop, t1) /\
    dispatch no_classes t1 = Some (Loop, t2) /\
    dispatch no_classes t2 = Some (Loop, t3) /\
    intValue (fresh (store (running subroutine []))) t1
      = Some (ip (running subroutine []) + 3) /\
    peek 1 t1 = Some (fresh (store (running subroutine []))) /\
    ip t3 = ip (running subroutine []) + 3 /\
    sp t3 = sp (running subroutine []) /\
    frame t3 = frame (running subroutine []) /\
    code t3 = code (running subroutine []).
Proof.
  apply (subroutine_returns_after_jsr no_classes (running subroutine [])
           subroutine 0 3 1 2 0 0 0 [0; 0]).
  all: try reflexivity.
  all: cbn; lia.
Defined.

(** ** How [run] ends *)

Lemma quiet_bind {A} (m : M A) (k : A -> M control) :
  (forall a, quiet (k a)) -> quiet (bind m k).
Proof.
  intros H t c t' E. apply bind_inv in E. destruct E as (a & t1 & _ & E).
  exact (H a t1 c t' E).
Qed.

Lemma quiet_ret c : (forall v, c <> Return v) -> quiet (ret c).
Proof. intros H t c' t' E. unfold ret in E. inversion E; subst. exact H. Qed.

Lemma quiet_undefined : quiet undefined.
Proof. intros t c t' E. discriminate E. Qed.

Ltac quiet :=
  repeat first
    [ apply quiet_undefined
    | apply quiet_ret; intros ? ?; discriminate
    | apply quiet_bind; intros
    | match goal with
      | |- quiet (match ?x with _ => _ end) => destruct x
      end
    | progress cbv zeta
    | progress unfold throw, array_load, array_store, do_arraylength,
        do_athrow, do_checkcast, if_icmp, load_local, store_local, unary,
        binary, if_acmp, if_int, if_ref, do_dup2, do_dup2_x1, do_dup2_x2,
        do_pop2, do_swap, do_iinc, do_ret, do_jsr, negative_count,
        do_newarray, do_instanceof, do_anewarray, uncaught ].

Lemma step_quiet resolver : quiet (step resolver).
Proof. unfold step. quiet. Qed.

Lemma do_wide_quiet : quiet do_wide.
Proof. unfold do_wide. quiet. Qed.

Lemma execute_quiet resolver op :
  op <> Op.areturn -> op <> Op.return_ -> quiet (execute resolver op).
Proof.
  intros H1 H2. destruct op; try congruence; cbn [execute];
    try apply do_wide_quiet; quiet.
Qed.

(** A return that ends [run] was executed in a frame without a caller, and
    leaves the frame and the code null. *)
Lemma do_return_exits valued t v t' :
  do_return valued t = Some (Return v, t') ->
  frameNext (frame t) t = Some 0 /\ frame t' = 0 /\ code t' = 0.
Proof.
  unfold do_return. intros H.
  unfold bind at 1, get at 1 in H.
  inv_bind H. apply read_inv in H0. destruct H0 as [Hn ->].
  unfold bind at 1, modify at 1 in H.
  destruct (a =? 0) eqn:E; cbn [negb] in H.
  - apply Z.eqb_eq in E. subst a. destruct valued.
    + inv_bind H. apply pop_inv in H0. subst.
      unfold bind, modify, ret in H. inversion H; subst.
      repeat split; assumption.
    + unfold bind, modify, ret in H. inversion H; subst.
      repeat split; assumption.
  - exfalso.
    assert (Q : quiet (m <- read (frameMethod a) ;;
                       c <- read (methodCode m) ;;
                       modify (set_code c) ;;;
                       i <- read (frameIp a) ;;
                       modify (set_ip i) ;;; ret Loop)) by quiet.
    exact (Q _ _ _ H v eq_refl).
Qed.

Lemma dispatch_exits resolver t v t' :
  dispatch resolver t = Some (Return v, t') -> frame t' = 0 /\ code t' = 0.
Proof.
  unfold dispatch. intros H.
  unfold bind at 1, get at 1 in H.
  inv_bind H. apply read_inv in H0. destruct H0 as [_ ->].
  unfold bind at 1, get at 1 in H.
  inv_bind H. apply read_inv in H0. destruct H0 as [_ ->].
  destruct (decode a0).
  - exfalso. exact (step_quiet resolver _ _ _ H v eq_refl).
  - inv_bind H.
    destruct (decode_further a0) as [op |].
    + assert (K : op = Op.areturn \/ op = Op.return_ \/
                  (op <> Op.areturn /\ op <> Op.return_))
        by (destruct op; auto; right; right; split; discriminate).
      destruct K as [-> | [-> | [N1 N2]]].
      * cbn [execute] in H. apply do_return_exits in H. tauto.
      * cbn [execute] in H. apply do_return_exits in H. tauto.
      * exfalso. exact (execute_quiet resolver op N1 N2 _ _ _ H v eq_refl).
    + destruct (unmodelled a0); [discriminate H |].
      unfold ret in H. inversion H.
Qed.

Lemma unwind_quiet uninit fuel : quiet (unwind uninit fuel).
Proof.
  induction fuel as [| fuel IH]; cbn [unwind]; quiet. exact IH.
Qed.

Lemma throw__quiet uninit : quiet (throw_ uninit).
Proof. unfold throw_. apply quiet_bind. intros h. apply unwind_quiet. Qed.

Lemma invoke_quiet w uninit k : quiet (invoke w uninit k).
Proof. unfold invoke. quiet. Qed.

(** The join points hand a [return value;] on and add none. *)
Lemma join_exits w uninit c t v t' :
  join w uninit c t = Some (Return v, t') -> c = Return v /\ t' = t.
Proof.
  unfold join. intros H. inv_bind H.
  assert (K : forall c1 t1,
             match c1 with
             | Throw => throw_ uninit
             | _ => ret c1
             end t1 = Some (Return v, t') -> c1 = Return v /\ t' = t1).
  { intros c1 t1 E. destruct c1;
      try (unfold ret in E; inversion E; subst; now split).
    exfalso. exact (throw__quiet uninit _ _ _ E v eq_refl). }
  destruct c; try (unfold ret in H0; inversion H0; subst; now apply K).
  apply K in H. destruct H as [-> _].
  exfalso. exact (invoke_quiet w uninit parameterCount _ _ _ H0 v eq_refl).
Qed.

(** X26. [run] returns a value only from a return executed in a frame that
    has no caller: when it returns, [t->frame] and [t->code] are null.  The
    cases for fields, statics, [new_] and the four invocations lie outside
    the rounds that this covers. *)
Theorem run_returns_with_no_frame w uninit resolver fuel t v t' :
  run w uninit resolver fuel t = Some (Returned v, t') ->
  frame t' = 0 /\ code t' = 0.
Proof.
  revert t. induction fuel as [| fuel IH]; intros t H; cbn [run] in H.
  - unfold ret in H. inversion H.
  - inv_bind H. inv_bind H.
    destruct a0; try (unfold ret in H; inversion H; fail);
      try discriminate H.
    + exact (IH _ H).
    + unfold ret in H. inversion H; subst.
      apply join_exits in H1. destruct H1 as [-> ->].
      exact (dispatch_exits _ _ _ _ H0).
Qed.

Lemma run_returns_with_no_frame_witness :
  frame (set_code 0 (set_frame 0 (set_ip 1 (running [177] [])))) = 0 /\
  code (set_code 0 (set_frame 0 (set_ip 1 (running [177] [])))) = 0.
Proof.
  apply (run_returns_with_no_frame 8 zeroed no_classes 1 (running [177] []) 0).
  reflexivity.
Defined.

(** ** The records are kept *)

Lemma grows_refl t : grows t t.
Proof. unfold grows. reflexivity. Qed.

Lemma grows_trans t1 t2 t3 : grows t1 t2 -> grows t2 t3 -> grows t1 t3.
Proof. unfold grows. intros H1 H2. etransitivity; eassumption. Qed.

Lemma grows_same t t' : store t' = store t -> grows t t'.
Proof. unfold grows. intros ->. reflexivity. Qed.

Lemma grows_alloc t c : grows t (set_store (store t ++ [c]) t).
Proof.
  unfold grows. cbn [store set_store]. rewrite fmap_app. now apply prefix_app_r.
Qed.

Lemma grows_update t o c c0 :
  lookup (store t) o = Some c0 -> shape c = shape c0 ->
  grows t (set_store (update (store t) o c) t).
Proof.
  intros L E. unfold grows, update. cbn [store set_store].
  pose proof (lookup_Some_pos _ _ _ L) as P. rewrite lookup_pos in L by exact P.
  rewrite list_fmap_insert, E, list_insert_id; [reflexivity |].
  now rewrite list_lookup_fmap, L.
Qed.

(** What [grows] says of one record. *)
Lemma grows_lookup t t' o c :
  grows t t' -> lookup (store t) o = Some c ->
  exists c', lookup (store t') o = Some c' /\ shape c' = shape c.
Proof.
  intros [k G] L.
  pose proof (lookup_Some_pos _ _ _ L) as P.
  rewrite lookup_pos in * by exact P.
  assert (E : (shape <$> store t') !! Z.to_nat (o - 1) = Some (shape c)).
  { rewrite G. apply lookup_app_l_Some. now rewrite list_lookup_fmap, L. }
  rewrite list_lookup_fmap in E.
  destruct (store t' !! Z.to_nat (o - 1)) as [c' |]; [| discriminate].
  exists c'. split; [reflexivity |]. now inversion E.
Qed.

Lemma kept_undefined {A} : keeps_records (@undefined A).
Proof. intros t a t' H. discriminate H. Qed.

Lemma kept_ret {A} (a : A) : keeps_records (ret a).
Proof. intros t x t' H. unfold ret in H. inversion H. apply grows_refl. Qed.

Lemma kept_get {A} (f : Thread -> A) : keeps_records (get f).
Proof. intros t x t' H. unfold get in H. inversion H. apply grows_refl. Qed.

Lemma kept_read {A} (f : Thread -> option A) : keeps_records (read f).
Proof.
  intros t x t' H. apply read_inv in H. destruct H as [_ ->]. apply grows_refl.
Qed.

Lemma kept_modify (f : Thread -> Thread) :
  (forall t, store (f t) = store t) -> keeps_records (modify f).
Proof.
  intros E t x t' H. unfold modify in H. inversion H. apply grows_same, E.
Qed.

Lemma kept_alloc c : keeps_records (alloc c).
Proof. intros t x t' H. unfold alloc in H. inversion H. apply grows_alloc. Qed.

Lemma kept_bind {A B} (m : M A) (k : A -> M B) :
  keeps_records m -> (forall a, keeps_records (k a)) ->
  keeps_records (bind m k).
Proof.
  intros Hm Hk t b t' H. apply bind_inv in H. destruct H as (a & t1 & H1 & H2).
  eapply grows_trans; [exact (Hm _ _ _ H1) | exact (Hk _ _ _ _ H2)].
Qed.

Lemma kept_push o : keeps_records (push o).
Proof.
  intros t x t' H. unfold push in H.
  destruct (set_nth_Z (stack t) (sp t) o); [| discriminate].
  inversion H. now apply grows_same.
Qed.

Lemma kept_pop : keeps_records pop.
Proof. intros t x t' H. apply pop_inv in H. subst. now apply grows_same. Qed.

Lemma kept_protect {A} p (body : M A) :
  keeps_records body -> keeps_records (protect p body).
Proof.
  intros Hb t a t' H. unfold protect in H. cbn [Protector_new] in H.
  destruct (body _) as [[a' t2] |] eqn:E; [| discriminate].
  inversion H; subst. apply Hb in E.
  unfold grows in *. exact E.
Qed.

Lemma kept_set_frameIp o v : keeps_records (set_frameIp o v).
Proof.
  intros t x t' H. unfold set_frameIp, cell_at in H.
  destruct (lookup (store t) o) as [[] |] eqn:L; try discriminate.
  unfold write in H. rewrite L in H. inversion H.
  eapply grows_update; [exact L | reflexivity].
Qed.

Lemma blank_eq {A} (v l : list A) :
  length v = length l -> ((fun _ => 0) <$> v) = ((fun _ : A => 0) <$> l).
Proof.
  revert l. induction v as [| x v IH]; intros [| y l] H; try discriminate H;
    [reflexivity |].
  cbn. f_equal. apply IH. now inversion H.
Qed.

Lemma set_frameLocals_grows o v t x t' l :
  set_frameLocals o v t = Some (x, t') ->
  frameLocals o t = Some l -> length v = length l ->
  grows t t'.
Proof.
  unfold set_frameLocals, frameLocals, cell_at. intros H Hl E.
  destruct (lookup (store t) o) as [[] |] eqn:L; try discriminate.
  unfold write in H. rewrite L in H. inversion H. inversion Hl; subst.
  eapply grows_update; [exact L |]. cbn [shape]. f_equal.
  now apply blank_eq.
Qed.

Lemma set_nth_Z_length {A} (l l' : list A) i x :
  set_nth_Z l i x = Some l' -> length l' = length l.
Proof.
  intros H. apply set_nth_Z_Some in H. destruct H as [_ ->].
  apply length_insert.
Qed.

Lemma kept_set_local index value : keeps_records (set_local index value).
Proof.
  intros t x t' H. unfold set_local in H.
  unfold bind at 1, get at 1 in H.
  inv_bind H. apply read_inv in H0. destruct H0 as [Hl ->].
  inv_bind H. apply read_inv in H0. destruct H0 as [Hs ->].
  eapply set_frameLocals_grows; [exact H | exact Hl |].
  eapply set_nth_Z_length. exact Hs.
Qed.

Lemma write_grows o c t x t' c0 :
  write o c t = Some (x, t') ->
  lookup (store t) o = Some c0 -> shape c = shape c0 -> grows t t'.
Proof.
  unfold write. intros H L E. rewrite L in H. inversion H.
  eapply grows_update; eassumption.
Qed.

Lemma kept_store_element k array i value :
  keeps_records (store_element k array i value).
Proof.
  intros t x t' H. unfold store_element in H.
  inv_bind H. apply read_inv in H0. destruct H0 as [L ->].
  unfold cell_at in L.
  destruct k, a; try discriminate H;
    repeat (inv_bind H;
            match goal with
            | E : read _ _ = Some _ |- _ =>
                apply read_inv in E; destruct E as [? ->]
            end);
    (eapply write_grows; [exact H | exact L |]);
    cbn [shape]; f_equal; apply blank_eq; eapply set_nth_Z_length; eassumption.
Qed.

Ltac kept_with more :=
  repeat first
    [ apply kept_undefined
    | apply kept_ret
    | apply kept_get
    | apply kept_read
    | apply kept_alloc
    | apply kept_push
    | apply kept_pop
    | apply kept_set_frameIp
    | apply kept_set_local
    | apply kept_store_element
    | apply kept_modify; intros; reflexivity
    | more
    | apply kept_protect
    | apply kept_bind; [| intros]
    | match goal with
      | |- keeps_records (match ?x with _ => _ end) => destruct x
      end
    | progress cbv zeta
    | progress unfold throw, fetch, fetch8, local, branch, branch_w,
        makeByte, makeShort, makeInt, makeLong, makeFrame, makeString,
        makeThrown, makeArrayIndexOutOfBoundsException,
        makeNegativeArrayStoreException, makeClassCastException,
        makeNullPointerException, makeStackOverflowError, load_element,
        array_load, array_store, do_arraylength, do_athrow, do_checkcast,
        if_icmp, load_local, store_local, do_return, unary, binary, if_acmp,
        if_int, if_ref, do_dup2, do_dup2_x1, do_dup2_x2, do_pop2, do_swap,
        do_iinc, do_ret, do_jsr, negative_count, do_newarray, do_instanceof,
        do_anewarray, uncaught ].

Lemma kept_makeTrace_loop fuel :
  forall trace, keeps_records (makeTrace_loop fuel trace).
Proof.
  induction fuel as [| fuel IH]; intros trace; cbn [makeTrace_loop];
    kept_with ltac:(apply IH).
Qed.

Lemma kept_makeTrace : keeps_records makeTrace.
Proof. unfold makeTrace. kept_with ltac:(apply kept_makeTrace_loop). Qed.

Section Kept.

Variables (w : Z) (uninit : nat -> object) (resolver : object -> M object).
Hypothesis resolver_kept : forall name, keeps_records (resolver name).

Lemma kept_resolveClass pool index :
  keeps_records (resolveClass resolver pool index).
Proof.
  unfold resolveClass.
  apply kept_bind; [apply kept_read | intros body].
  apply kept_bind; [apply kept_read | intros o].
  apply kept_bind; [apply kept_read | intros ty].
  assert (K : keeps_records (protect (LocalSlot "pool")
                       (o' <- resolver o ;;
                        e <- get exception ;;
                        if negb (e =? 0) then ret 0
                        else
                          body' <- read (rawArrayBody pool) ;;
                          body'' <- read (fun _ => set_nth_Z body' index o') ;;
                          write pool (Cell.RawArray body'') ;;;
                          ret o'))).
  { apply kept_protect.
    apply kept_bind; [apply resolver_kept | intros o'].
    apply kept_bind; [apply kept_get | intros e].
    destruct (negb (e =? 0)); [apply kept_ret |].
    intros t x t' H.
    inv_bind H. apply read_inv in H0. destruct H0 as [Hb ->].
    inv_bind H. apply read_inv in H0. destruct H0 as [Hs ->].
    inv_bind H. unfold ret in H. inversion H; subst.
    unfold rawArrayBody, cell_at in Hb.
    destruct (lookup (store t) pool) as [[] |] eqn:L; try discriminate.
    inversion Hb; subst.
    eapply write_grows; [exact H0 | exact L |].
    cbn [shape]. f_equal. apply blank_eq. eapply set_nth_Z_length. exact Hs. }
  destruct ty; first [exact K | apply kept_ret].
Qed.

Ltac kept :=
  kept_with ltac:(first [ apply kept_makeTrace
                         | apply kept_resolveClass
                         | apply resolver_kept ]).

Lemma kept_step : keeps_records (step resolver).
Proof. unfold step. kept. Qed.

Lemma kept_do_wide : keeps_records do_wide.
Proof. unfold do_wide. kept. Qed.

Lemma kept_execute op : keeps_records (execute resolver op).
Proof. destruct op; cbn [execute]; try apply kept_do_wide; kept. Qed.

Lemma kept_dispatch : keeps_records (dispatch resolver).
Proof.
  unfold dispatch.
  kept_with ltac:(first [apply kept_step | apply kept_execute]).
Qed.

Lemma memcpy_length : forall dst src n r,
  memcpy w dst src n = Some r -> length r = length dst.
Proof.
  induction dst as [| d dst IH]; intros src n r H; cbn [memcpy] in H.
  - destruct (n <=? 0); [now inversion H | discriminate].
  - destruct (n <=? 0); [now inversion H |].
    destruct src as [| s src]; [discriminate |].
    destruct (w <=? n).
    + destruct (memcpy w dst src (n - w)) as [rest |] eqn:E; [| discriminate].
      cbn in H. inversion H; subst. cbn. f_equal. eapply IH. exact E.
    + now inversion H.
Qed.

Lemma kept_invoke k : keeps_records (invoke w uninit k).
Proof.
  unfold invoke.
  apply kept_bind; [apply kept_get | intros c].
  apply kept_bind; [apply kept_read | intros mc].
  apply kept_bind; [apply kept_read | intros maxStack].
  apply kept_bind; [apply kept_get | intros s].
  destruct (StackSize <? Word.u32 (maxStack + s - k)); [kept |].
  apply kept_bind; [apply kept_get | intros f].
  apply kept_bind; [apply kept_get | intros i].
  apply kept_bind; [apply kept_set_frameIp | intros _].
  apply kept_bind; [apply kept_modify; intros; reflexivity | intros _].
  apply kept_bind; [apply kept_get | intros s'].
  apply kept_bind; [apply kept_read | intros maxLocals].
  apply kept_bind; [unfold makeFrame; apply kept_alloc | intros f'].
  apply kept_bind; [apply kept_modify; intros; reflexivity | intros _].
  intros t x t' H.
  inv_bind H. apply read_inv in H0. destruct H0 as [Hl ->].
  unfold bind at 1, get at 1 in H.
  inv_bind H. apply read_inv in H0. destruct H0 as [Hc ->].
  apply bind_inv in H. destruct H as (u & t1 & Hw & H).
  unfold bind, modify, ret in H. inversion H; subst.
  apply grows_trans with (t2 := t1); [| now apply grows_same].
  eapply set_frameLocals_grows; [exact Hw | exact Hl |].
  eapply memcpy_length. exact Hc.
Qed.

Lemma kept_scan_frame f : keeps_records (scan_frame f).
Proof. unfold scan_frame. kept. Qed.

Lemma kept_unwind fuel : keeps_records (unwind uninit fuel).
Proof.
  induction fuel as [| fuel IH]; cbn [unwind];
    kept_with ltac:(first [apply kept_scan_frame | apply IH]).
Qed.

Lemma kept_throw_ : keeps_records (throw_ uninit).
Proof.
  unfold throw_. apply kept_bind; [apply kept_get | intros h].
  apply kept_unwind.
Qed.

Lemma kept_join c : keeps_records (join w uninit c).
Proof.
  unfold join.
  kept_with ltac:(first [apply kept_invoke | apply kept_throw_]).
Qed.

Lemma kept_run fuel : keeps_records (run w uninit resolver fuel).
Proof.
  induction fuel as [| fuel IH]; cbn [run];
    kept_with ltac:(first [apply kept_dispatch | apply kept_join | apply IH]).
Qed.

End Kept.

(** X27. A run that makes no record changes nothing in the store but
    elements of arrays, local variables of frames and the [ip] of frames.
    With a class resolver that keeps the records, when [run] ends with the
    store as long as it was at the start, so that nothing was allocated in
    between, every record has the type, the size and, but for those parts,
    the contents that it had: no bytecode is rewritten, no array or frame
    is resized, and no boxed [int] or [long] changes its value.  Runs that
    allocate, and with them the collections of the nursery, are left out,
    and so are the cases for fields, statics, [new_] and the four
    invocations. *)
Theorem run_without_allocation_keeps_records w uninit resolver fuel t e t' :
  (forall name, keeps_records (resolver name)) ->
  run w uninit resolver fuel t = Some (e, t') ->
  length (store t') = length (store t) ->
  (shape <$> store t') = (shape <$> store t) /\
  (forall o body, codeBody o t = Some body -> codeBody o t' = Some body) /\
  (forall o v, intValue o t = Some v -> intValue o t' = Some v) /\
  (forall o v, longValue o t = Some v -> longValue o t' = Some v).
Proof.
  intros Hr H Hl.
  pose proof (kept_run w uninit resolver Hr fuel _ _ _ H) as G.
  split.
  { symmetry. apply prefix_length_eq; [exact G |].
    rewrite !length_fmap. lia. }
  repeat split; intros o x Hx.
  - unfold codeBody, cell_at in *.
    destruct (lookup (store t) o) as [c |] eqn:L; [| discriminate].
    destruct (grows_lookup _ _ _ _ G L) as (c' & -> & E).
    destruct c; try discriminate. cbn [shape] in E.
    destruct c'; try discriminate E. now inversion E; subst.
  - unfold intValue, cell_at in *.
    destruct (lookup (store t) o) as [c |] eqn:L; [| discriminate].
    destruct (grows_lookup _ _ _ _ G L) as (c' & -> & E).
    destruct c; try discriminate. cbn [shape] in E.
    destruct c'; try discriminate E. now inversion E; subst.
  - unfold longValue, cell_at in *.
    destruct (lookup (store t) o) as [c |] eqn:L; [| discriminate].
    destruct (grows_lookup _ _ _ _ G L) as (c' & -> & E).
    destruct c; try discriminate. cbn [shape] in E.
    destruct c'; try discriminate E. now inversion E; subst.
Qed.

Lemma run_without_allocation_keeps_records_witness :
  (shape <$> store stored) = (shape <$> store storing) /\
  (forall o body,
     codeBody o storing = Some body -> codeBody o stored = Some body) /\
  (forall o v, intValue o storing = Some v -> intValue o stored = Some v) /\
  (forall o v, longValue o storing = Some v -> longValue o stored = Some v).
Proof.
  apply (run_without_allocation_keeps_records
           8 zeroed no_classes 2 storing (Returned 0)).
  - intros name t a t' H. discriminate H.
  - reflexivity.
  - reflexivity.
Defined.

(** ** The text of a string *)

Lemma until_nul_spec l :
  until_nul l `prefix_of` l /\ Forall (fun c => c <> 0) (until_nul l) /\
  (Forall (fun c => c <> 0) l -> until_nul l = l).
Proof.
  split; [| split; [| apply until_nul_id]].
  - induction l as [| c l IH]; cbn [until_nul]; [reflexivity |].
    destruct (c =? 0); [apply prefix_nil | now apply prefix_cons].
  - induction l as [| c l IH]; cbn [until_nul]; [constructor |].
    destruct (c =? 0) eqn:E; [constructor |].
    apply Z.eqb_neq in E. now constructor.
Qed.

(** X28. [makeString] with a format never fails, and what it makes is cut to
    the buffer: the byte array holds a prefix of the printed text without
    any NUL, of at most 254 characters, and the closing NUL; it is the whole
    text when that has no NUL and at most 254 characters.  The length of
    the string counts the closing NUL. *)
Theorem makeString_cuts_to_buffer text t :
  exists s t' bytes p,
    makeString text t = Some (s, t') /\
    cell_at s t' = Some (Cell.String bytes 0 (Z.of_nat (length p) + 1) 0) /\
    byteArrayBody bytes t' = Some (p ++ [0]) /\
    p `prefix_of` text /\
    Forall (fun c => c <> 0) p /\
    (length p <= 254)%nat /\
    (Forall (fun c => c <> 0) text -> (length text <= 254)%nat -> p = text).
Proof.
  destruct (until_nul_spec (firstn 254 text)) as (P & F & I).
  exists (fresh (store t) + 1),
         (set_store
            (store t ++ [Cell.ByteArray (c_bytes text);
                         Cell.String (fresh (store t)) 0
                           (Z.of_nat (length (c_bytes text))) 0]) t),
         (fresh (store t)), (until_nul (firstn 254 text)).
  split; [apply makeString_eq |].
  split.
  { unfold cell_at. cbn [store set_store]. rewrite lookup_fresh_next.
    unfold c_bytes. rewrite length_app. cbn [length]. do 3 f_equal. lia. }
  split.
  { unfold byteArrayBody, cell_at. cbn [store set_store].
    now rewrite lookup_fresh. }
  split; [etransitivity; [exact P | apply prefix_take] |].
  split; [exact F |].
  split.
  { apply prefix_length in P. rewrite length_take in P. lia. }
  intros Ft Hl. rewrite firstn_all2 in * by lia. now apply until_nul_id.
Qed.

(** ** [instanceof] *)

(** X29. [instanceof] does not pop the reference it tests.  With a
    reference [o] on top of the stack that is null, or that is tested
    against a class that the pool holds resolved, the case goes back to the
    loop with the boxed answer pushed above [o]: the stack is one slot
    higher, [o] is the second slot from the top, and the top is a new boxed
    [int], 1 when [o] is an instance of the class and 0 when it is not or
    is null. *)
Theorem instanceof_keeps_operand resolver t body index1 index2 o answer :
  codeBody (code t) t = Some body ->
  0 <= ip t ->
  ip t + 3 < 2 ^ 32 ->
  nth_Z body (ip t) = Some 193 ->
  nth_Z body (ip t + 1) = Some index1 ->
  nth_Z body (ip t + 2) = Some index2 ->
  0 <= index1 < 256 -> 0 <= index2 < 256 ->
  1 <= sp t < Z.of_nat (length (stack t)) ->
  sp t + 1 < 2 ^ 32 ->
  nth_Z (stack t) (sp t - 1) = Some o ->
  exception t = 0 ->
  (o = 0 /\ answer = false \/
   o <> 0 /\
   exists pool pbody class_ ty,
     codePool (code t) t = Some pool /\
     rawArrayBody pool t = Some pbody /\
     nth_Z pbody (Word.u16 (Z.lor (Z.shiftl index1 8) index2)) = Some class_ /\
     typeOf class_ t = Some ty /\ ty <> ByteArrayType /\
     instanceOf class_ o t = Some answer) ->
  exists t',
    dispatch resolver t = Some (Loop, t') /\
    sp t' = sp t + 1 /\
    ip t' = ip t + 3 /\
    nth_Z (stack t') (sp t' - 2) = Some o /\
    nth_Z (stack t') (sp t' - 1) = Some (fresh (store t)) /\
    intValue (fresh (store t)) t' = Some (if answer then 1 else 0).
Proof.
  intros Hb Hi0 Hi1 H0 H1 H2 R1 R2 Hs Hs' Ho He Hc.
  assert (E1 : Word.u32 (ip t + 1) = ip t + 1) by (apply u32_small; lia).
  assert (E2 : Word.u32 (ip t + 1 + 1) = ip t + 2) by (rewrite u32_small; lia).
  assert (E3 : Word.u32 (ip t + 2 + 1) = ip t + 3) by (rewrite u32_small; lia).
  set (t2 := set_ip (ip t + 3) (set_ip (ip t + 2) (set_ip (ip t + 1) t))).
  assert (Hp : peek 1 t2 = Some o).
  { rewrite peek_eq by (unfold t2; cbn [sp set_ip]; lia). exact Ho. }
  set (t' := set_sp (sp t + 1)
               (set_stack (<[Z.to_nat (sp t) := fresh (store t)]> (stack t))
                  (set_store
                     (store t ++ [Cell.Int (if answer then 1 else 0)]) t2))).
  assert (P : forall v : Z, v = (if answer then 1 else 0) ->
              (x <- makeInt v ;; push x ;;; ret Loop) t2 = Some (Loop, t')).
  { intros v ->. unfold makeInt.
    rewrite alloc_push_eq by (unfold t2; cbn [sp stack set_ip]; lia).
    rewrite s32_small by (destruct answer; lia). reflexivity. }
  exists t'. split.
  - erewrite dispatch_further by (try exact Hb; try exact H0; reflexivity).
    cbn [execute]. unfold do_instanceof.
    erewrite bind_Some by
      (apply fetch8_eq with (body := body); cbn [code ip set_ip];
       [exact Hb | rewrite E1; exact H1]).
    erewrite bind_Some by
      (apply fetch8_eq with (body := body); cbn [code ip set_ip];
       [exact Hb | rewrite E1, E2; exact H2]).
    cbn [ip set_ip]. rewrite E1, E2, E3, !uint8_small by assumption.
    fold t2.
    erewrite bind_Some by (apply read_eq; exact Hp).
    destruct Hc as [[-> ->] | (Hn & pool & pbody & class_ & ty & Hcp & Hpb
                                & Hcl & Hty & Hne & Hin)].
    + cbn [Z.eqb negb]. now apply P.
    + replace (o =? 0) with false by (symmetry; apply Z.eqb_neq; exact Hn).
      cbn [negb]. unfold bind at 1, get at 1.
      erewrite bind_Some by (apply read_eq; exact Hcp).
      erewrite bind_Some
        by (eapply resolveClass_resolved;
            [exact Hpb | exact Hcl | exact Hty | exact Hne]).
      unfold bind at 1, get at 1.
      replace (exception t2) with 0 by (symmetry; exact He).
      cbn [Z.eqb negb].
      erewrite bind_Some by (apply read_eq; exact Hp).
      erewrite bind_Some
        by (apply read_eq; rewrite (instanceOf_same t2 t eq_refl); exact Hin).
      now apply P.
  - unfold t', t2.
    cbn [sp ip stack store set_sp set_stack set_store set_ip].
    split; [reflexivity |]. split; [reflexivity |].
    replace (sp t + 1 - 2) with (sp t - 1) by lia.
    replace (sp t + 1 - 1) with (sp t) by lia.
    rewrite !nth_Z_insert by lia. rewrite Z.eqb_refl.
    replace (sp t - 1 =? sp t) with false by (symmetry; apply Z.eqb_neq; lia).
    split; [exact Ho |]. split; [reflexivity |].
    unfold intValue, cell_at.
    cbn [store set_sp set_stack set_store set_ip].
    now rewrite lookup_fresh.
Qed.

Lemma instanceof_keeps_operand_witness :
  exists t',
    dispatch no_classes testing = Some (Loop, t') /\
    sp t' = sp testing + 1 /\
    ip t' = ip testing + 3 /\
    nth_Z (stack t') (sp t' - 2) = Some 9 /\
    nth_Z (stack t') (sp t' - 1) = Some (fresh (store testing)) /\
    intValue (fresh (store testing)) t' = Some (if false then 1 else 0).
Proof.
  apply (instanceof_keeps_operand no_classes testing [193; 0; 1] 0 1 9 false).
  all: try reflexivity.
  all: try (cbn; lia).
  right. split; [discriminate |].
  exists 8, [0; 7], 7, ClassType. repeat split. discriminate.
Defined.
